(** * pokemonSim: the battle engine (pokemon.py, player.py, battle.py)

    A shallow embedding of the combatant model, the roster and the battle
    engine, and the properties of the specification that concern them.

    Python [int] is [Z]; Python [float] is IEEE-754 binary64, here the
    primitive [float] of the kernel; a [dict] with string keys is a
    [gmap string _]; [None]-able values are [option]s. Objects mutated
    through references (the Pokémon of a team) live in the engine state and
    are addressed by the side that owns them and their roster index. *)

From Stdlib Require Import ZArith Floats Lia.
From Stdlib Require Uint63.
From Stdlib Require Strings.Byte.
Import Stdlib.Init.Byte.
From stdpp Require Import base option list strings gmap pretty.

Local Open Scope string_scope.
Local Open Scope Z_scope.

Set Warnings "-inexact-float".

(** ** Python numbers *)

Module Py.

(** The exceptions the engine can raise. *)
Inductive exn :=
  ZeroDivisionError | ValueError | OverflowError | IndexError | AttributeError.

Inductive res (A : Type) := Ok (a : A) | Raise (e : exn).
Arguments Ok {A} a.
Arguments Raise {A} e.

Definition rbind {A B} (m : res A) (k : A -> res B) : res B :=
  match m with
  | Ok a => k a
  | Raise e => Raise e
  end.

(** A numeric value: [int] or [float]. *)
Inductive num := Int (z : Z) | Float (f : float).

(** [float(z)]: the nearest double, ties to even; an [int] beyond the
    range of doubles raises. *)
Definition float_of_Z (z : Z) : res float :=
  let f := SF2Prim (binary_normalize prec emax z 0 false) in
  if is_infinity f then Raise OverflowError else Ok f.

(** The integer [z] as an exact, unrounded binary float. *)
Definition exact (z : Z) : spec_float :=
  match z with
  | Z0 => S754_zero false
  | Zpos p => S754_finite false p 0
  | Zneg p => S754_finite true p 0
  end.

Definition to_float (x : num) : res float :=
  match x with
  | Int z => float_of_Z z
  | Float f => Ok f
  end.

(** [int(f)]: truncation toward zero. *)
Definition trunc (f : float) : res Z :=
  match Prim2SF f with
  | S754_nan => Raise ValueError
  | S754_infinity _ => Raise OverflowError
  | S754_zero _ => Ok 0
  | S754_finite s m e => Ok (cond_Zopp s (Z.shiftl (Zpos m) e))
  end.

Definition int (x : num) : res Z :=
  match x with
  | Int z => Ok z
  | Float f => trunc f
  end.

Definition is_zero (x : num) : bool :=
  match x with
  | Int z => Z.eqb z 0
  | Float f => PrimFloat.is_zero f
  end.

(** [x * y] *)
Definition mul (x y : num) : res num :=
  match x, y with
  | Int a, Int b => Ok (Int (a * b))
  | _, _ =>
      rbind (to_float x) (fun a =>
      rbind (to_float y) (fun b => Ok (Float (a * b)%float)))
  end.

(** [x + y] *)
Definition add (x y : num) : res num :=
  match x, y with
  | Int a, Int b => Ok (Int (a + b))
  | _, _ =>
      rbind (to_float x) (fun a =>
      rbind (to_float y) (fun b => Ok (Float (a + b)%float)))
  end.

(** [x / y], true division: always a float; on two [int]s the quotient
    is rounded once, from the exact operands. *)
Definition truediv (x y : num) : res num :=
  if is_zero y then Raise ZeroDivisionError
  else match x, y with
       | Int a, Int b =>
           let q := SF2Prim (SF64div (exact a) (exact b)) in
           if is_infinity q then Raise OverflowError else Ok (Float q)
       | _, _ =>
           rbind (to_float x) (fun a =>
           rbind (to_float y) (fun b => Ok (Float (a / b)%float)))
       end.

(** The order of an [int] and a [float], compared exactly ([None] on NaN). *)
Definition compare_Z_float (a : Z) (f : float) : option comparison :=
  match Prim2SF f with
  | S754_nan => None
  | S754_infinity s => Some (if s then Gt else Lt)
  | S754_zero _ => Some (a ?= 0)
  | S754_finite s m e =>
      let v := cond_Zopp s (Zpos m) in
      Some (if 0 <=? e then a ?= v * 2 ^ e else a * 2 ^ (- e) ?= v)
  end.

(** [x < y] *)
Definition ltb (x y : num) : bool :=
  match x, y with
  | Int a, Int b => a <? b
  | Float a, Float b => (a <? b)%float
  | Int a, Float b =>
      match compare_Z_float a b with Some Lt => true | _ => false end
  | Float a, Int b =>
      match compare_Z_float b a with Some Gt => true | _ => false end
  end.

(** [x > y] *)
Definition gtb (x y : num) : bool := ltb y x.

(** [x == y] *)
Definition eqb (x y : num) : bool :=
  match x, y with
  | Int a, Int b => a =? b
  | Float a, Float b => (a =? b)%float
  | Int a, Float b | Float b, Int a =>
      match compare_Z_float a b with Some Eq => true | _ => false end
  end.

End Py.

Import Py.

(** [bool(s)] of an optional string: [None] and the empty string are false. *)
Definition truthy (s : option string) : bool :=
  match s with
  | Some s => negb (String.eqb s "")
  | None => false
  end.

(** ** data.py: an entry of POKEMON_DATA

    The constructor of a Pokémon reads every key of an entry with
    [data[...]]: an entry is a record. *)

Module Species.

Record BaseStats := mk_base_stats {
  hp : Z;
  attack : Z;
  defense : Z;
  sp_attack : Z;
  sp_defense : Z;
  speed : Z
}.

Record t := mk {
  name : string;
  types : list string;
  moves : list string;
  base_stats : BaseStats
}.

End Species.

(** ** pokemon.py: class Pokemon *)

Module Pokemon.

Record t := mk {
  pokemon_id : Z;
  name : string;
  nickname : string;
  types : list string;
  level : Z;
  moves : list string;
  max_hp : Z;
  current_hp : Z;
  attack : Z;
  defense : Z;
  sp_attack : Z;
  sp_defense : Z;
  speed : Z;
  stat_stages : gmap string Z;
  status : option string
}.

Definition set_current_hp (hp : Z) (self : t) : t :=
  mk (pokemon_id self) (name self) (nickname self) (types self) (level self)
     (moves self) (max_hp self) hp (attack self) (defense self)
     (sp_attack self) (sp_defense self) (speed self) (stat_stages self)
     (status self).

Definition set_stat_stages (st : gmap string Z) (self : t) : t :=
  mk (pokemon_id self) (name self) (nickname self) (types self) (level self)
     (moves self) (max_hp self) (current_hp self) (attack self) (defense self)
     (sp_attack self) (sp_defense self) (speed self) st (status self).

Definition set_status (s : option string) (self : t) : t :=
  mk (pokemon_id self) (name self) (nickname self) (types self) (level self)
     (moves self) (max_hp self) (current_hp self) (attack self) (defense self)
     (sp_attack self) (sp_defense self) (speed self) (stat_stages self) s.

(** The stat stages [__init__] installs. *)
Definition initial_stat_stages : gmap string Z :=
  <["attack" := 0]> (<["defense" := 0]> (<["sp_attack" := 0]>
  (<["sp_defense" := 0]> (<["speed" := 0]> (<["accuracy" := 0]>
  (<["evasion" := 0]> ∅)))))).

Definition is_fainted (self : t) : bool := current_hp self <=? 0.

(** The part of [get_modified_stat] below the lookup of the base value. *)
Definition modified (self : t) (stat_name : string) (base_value : Z)
  : res num :=
  let stage := default 0 (stat_stages self !! stat_name) in
  rbind
    (if bool_decide (stat_name ∈ ["accuracy"; "evasion"]) then
       if 0 <=? stage then truediv (Int (3 + stage)) (Int 3)
       else truediv (Int 3) (Int (3 - stage))
     else
       if 0 <=? stage then truediv (Int (2 + stage)) (Int 2)
       else truediv (Int 2) (Int (2 - stage)))
    (fun multiplier =>
  rbind
    (if String.eqb stat_name "speed"
        && bool_decide (status self = Some "paralyzed")
     then mul multiplier (Float 0.5)
     else if String.eqb stat_name "attack"
             && bool_decide (status self = Some "burned")
     then mul multiplier (Float 0.5)
     else Ok multiplier)
    (fun multiplier =>
  rbind (mul (Int base_value) multiplier) (fun v =>
  rbind (int v) (fun z => Ok (Int z))))).

Definition get_modified_stat (self : t) (stat_name : string) : res num :=
  if String.eqb stat_name "attack" then modified self stat_name (attack self)
  else if String.eqb stat_name "defense" then
    modified self stat_name (defense self)
  else if String.eqb stat_name "sp_attack" then
    modified self stat_name (sp_attack self)
  else if String.eqb stat_name "sp_defense" then
    modified self stat_name (sp_defense self)
  else if String.eqb stat_name "speed" then
    modified self stat_name (speed self)
  else Ok (Float 1.0).

Definition take_damage (damage : Z) (self : t) : Z * t :=
  let damage := Z.max 1 damage in
  (damage, set_current_hp (Z.max 0 (current_hp self - damage)) self).

Definition heal (amount : Z) (self : t) : Z * t :=
  if is_fainted self then (0, self)
  else
    let old_hp := current_hp self in
    let self' := set_current_hp (Z.min (max_hp self) (current_hp self + amount)) self in
    (current_hp self' - old_hp, self').

Definition apply_status (new_status : string) (self : t) : bool * t :=
  if truthy (status self) then (false, self)
  else if String.eqb new_status "paralyzed"
          && bool_decide ("Electric" ∈ types self) then (false, self)
  else if String.eqb new_status "poisoned"
          && (bool_decide ("Poison" ∈ types self)
              || bool_decide ("Steel" ∈ types self)) then (false, self)
  else if String.eqb new_status "burned"
          && bool_decide ("Fire" ∈ types self) then (false, self)
  else (true, set_status (Some new_status) self).

Definition clear_status (self : t) : t := set_status None self.

Definition modify_stat_stage (stat : string) (stages : Z) (self : t) : Z * t :=
  match stat_stages self !! stat with
  | None => (0, self)
  | Some old_stage =>
      let new_stage := Z.max (-6) (Z.min 6 (old_stage + stages)) in
      (new_stage - old_stage,
       set_stat_stages (<[stat := new_stage]> (stat_stages self)) self)
  end.

Definition reset_stat_stages (self : t) : t :=
  set_stat_stages ((fun _ => 0) <$> stat_stages self) self.

(** [int((2 * base_hp * self.level) / 100) + self.level + 10] *)
Definition _calculate_hp (level base_hp : Z) : res Z :=
  rbind (truediv (Int (2 * base_hp * level)) (Int 100)) (fun q =>
  rbind (int q) (fun z => Ok (z + level + 10))).

(** [int((2 * base_stat * self.level) / 100) + 5] *)
Definition _calculate_stat (level base_stat : Z) : res Z :=
  rbind (truediv (Int (2 * base_stat * level)) (Int 100)) (fun q =>
  rbind (int q) (fun z => Ok (z + 5))).

(** [Pokemon(pokemon_id, level, nickname)], over the table [POKEMON_DATA]. *)
Definition __init__ (POKEMON_DATA : gmap Z Species.t)
  (pokemon_id level : Z) (nickname : option string) : res t :=
  match POKEMON_DATA !! pokemon_id with
  | None => Raise ValueError
  | Some data =>
      let base := Species.base_stats data in
      rbind (_calculate_hp level (Species.hp base)) (fun max_hp =>
      rbind (_calculate_stat level (Species.attack base)) (fun attack =>
      rbind (_calculate_stat level (Species.defense base)) (fun defense =>
      rbind (_calculate_stat level (Species.sp_attack base)) (fun sp_attack =>
      rbind (_calculate_stat level (Species.sp_defense base)) (fun sp_defense =>
      rbind (_calculate_stat level (Species.speed base)) (fun speed =>
      Ok (mk pokemon_id (Species.name data)
            (if truthy nickname then default "" nickname else Species.name data)
            (Species.types data) level (take 4 (Species.moves data))
            max_hp max_hp attack defense sp_attack sp_defense speed
            initial_stat_stages None)))))))
  end.

End Pokemon.

(** ** player.py: class Player *)

Module Player.

(** [active_pokemon_index] is written by [__init__] (0) and by
    [switch_pokemon] (an index in range) only: it is a natural number. *)
Record t := mk {
  name : string;
  team : list Pokemon.t;
  active_pokemon_index : nat;
  potions : Z
}.

Definition set_team (tm : list Pokemon.t) (self : t) : t :=
  mk (name self) tm (active_pokemon_index self) (potions self).

Definition set_active_pokemon_index (i : nat) (self : t) : t :=
  mk (name self) (team self) i (potions self).

Definition set_potions (n : Z) (self : t) : t :=
  mk (name self) (team self) (active_pokemon_index self) n.

Definition active_pokemon (self : t) : option Pokemon.t :=
  if bool_decide (team self = [])
     || (length (team self) <=? active_pokemon_index self)%nat
  then None
  else team self !! active_pokemon_index self.

(** [0 <= index < len(self.team)] *)
Definition in_range (index : Z) (self : t) : bool :=
  (0 <=? index) && (index <? Z.of_nat (length (team self))).

Definition switch_pokemon (index : Z) (self : t) : bool * t :=
  match (if in_range index self then team self !! Z.to_nat index else None) with
  | Some p =>
      if negb (Pokemon.is_fainted p)
      then (true, set_active_pokemon_index (Z.to_nat index) self)
      else (false, self)
  | None => (false, self)
  end.

Definition use_potion (pokemon_index : Z) (self : t) : bool * t :=
  if potions self <=? 0 then (false, self)
  else
    match (if in_range pokemon_index self
           then team self !! Z.to_nat pokemon_index else None) with
    | Some pokemon =>
        if negb (Pokemon.is_fainted pokemon)
           && (Pokemon.current_hp pokemon <? Pokemon.max_hp pokemon)
        then
          let heal_amount :=
            Z.min 20 (Pokemon.max_hp pokemon - Pokemon.current_hp pokemon) in
          let pokemon' := snd (Pokemon.heal heal_amount pokemon) in
          (true,
           set_potions (potions self - 1)
             (set_team (<[Z.to_nat pokemon_index := pokemon']> (team self)) self))
        else (false, self)
    | None => (false, self)
    end.

Definition has_usable_pokemon (self : t) : bool :=
  existsb (fun pokemon => negb (Pokemon.is_fainted pokemon)) (team self).

(** [Player(name)] *)
Definition __init__ (name : string) : t := mk name [] 0 3.

Definition add_pokemon (pokemon : Pokemon.t) (self : t) : res unit * t :=
  if (length (team self) <? 6)%nat
  then (Ok tt, set_team (team self ++ [pokemon]) self)
  else (Raise ValueError, self).

End Player.

(** ** data.py: the shape of the static tables

    The module itself is not part of the sources; the engine reads its
    tables through [dict.get] with the defaults written below, so an entry
    is a record of optional fields and the tables are parameters. *)

Module Data.

Record Effect := mk_effect {
  status : option string;
  chance : option num;
  stat_boost : option (list (string * Z));
  stat_drop : option (list (string * Z));
  stat_boost_chance : option (list (string * Z));
  stat_drop_chance : option (list (string * Z));
  heal : option num;
  drain : option num;
  recoil : option num;
  priority : option Z
}.

Record Move := mk_move {
  type : option string;
  category : option string;
  power : option Z;
  accuracy : option Z;
  effect : option Effect
}.

(** [{}] *)
Definition empty_effect : Effect :=
  mk_effect None None None None None None None None None None.

Definition empty_move : Move := mk_move None None None None None.

(** [not move]: the dict has no key. *)
Definition is_empty (m : Move) : bool :=
  match m with
  | mk_move None None None None None => true
  | _ => false
  end.

End Data.

(** ** battle.py: class Battle *)

Module Battle.

Inductive Side := Player1 | Player2.

Global Instance Side_eq_dec : EqDecision Side.
Proof. solve_decision. Defined.

(** An action, a dict read with [get]: absent keys are [None]. *)
Record Action := mk_action {
  act_type : option string;
  act_move : option string;
  act_pokemon_index : option Z;
  act_item : option string;
  act_target_index : option Z
}.

(** What one call to the module [random] returns, by the call made:
    [random()], [randint(1, 100)], [uniform(0.85, 1.0)]. *)
Record Draw := mk_draw {
  random : float;
  randint : Z;
  uniform : float
}.

(** The battle object, and [drawn], the number of calls made to [random]
    so far. The two players are distinct objects and no Pokémon object
    sits in two roster slots. *)
Record t := mk {
  player1 : Player.t;
  player2 : Player.t;
  current_turn : Z;
  is_battle_over : bool;
  winner : option Side;
  battle_log : list string;
  drawn : nat
}.

Definition player (s : Side) (self : t) : Player.t :=
  match s with
  | Player1 => player1 self
  | Player2 => player2 self
  end.

Definition set_player (s : Side) (p : Player.t) (self : t) : t :=
  match s with
  | Player1 =>
      mk p (player2 self) (current_turn self) (is_battle_over self)
         (winner self) (battle_log self) (drawn self)
  | Player2 =>
      mk (player1 self) p (current_turn self) (is_battle_over self)
         (winner self) (battle_log self) (drawn self)
  end.

Definition set_battle_log (l : list string) (self : t) : t :=
  mk (player1 self) (player2 self) (current_turn self) (is_battle_over self)
     (winner self) l (drawn self).

Definition set_drawn (n : nat) (self : t) : t :=
  mk (player1 self) (player2 self) (current_turn self) (is_battle_over self)
     (winner self) (battle_log self) n.

Definition set_current_turn (n : Z) (self : t) : t :=
  mk (player1 self) (player2 self) n (is_battle_over self)
     (winner self) (battle_log self) (drawn self).

Definition set_over (w : option Side) (self : t) : t :=
  mk (player1 self) (player2 self) (current_turn self) true
     w (battle_log self) (drawn self).

(** The opponent of a side: [self.player2 if player == self.player1 else
    self.player1]. *)
Definition other (s : Side) : Side :=
  match s with
  | Player1 => Player2
  | Player2 => Player1
  end.

(** A reference to a Pokémon object: its owner and its roster slot. *)
Definition Ref : Type := Side * nat.

(** *** The monad of the engine: state, with exceptions that keep the
    mutations made before they were raised. *)

Definition M (A : Type) : Type := t -> res A * t.

Global Instance M_ret : MRet M := fun A a self => (Ok a, self).

Global Instance M_bind : MBind M := fun A B k m self =>
  match m self with
  | (Ok a, self') => k a self'
  | (Raise e, self') => (Raise e, self')
  end.

Global Instance res_ret : MRet res := fun A a => Ok a.

Global Instance res_bind : MBind res := fun A B k m => rbind m k.

Definition lift {A} (r : res A) : M A := fun self => (r, self).

Definition gets {A} (f : t -> A) : M A := fun self => (Ok (f self), self).

Definition modify (f : t -> t) : M unit := fun self => (Ok tt, f self).

(** [self.battle_log.append(msg)] *)
Definition log (msg : string) : M unit :=
  modify (fun self => set_battle_log (battle_log self ++ [msg]) self).

(** A method call on a player object. *)
Definition on_player {A} (s : Side) (method : Player.t -> A * Player.t) : M A :=
  fun self =>
    let '(a, p) := method (player s self) in (Ok a, set_player s p self).

(** Reading an object through a reference. *)
Definition deref (r : Ref) : M Pokemon.t :=
  fun self =>
    match Player.team (player r.1 self) !! r.2 with
    | Some p => (Ok p, self)
    | None => (Raise IndexError, self)
    end.

(** A method call on a Pokémon object. *)
Definition call {A} (r : Ref) (method : Pokemon.t -> A * Pokemon.t) : M A :=
  fun self =>
    match Player.team (player r.1 self) !! r.2 with
    | Some p =>
        let '(a, p') := method p in
        (Ok a,
         set_player r.1
           (Player.set_team (<[r.2 := p']> (Player.team (player r.1 self)))
              (player r.1 self)) self)
    | None => (Raise IndexError, self)
    end.

(** [player.active_pokemon], as a reference. *)
Definition active_pokemon (s : Side) : M (option Ref) :=
  gets (fun self =>
    match Player.active_pokemon (player s self) with
    | Some _ => Some (s, Player.active_pokemon_index (player s self))
    | None => None
    end).

Fixpoint for_each {A} (l : list A) (body : A -> M unit) : M unit :=
  match l with
  | [] => mret tt
  | x :: l => body x;; for_each l body
  end.

Definition when (b : bool) (m : M unit) : M unit := if b then m else mret tt.

Section Engine.

(** [data.MOVE_DATA], [data.TYPE_CHART] and the module [random]. *)
Variable MOVE_DATA : gmap string Data.Move.
Variable TYPE_CHART : gmap string (gmap string float).
Variable random_source : nat -> Draw.

Definition draw : M Draw :=
  fun self => (Ok (random_source (drawn self)), set_drawn (S (drawn self)) self).

Definition random_random : M num := d ← draw; mret (Float (random d)).
Definition random_randint_1_100 : M Z := d ← draw; mret (randint d).
Definition random_uniform_085_1 : M num := d ← draw; mret (Float (uniform d)).

Definition move_priority (a : Action) : Z :=
  default 0
    (Data.priority
       (default Data.empty_effect
          (Data.effect
             (default Data.empty_move
                (MOVE_DATA !! default "" (act_move a)))))).

Definition speed_of (s : Side) : M num :=
  p ← gets (fun self => Player.active_pokemon (player s self));
  match p with
  | Some p => lift (Pokemon.get_modified_stat p "speed")
  | None => mret (Int 0)
  end.

Definition _determine_action_order (player1_action player2_action : Action)
  : M (list (Side * Action)) :=
  let first1 := [(Player1, player1_action); (Player2, player2_action)] in
  let first2 := [(Player2, player2_action); (Player1, player1_action)] in
  if bool_decide (act_type player1_action = Some "pass") then
    mret [(Player2, player2_action)]
  else if bool_decide (act_type player2_action = Some "pass") then
    mret [(Player1, player1_action)]
  else if bool_decide (act_type player1_action ∈ [Some "switch"; Some "item"])
          && bool_decide (act_type player2_action = Some "move") then
    mret first1
  else if bool_decide (act_type player2_action ∈ [Some "switch"; Some "item"])
          && bool_decide (act_type player1_action = Some "move") then
    mret first2
  else if bool_decide (act_type player1_action = act_type player2_action) then
    let p1_priority := move_priority player1_action in
    let p2_priority := move_priority player2_action in
    if bool_decide (act_type player1_action = Some "move")
       && negb (p1_priority =? p2_priority) then
      if p2_priority <? p1_priority then mret first1 else mret first2
    else
      p1_speed ← speed_of Player1;
      p2_speed ← speed_of Player2;
      if gtb p1_speed p2_speed then mret first1
      else if gtb p2_speed p1_speed then mret first2
      else
        r ← random_random;
        if ltb r (Float 0.5) then mret first1 else mret first2
  else mret first1.

(** The product of the chart's entries over the defender's types. *)
Definition type_effectiveness (move_type : string) (defender_types : list string)
  : float :=
  foldl (fun effectiveness defender_type =>
           (effectiveness *
            default 1.0%float
              (default ∅ (TYPE_CHART !! move_type) !! defender_type))%float)
        1.0%float defender_types.

Definition _calculate_damage (attacker defender : Ref) (move : Data.Move)
  : M Z :=
  let power := default 0 (Data.power move) in
  let category := default "Physical" (Data.category move) in
  let move_type := default "Normal" (Data.type move) in
  if power =? 0 then mret 0
  else
    a ← deref attacker;
    d ← deref defender;
    attack_stat ← lift (Pokemon.get_modified_stat a
                          (if String.eqb category "Physical"
                           then "attack" else "sp_attack"));
    defense_stat ← lift (Pokemon.get_modified_stat d
                           (if String.eqb category "Physical"
                            then "defense" else "sp_defense"));
    damage ← lift (x ← truediv (Int (2 * Pokemon.level a)) (Int 5);
                   x ← add x (Int 2);
                   x ← mul x (Int power);
                   x ← mul x attack_stat;
                   x ← truediv x defense_stat;
                   x ← truediv x (Int 50);
                   add x (Int 2));
    damage ← (if bool_decide (move_type ∈ Pokemon.types a)
              then lift (mul damage (Float 1.5)) else mret damage);
    let effectiveness := Float (type_effectiveness move_type (Pokemon.types d)) in
    damage ← lift (mul damage effectiveness);
    (if gtb effectiveness (Float 1.0) then log "It's super effective!"
     else if ltb effectiveness (Float 1.0) && gtb effectiveness (Int 0)
     then log "It's not very effective..."
     else when (eqb effectiveness (Int 0))
            (log ("It doesn't affect " +:+ Pokemon.nickname d +:+ "...")));;
    variance ← random_uniform_085_1;
    damage ← lift (mul damage variance);
    crit ← random_random;
    damage ← (if ltb crit (Float 0.0625)
              then damage ← lift (mul damage (Float 1.5));
                   log "A critical hit!";; mret damage
              else mret damage);
    z ← lift (int damage);
    mret (Z.max 1 z).

(** The loops over the items of a stat dict: [modify_stat_stage(stat,
    delta(stages))] on [target] and, when the stage moved, a line with
    [verb(stages)]. *)
Definition modify_stages (target : Ref) (delta : Z -> Z) (l : list (string * Z))
  (verb : Z -> string) : M unit :=
  for_each l (fun '(stat, stages) =>
    n ← call target (Pokemon.modify_stat_stage stat (delta stages));
    p ← deref target;
    when (negb (n =? 0))
      (log (Pokemon.nickname p +:+ "'s " +:+ stat +:+ " " +:+ verb stages +:+ "!"))).

Definition _apply_move_effects (move : Data.Move) (attacker defender : Ref)
  (attacker_player defender_player : Side) : M unit :=
  let effect := default Data.empty_effect (Data.effect move) in
  (match Data.status effect with
   | Some status =>
       let chance := default (Float 1.0) (Data.chance effect) in
       r ← random_random;
       when (ltb r chance)
         (applied ← call defender (Pokemon.apply_status status);
          d ← deref defender;
          when applied (log (Pokemon.nickname d +:+ " was " +:+ status +:+ "!")))
   | None => mret tt
   end);;
  (match Data.stat_boost effect with
   | Some l =>
       modify_stages attacker (fun stages => stages) l
         (fun stages => if 0 <? stages then "rose" else "fell")
   | None => mret tt
   end);;
  (match Data.stat_drop effect with
   | Some l => modify_stages defender Z.opp l (fun _ => "fell")
   | None => mret tt
   end);;
  (match Data.stat_boost_chance effect with
   | Some l =>
       let chance := default (Float 0.1) (Data.chance effect) in
       r ← random_random;
       when (ltb r chance)
         (modify_stages attacker (fun stages => stages) l (fun _ => "rose"))
   | None => mret tt
   end);;
  (match Data.stat_drop_chance effect with
   | Some l =>
       let chance := default (Float 0.1) (Data.chance effect) in
       r ← random_random;
       when (ltb r chance) (modify_stages defender Z.opp l (fun _ => "fell"))
   | None => mret tt
   end);;
  (match Data.heal effect with
   | Some heal_percent =>
       a ← deref attacker;
       heal_amount ← lift (x ← mul (Int (Pokemon.max_hp a)) heal_percent; int x);
       actual_heal ← call attacker (Pokemon.heal heal_amount);
       when (0 <? actual_heal)
         (log (Pokemon.nickname a +:+ " restored " +:+ pretty actual_heal +:+ " HP!"))
   | None => mret tt
   end);;
  (match Data.drain effect with
   | Some drain_percent =>
       d ← deref defender;
       when (negb (Pokemon.is_fainted d))
         (let damage_dealt :=
            Z.min (Pokemon.max_hp d - Pokemon.current_hp d)
                  (default 0 (Data.power move)) in
          heal_amount ← lift (x ← mul (Int damage_dealt) drain_percent; int x);
          actual_heal ← call attacker (Pokemon.heal heal_amount);
          a ← deref attacker;
          when (0 <? actual_heal)
            (log (Pokemon.nickname a +:+ " restored " +:+ pretty actual_heal +:+ " HP!")))
   | None => mret tt
   end);;
  (match Data.recoil effect with
   | Some recoil_percent =>
       d ← deref defender;
       let damage_dealt :=
         Z.min (Pokemon.max_hp d - Pokemon.current_hp d)
               (default 0 (Data.power move)) in
       recoil_damage ← lift (x ← mul (Int damage_dealt) recoil_percent; int x);
       when (0 <? recoil_damage)
         (actual_recoil ← call attacker (Pokemon.take_damage recoil_damage);
          a ← deref attacker;
          log (Pokemon.nickname a +:+ " was hurt by recoil! ("
               +:+ pretty actual_recoil +:+ " damage)");;
          when (Pokemon.is_fainted a)
            (name ← gets (fun self => Player.name (player attacker_player self));
             log (name +:+ "'s " +:+ Pokemon.nickname a
                  +:+ " fainted due to recoil!")))
   | None => mret tt
   end).

Definition _execute_move (player : Side) (move_name : string) : M unit :=
  attacker ← active_pokemon player;
  match attacker with
  | None => mret tt
  | Some attacker =>
  a ← deref attacker;
  if Pokemon.is_fainted a then mret tt
  else
  let opponent := other player in
  defender ← active_pokemon opponent;
  match defender with
  | None => mret tt
  | Some defender =>
  d ← deref defender;
  if Pokemon.is_fainted d then mret tt
  else
  let move := default Data.empty_move (MOVE_DATA !! move_name) in
  if Data.is_empty move || negb (bool_decide (move_name ∈ Pokemon.moves a)) then
    log (Pokemon.nickname a +:+ " tried to use " +:+ move_name
         +:+ ", but it doesn't know that move!")
  else
  player_name ← gets (fun self => Player.name (Battle.player player self));
  log (player_name +:+ "'s " +:+ Pokemon.nickname a +:+ " used "
       +:+ move_name +:+ "!");;
  prevented ←
    (if bool_decide (Pokemon.status a = Some "paralyzed") then
       r ← random_random;
       if ltb r (Float 0.25) then
         log (Pokemon.nickname a +:+ " is paralyzed and couldn't move!");;
         mret true
       else mret false
     else if bool_decide (Pokemon.status a = Some "frozen") then
       r ← random_random;
       if ltb r (Float 0.8) then
         log (Pokemon.nickname a +:+ " is frozen solid!");; mret true
       else mret false
     else if bool_decide (Pokemon.status a = Some "asleep") then
       log (Pokemon.nickname a +:+ " is fast asleep!");; mret true
     else mret false);
  if prevented : bool then mret tt
  else
  let accuracy := default 100 (Data.accuracy move) in
  missed ←
    (if accuracy <? 100 then
       r ← random_randint_1_100;
       if accuracy <? r then
         log (Pokemon.nickname a +:+ "'s attack missed!");; mret true
       else mret false
     else mret false);
  if missed : bool then mret tt
  else
  let category := default "Physical" (Data.category move) in
  if bool_decide (category ∈ ["Physical"; "Special"]) then
    damage ← _calculate_damage attacker defender move;
    actual_damage ← call defender (Pokemon.take_damage damage);
    log (Pokemon.nickname d +:+ " took " +:+ pretty actual_damage
         +:+ " damage!");;
    d' ← deref defender;
    opponent_name ← gets (fun self => Player.name (Battle.player opponent self));
    when (Pokemon.is_fainted d')
      (log (opponent_name +:+ "'s " +:+ Pokemon.nickname d +:+ " fainted!"));;
    _apply_move_effects move attacker defender player opponent
  else if String.eqb category "Status" then
    _apply_move_effects move attacker defender player opponent
  else mret tt
  end
  end.

Definition _execute_switch (player : Side) (pokemon_index : Z) : M unit :=
  switched ← on_player player (Player.switch_pokemon pokemon_index);
  name ← gets (fun self => Player.name (Battle.player player self));
  if switched : bool then
    log (name +:+ " withdrew their Pokémon!");;
    active ← active_pokemon player;
    match active with
    | Some r => p ← deref r; log (name +:+ " sent out " +:+ Pokemon.nickname p +:+ "!")
    | None => lift (Raise AttributeError)
    end
  else log (name +:+ " tried to switch, but couldn't!").

Definition _execute_item (player : Side) (item : string) (target_index : Z)
  : M unit :=
  if String.eqb item "potion" then
    used ← on_player player (Player.use_potion target_index);
    name ← gets (fun self => Player.name (Battle.player player self));
    if used : bool then
      target_pokemon ← deref (player, Z.to_nat target_index);
      log (name +:+ " used a Potion on " +:+ Pokemon.nickname target_pokemon
           +:+ "!");;
      log (Pokemon.nickname target_pokemon +:+ " restored some HP!")
    else log (name +:+ " tried to use a Potion, but couldn't!")
  else mret tt.

Definition _execute_action (player : Side) (action : Action) : M unit :=
  let action_type := default "pass" (act_type action) in
  if String.eqb action_type "move" then
    _execute_move player (default "" (act_move action))
  else if String.eqb action_type "switch" then
    _execute_switch player (default 0 (act_pokemon_index action))
  else if String.eqb action_type "item" then
    _execute_item player (default "" (act_item action))
      (default 0 (act_target_index action))
  else mret tt.

Definition _apply_status_damage (pokemon : Ref) (player : Side) : M unit :=
  p ← deref pokemon;
  name ← gets (fun self => Player.name (Battle.player player self));
  let tick (divisor : Z) (what : string) : M unit :=
    let damage := Z.max 1 (Pokemon.max_hp p / divisor) in
    actual_damage ← call pokemon (Pokemon.take_damage damage);
    log (Pokemon.nickname p +:+ " was hurt by " +:+ what +:+ "! ("
         +:+ pretty actual_damage +:+ " damage)");;
    p' ← deref pokemon;
    when (Pokemon.is_fainted p')
      (log (name +:+ "'s " +:+ Pokemon.nickname p +:+ " fainted!")) in
  if bool_decide (Pokemon.status p = Some "burned") then tick 16 "its burn"
  else if bool_decide (Pokemon.status p = Some "poisoned") then tick 8 "poison"
  else mret tt.

Definition _apply_end_of_turn_effects : M unit :=
  for_each [Player1; Player2] (fun side =>
    active ← active_pokemon side;
    match active with
    | Some pokemon =>
        p ← deref pokemon;
        when (negb (Pokemon.is_fainted p)) (_apply_status_damage pokemon side)
    | None => mret tt
    end).

Definition _check_battle_end : M unit :=
  p1_has_usable ← gets (fun self => Player.has_usable_pokemon (player1 self));
  p2_has_usable ← gets (fun self => Player.has_usable_pokemon (player2 self));
  name1 ← gets (fun self => Player.name (player1 self));
  name2 ← gets (fun self => Player.name (player2 self));
  if negb p1_has_usable && negb p2_has_usable then
    modify (set_over None);; log "The battle ended in a draw!"
  else if negb p1_has_usable then
    modify (set_over (Some Player2));; log (name2 +:+ " won the battle!")
  else if negb p2_has_usable then
    modify (set_over (Some Player1));; log (name1 +:+ " won the battle!")
  else mret tt.

(** The loop of [execute_turn] over the ordered actions, with its [break]. *)
Fixpoint run_actions (actions : list (Side * Action)) : M unit :=
  match actions with
  | [] => mret tt
  | (player, action) :: rest =>
      over ← gets is_battle_over;
      if over : bool then mret tt
      else _execute_action player action;; _check_battle_end;; run_actions rest
  end.

Definition execute_turn (player1_action player2_action : Action)
  : M (list string) :=
  modify (fun self => set_current_turn (current_turn self + 1) self);;
  modify (set_battle_log []);;
  actions ← _determine_action_order player1_action player2_action;
  run_actions actions;;
  over ← gets is_battle_over;
  when (negb over) (_apply_end_of_turn_effects;; _check_battle_end);;
  gets battle_log.

End Engine.

End Battle.

(** ** player.py: class AIPlayer *)

Module AIPlayer.

(** An AI player: a player with a difficulty. *)
Record t := mk {
  player : Player.t;
  difficulty : string
}.

(** [enumerate(l)] *)
Definition enumerate {A} (l : list A) : list (nat * A) :=
  imap (fun i x => (i, x)) l.

(** [l[i]] *)
Definition item {A} (l : list A) (i : nat) : res A :=
  match l !! i with
  | Some x => Ok x
  | None => Raise IndexError
  end.

(** [[f(x) for x in l]], for an [f] that may raise. *)
Fixpoint for_list {A B} (f : A -> res B) (l : list A) : res (list B) :=
  match l with
  | [] => Ok []
  | x :: l => rbind (f x) (fun y => rbind (for_list f l) (fun ys => Ok (y :: ys)))
  end.

(** [[x for x in l if cond(x)]], for a [cond] that may raise. *)
Fixpoint select {A} (cond : A -> res bool) (l : list A) : res (list A) :=
  match l with
  | [] => Ok []
  | x :: l =>
      rbind (cond x) (fun keep =>
      rbind (select cond l) (fun xs => Ok (if keep : bool then x :: xs else xs)))
  end.

(** [l.sort(key=..., reverse=True)], on the keys already computed: a
    stable sort, the greatest key first. An element goes before the first
    one whose key is smaller than its own. *)
Fixpoint insert_descending {A} (x : num * A) (sorted : list (num * A))
  : list (num * A) :=
  match sorted with
  | [] => [x]
  | y :: sorted' =>
      if ltb y.1 x.1 then x :: sorted else y :: insert_descending x sorted'
  end.

Definition sort_descending {A} (l : list (num * A)) : list (num * A) :=
  foldl (fun sorted x => insert_descending x sorted) [] l.

Definition _can_switch (self : t) : bool :=
  existsb (fun '(i, pokemon) =>
             negb (i =? Player.active_pokemon_index (player self))%nat
             && negb (Pokemon.is_fainted pokemon))
          (enumerate (Player.team (player self))).

Definition _can_use_potion (self : t) : bool :=
  if Player.potions (player self) <=? 0 then false
  else
    existsb (fun pokemon =>
               negb (Pokemon.is_fainted pokemon)
               && (Pokemon.current_hp pokemon <? Pokemon.max_hp pokemon))
            (Player.team (player self)).

Definition choose_switch (self : t) : res Battle.Action :=
  let team := Player.team (player self) in
  rbind
    (select (fun i =>
               if negb (i =? Player.active_pokemon_index (player self))%nat
               then rbind (item team i) (fun pokemon =>
                    Ok (negb (Pokemon.is_fainted pokemon)))
               else Ok false)
            (seq 0 (length team)))
    (fun available_indices =>
  if bool_decide (available_indices = []) then
    Ok (Battle.mk_action (Some "pass") None None None None)
  else
    rbind
      (if negb (String.eqb (difficulty self) "easy") then
         rbind
           (for_list (fun i =>
                        rbind (item team i) (fun pokemon =>
                        truediv (Int (Pokemon.current_hp pokemon))
                                (Int (Pokemon.max_hp pokemon))))
                     available_indices)
           (fun keys =>
              Ok (map snd (sort_descending (zip keys available_indices))))
       else Ok available_indices)
      (fun available_indices =>
    rbind (item available_indices 0) (fun first =>
    Ok (Battle.mk_action (Some "switch") None (Some (Z.of_nat first))
          None None)))).

(** The score of [attacker] against [defender], over the tables
    [MOVE_DATA] and [TYPE_CHART]. *)
Definition _calculate_effectiveness_score
  (MOVE_DATA : gmap string Data.Move)
  (TYPE_CHART : gmap string (gmap string float))
  (attacker defender : Pokemon.t) : res num :=
  rbind
    (foldl (fun offensive_score move_name =>
              rbind offensive_score (fun offensive_score =>
              let move := default Data.empty_move (MOVE_DATA !! move_name) in
              if 0 <? default 0 (Data.power move) then
                let move_type := default "Normal" (Data.type move) in
                let effectiveness :=
                  Float (Battle.type_effectiveness TYPE_CHART move_type
                           (Pokemon.types defender)) in
                let stab :=
                  if bool_decide (move_type ∈ Pokemon.types attacker)
                  then Float 1.5 else Float 1.0 in
                rbind (mul (Int (default 40 (Data.power move))) effectiveness)
                  (fun x =>
                rbind (mul x stab) (fun move_score =>
                Ok (if gtb move_score offensive_score then move_score
                    else offensive_score)))
              else Ok offensive_score))
           (Ok (Int 0)) (Pokemon.moves attacker))
    (fun offensive_score =>
  rbind
    (foldl (fun defensive_score defender_type =>
              rbind defensive_score (fun defensive_score =>
              rbind
                (foldl (fun resistance attacker_type =>
                          rbind resistance (fun resistance =>
                          rbind
                            (truediv (Float 1.0)
                               (Float
                                  (default 1.0%float
                                     (default ∅ (TYPE_CHART !! defender_type)
                                      !! attacker_type))))
                            (fun type_resistance =>
                          mul resistance type_resistance)))
                       (Ok (Float 1.0)) (Pokemon.types attacker))
                (fun resistance => add defensive_score resistance)))
           (Ok (Int 0)) (Pokemon.types defender))
    (fun defensive_score =>
  rbind (truediv defensive_score
           (Int (Z.of_nat (length (Pokemon.types defender)))))
    (fun defensive_score =>
  rbind (mul offensive_score (Float 0.7)) (fun offensive =>
  rbind (mul defensive_score (Int 100)) (fun x =>
  rbind (mul x (Float 0.3)) (fun defensive =>
  rbind (add offensive defensive) (fun total =>
  truediv total (Int 100)))))))).

End AIPlayer.

(** ** network.py: class PokemonServer, the team a client asks for *)

Module PokemonServer.

(** An element of [team_data], read with [get]: absent keys are [None]. *)
Record TeamEntry := mk_entry {
  entry_id : option Z;
  entry_nickname : option string;
  entry_level : option Z
}.

(** The body of the loop: the exceptions of the constructor and of
    [add_pokemon] are caught and the entry is skipped. *)
Definition create_pokemon (POKEMON_DATA : gmap Z Species.t)
  (player : Player.t) (pokemon_data : TeamEntry) : Player.t :=
  let pokemon_id := default 0 (entry_id pokemon_data) in
  let nickname := default "" (entry_nickname pokemon_data) in
  let level := default 50 (entry_level pokemon_data) in
  match Pokemon.__init__ POKEMON_DATA pokemon_id level (Some nickname) with
  | Ok pokemon => (Player.add_pokemon pokemon player).2
  | Raise _ => player
  end.

Definition _create_team_from_data (POKEMON_DATA : gmap Z Species.t)
  (player : Player.t) (team_data : list TeamEntry) : Player.t :=
  foldl (create_pokemon POKEMON_DATA) player (take 6 team_data).

End PokemonServer.

(** ** socket, int: what the framing of the messages uses *)

Module Socket.

(** One end of a connected stream socket: whether it is still connected,
    the bytes written to it so far, the bytes that will arrive before the
    peer closes, and, for the successive calls to [recv], the number of
    bytes the transport holds ready at that time ([recv] waits for one at
    least; past the end of the list, whatever is asked for is ready). *)
Record t := mk {
  connected : bool;
  sent : list byte;
  arriving : list byte;
  ready : list nat
}.

(** [sendall(data)]; [None] when it raises. *)
Definition sendall (data : list byte) (self : t) : option t :=
  if connected self
  then Some (mk true (sent self ++ data) (arriving self) (ready self))
  else None.

(** [recv(bufsize)]: [bufsize] bytes at most, [b''] once the peer has
    closed; [None] when it raises. *)
Definition recv (bufsize : nat) (self : t) : option (list byte * t) :=
  if connected self then
    let n := (bufsize `min` (1 `max` hd bufsize (ready self)))%nat in
    Some (take n (arriving self),
          mk true (sent self) (drop n (arriving self)) (tl (ready self)))
  else None.

End Socket.

Module Int.

(** The byte of a number below 256. *)
Definition byte_of (n : N) : byte := default "000"%byte (Byte.of_N n).

(** The [length] lowest base-256 digits of [n], the lowest first. *)
Fixpoint digits (length : nat) (n : N) : list byte :=
  match length with
  | O => []
  | S length => byte_of (n mod 256) :: digits length (n / 256)
  end.

(** [n.to_bytes(length, byteorder='big')], for [n >= 0]; [None] is
    [OverflowError]. *)
Definition to_bytes (length : nat) (n : N) : option (list byte) :=
  if (n <? 256 ^ N.of_nat length)%N then Some (rev (digits length n)) else None.

(** [int.from_bytes(bytes, byteorder='big')] *)
Definition from_bytes (bytes : list byte) : N :=
  foldl (fun n b => (n * 256 + Byte.to_N b)%N) 0%N bytes.

End Int.

(** ** network.py: class PokemonServer, the framing of the messages *)

Module Framing.

Section Codec.

(** [json.dumps(data).encode('utf-8')] and
    [json.loads(message.decode('utf-8'))]; [None] when they raise. *)
Variable Message : Type.
Variable dumps : Message -> option (list byte).
Variable loads : list byte -> option Message.

Definition send_data (client_socket : Socket.t) (data : Message)
  : bool * Socket.t :=
  match dumps data with
  | None => (false, client_socket)
  | Some serialized =>
      let message_length := N.of_nat (length serialized) in
      match Int.to_bytes 4 message_length with
      | None => (false, client_socket)
      | Some header =>
          match Socket.sendall (header ++ serialized) client_socket with
          | Some client_socket => (true, client_socket)
          | None => (false, client_socket)
          end
      end
  end.

(** The loop of [receive_data]. It makes [message_length] rounds at most,
    since every round receives a byte or leaves; the result is [None] when
    [rounds] rounds were not enough, and otherwise the chunks, or [None]
    for the [return None] of the loop and for an exception. *)
Fixpoint receive_chunks (rounds : nat) (message_length bytes_received : nat)
  (chunks : list (list byte)) (client_socket : Socket.t)
  : option (option (list (list byte)) * Socket.t) :=
  if (bytes_received <? message_length)%nat then
    match rounds with
    | O => None
    | S rounds =>
        match
          Socket.recv ((message_length - bytes_received) `min` 4096)%nat
            client_socket
        with
        | None => Some (None, client_socket)
        | Some (chunk, client_socket) =>
            if bool_decide (chunk = []) then Some (None, client_socket)
            else
              receive_chunks rounds message_length
                (bytes_received + length chunk)%nat (chunks ++ [chunk])
                client_socket
        end
    end
  else Some (Some chunks, client_socket).

Definition receive_data (client_socket : Socket.t)
  : option Message * Socket.t :=
  match Socket.recv 4 client_socket with
  | None => (None, client_socket)
  | Some (header, client_socket) =>
      if bool_decide (header = []) || negb (length header =? 4)%nat
      then (None, client_socket)
      else
        let message_length := N.to_nat (Int.from_bytes header) in
        match
          receive_chunks message_length message_length 0 [] client_socket
        with
        | Some (Some chunks, client_socket) =>
            (loads (concat chunks), client_socket)
        | Some (None, client_socket) => (None, client_socket)
        | None => (None, client_socket)
        end
  end.

End Codec.

End Framing.

(** ** Sample data: a small move table, a type chart and two rosters *)

Module Sample.

Import Data.

Definition damaging (ty cat : string) (pw : Z) (e : option Effect) : Move :=
  mk_move (Some ty) (Some cat) (Some pw) (Some 100) e.

Definition MOVE_DATA : gmap string Move :=
  <["Tackle" := damaging "Normal" "Physical" 40 None]>
  (<["Strength" := damaging "Normal" "Physical" 80 None]>
  (<["Rock Slide" := damaging "Rock" "Physical" 80 None]>
  (<["Giga Drain" :=
       damaging "Grass" "Special" 75
         (Some (mk_effect None None None None None None None
                  (Some (Float 0.5)) None None))]>
  (<["Double-Edge" :=
       damaging "Normal" "Physical" 120
         (Some (mk_effect None None None None None None None
                  None (Some (Float 0.25)) None))]>
  (<["Recover" :=
       mk_move (Some "Normal") (Some "Status") (Some 0) (Some 100)
         (Some (mk_effect None None None None None None
                  (Some (Float 0.5)) None None None))]> ∅))))).

Definition TYPE_CHART : gmap string (gmap string float) :=
  <["Normal" := <["Ghost" := 0.0%float]> (<["Rock" := 0.5%float]> ∅)]>
  (<["Grass" := <["Water" := 2.0%float]> (<["Fire" := 0.5%float]> ∅)]>
  (<["Rock" := <["Fire" := 2.0%float]> ∅]> ∅)).

(** A source of randomness that never hinders: no paralysis skip, no miss,
    full damage, no critical hit, no secondary effect by chance. *)
Definition steady : nat -> Battle.Draw :=
  fun _ => Battle.mk_draw 0.99%float 1 1.0%float.

Definition pokemon (nick : string) (tys : list string) (mvs : list string)
  (hp cur atk def : Z) : Pokemon.t :=
  Pokemon.mk 0 nick nick tys 50 mvs hp cur atk def 100 100 100
    Pokemon.initial_stat_stages None.

Definition machamp : Pokemon.t :=
  pokemon "Machamp" ["Fighting"]
    ["Tackle"; "Strength"; "Double-Edge"; "Rock Slide"] 150 150 100 100.

Definition snorlax : Pokemon.t :=
  pokemon "Snorlax" ["Normal"] ["Tackle"; "Strength"; "Recover"] 200 200 100 100.

Definition gengar : Pokemon.t :=
  pokemon "Gengar" ["Ghost"; "Poison"] ["Tackle"; "Giga Drain"] 120 120 100 100.

Definition ash (tm : list Pokemon.t) : Player.t := Player.mk "Ash" tm 0 3.
Definition gary (tm : list Pokemon.t) : Player.t := Player.mk "Gary" tm 0 3.

Definition battle (tm1 tm2 : list Pokemon.t) : Battle.t :=
  Battle.mk (ash tm1) (gary tm2) 0 false None [] 0.

Definition move (name : string) : Battle.Action :=
  Battle.mk_action (Some "move") (Some name) None None None.

Definition switch (i : Z) : Battle.Action :=
  Battle.mk_action (Some "switch") None (Some i) None None.

Definition potion (i : Z) : Battle.Action :=
  Battle.mk_action (Some "item") None None (Some "potion") (Some i).

Definition pass : Battle.Action :=
  Battle.mk_action (Some "pass") None None None None.

End Sample.

(** ** Drivers and predicates used by the statements *)

Import Battle.

(** [0 <= current_hp <= max_hp] *)
Definition hp_in_bounds (p : Pokemon.t) : Prop :=
  0 <= Pokemon.current_hp p <= Pokemon.max_hp p.

(** Every stored stage lies in [-6, 6]. *)
Definition stages_in_range (p : Pokemon.t) : Prop :=
  map_Forall (fun _ s => -6 <= s <= 6) (Pokemon.stat_stages p).

(** A sequence of [modify_stat_stage] calls, one after the other. *)
Definition modify_stat_stages (calls : list (string * Z)) (p : Pokemon.t)
  : Pokemon.t :=
  foldl (fun p '(stat, stages) => (Pokemon.modify_stat_stage stat stages p).2)
        p calls.

(** [execute_turn] from the point where the order of the actions is known. *)
Definition execute_in_order MOVE_DATA TYPE_CHART random_source
  (actions : list (Battle.Side * Battle.Action)) : Battle.M (list string) :=
  Battle.modify
    (fun self => Battle.set_current_turn (Battle.current_turn self + 1) self);;
  Battle.modify (Battle.set_battle_log []);;
  Battle.run_actions MOVE_DATA TYPE_CHART random_source actions;;
  over ← Battle.gets Battle.is_battle_over;
  Battle.when (negb over)
    (Battle._apply_end_of_turn_effects;; Battle._check_battle_end);;
  Battle.gets Battle.battle_log.






(** The state after the object behind [r] has been replaced by [p]. *)
Definition store (r : Ref) (p : Pokemon.t) (self : Battle.t) : Battle.t :=
  set_player r.1
    (Player.set_team (<[r.2 := p]> (Player.team (Battle.player r.1 self)))
       (Battle.player r.1 self)) self.

(** The state after a line has been logged when [b] holds. *)
Definition log_if (b : bool) (msg : string) (self : Battle.t) : Battle.t :=
  if b then set_battle_log (battle_log self ++ [msg]) self else self.

(** The state in which a damaging move runs its effects: the damage has
    been applied to the defender and logged. *)
Definition damaged (defender : Ref) (opponent : Side) (d : Pokemon.t)
  (damage : Z) (self : Battle.t) : Battle.t :=
  let '(actual_damage, d') := Pokemon.take_damage damage d in
  let hit := store defender d' self in
  log_if (Pokemon.is_fainted d')
    (Player.name (Battle.player opponent hit) +:+ "'s " +:+ Pokemon.nickname d
     +:+ " fainted!")
    (log_if true
       (Pokemon.nickname d +:+ " took " +:+ pretty actual_damage +:+ " damage!")
       hit).


(** The potion can be used, in the words of the specification: a potion is
    left, the index names a roster slot, and the Pokémon there is neither
    fainted nor at full HP. *)
Definition potion_usable (pl : Player.t) (index : Z) (p : Pokemon.t) : Prop :=
  1 <= Player.potions pl
  /\ 0 <= index < Z.of_nat (length (Player.team pl))
  /\ Player.team pl !! Z.to_nat index = Some p
  /\ 0 < Pokemon.current_hp p
  /\ Pokemon.current_hp p <> Pokemon.max_hp p.

(** The roster after a potion has healed the Pokémon [p] in slot [index]. *)
Definition after_potion (pl : Player.t) (index : Z) (p : Pokemon.t) : Player.t :=
  Player.set_potions (Player.potions pl - 1)
    (Player.set_team
       (<[Z.to_nat index :=
            Pokemon.set_current_hp
              (Z.min (Pokemon.max_hp p) (Pokemon.current_hp p + 20)) p]>
          (Player.team pl)) pl).

(** Every Pokémon of both rosters has its HP within bounds. *)
Definition hp_invariant (self : Battle.t) : Prop :=
  Forall hp_in_bounds (Player.team (player1 self))
  /\ Forall hp_in_bounds (Player.team (player2 self)).

(** The Pokémon behind [r] has the HP and the maximal HP of [p]. *)
Definition hp_as (r : Ref) (p : Pokemon.t) (self : Battle.t) : Prop :=
  exists q,
    Player.team (Battle.player r.1 self) !! r.2 = Some q
    /\ Pokemon.current_hp q = Pokemon.current_hp p
    /\ Pokemon.max_hp q = Pokemon.max_hp p.




(** [preserves Inv m Q]: from a state that satisfies [Inv], the run of [m]
    ends, normally or by an exception, in a state that satisfies [Inv], and
    a value it returns satisfies [Q]. *)
Definition preserves {A} (Inv : Battle.t -> Prop) (m : M A) (Q : A -> Prop)
  : Prop :=
  forall self, Inv self -> Inv (m self).2 /\ forall a, (m self).1 = Ok a -> Q a.

(** An invariant that reads the two players only. *)
Class PlayersOnly (Inv : Battle.t -> Prop) : Prop :=
  players_only : forall self self',
    player1 self = player1 self' -> player2 self = player2 self' ->
    Inv self -> Inv self'.

(** A binary float that is not a negative finite number. *)
Definition not_negative (x : spec_float) : Prop :=
  match x with
  | S754_finite true _ _ => False
  | _ => True
  end.

(** A binary float that, when finite, has the sign [s]. *)
Definition signed (s : bool) (x : spec_float) : Prop :=
  match x with
  | S754_finite s' _ _ => s' = s
  | _ => True
  end.

(** Moves and Pokémon of the scenarios. *)
Definition strength : Data.Move := Sample.damaging "Normal" "Physical" 80 None.

(** A Machamp and a Gengar that have been hurt before. *)
Definition hurt_machamp : Pokemon.t :=
  Sample.pokemon "Machamp" ["Fighting"] ["Tackle"; "Double-Edge"]
    150 100 100 100.

Definition hurt_gengar : Pokemon.t :=
  Sample.pokemon "Gengar" ["Ghost"; "Poison"] ["Tackle"; "Giga Drain"]
    120 80 100 100.


Definition tackle : Data.Move := Sample.damaging "Normal" "Physical" 40 None.



(** *** Predicates and drivers of the further properties *)

(** The type immunities of [apply_status]. *)
Definition status_immune (status : string) (types : list string) : Prop :=
  (status = "paralyzed" /\ "Electric" ∈ types)
  \/ (status = "poisoned" /\ ("Poison" ∈ types \/ "Steel" ∈ types))
  \/ (status = "burned" /\ "Fire" ∈ types).

(** A sequence of [use_potion] calls: the results, in order, and the player
    after the last one. *)
Fixpoint use_potions (indices : list Z) (pl : Player.t) : list bool * Player.t :=
  match indices with
  | [] => ([], pl)
  | index :: indices =>
      let '(used, pl) := Player.use_potion index pl in
      let '(results, pl) := use_potions indices pl in
      (used :: results, pl)
  end.

(** An invariant that reads the turn counter and the outcome only. *)
Class ControlOnly (Inv : Battle.t -> Prop) : Prop :=
  control_only : forall self self',
    current_turn self = current_turn self' ->
    is_battle_over self = is_battle_over self' ->
    winner self = winner self' ->
    Inv self -> Inv self'.

(** The turn counter and the outcome are those of [self0]. *)
Definition control_as (self0 self : Battle.t) : Prop :=
  current_turn self = current_turn self0
  /\ is_battle_over self = is_battle_over self0
  /\ winner self = winner self0.

(** The rosters of [self] are those of [self0] slot by slot, each Pokémon
    related by [R] to the one it was; the players have kept their names and
    gained no potion. *)
Definition evolved (R : Pokemon.t -> Pokemon.t -> Prop) (self0 self : Battle.t)
  : Prop :=
  forall side,
    Forall2 R (Player.team (player side self0)) (Player.team (player side self))
    /\ Player.name (player side self) = Player.name (player side self0)
    /\ Player.potions (player side self) <= Player.potions (player side self0).

(** What the engine never writes: everything but the HP, the stat stages
    and the status. *)
Definition same_make (p0 p : Pokemon.t) : Prop :=
  Pokemon.pokemon_id p = Pokemon.pokemon_id p0
  /\ Pokemon.name p = Pokemon.name p0
  /\ Pokemon.nickname p = Pokemon.nickname p0
  /\ Pokemon.types p = Pokemon.types p0
  /\ Pokemon.level p = Pokemon.level p0
  /\ Pokemon.moves p = Pokemon.moves p0
  /\ Pokemon.max_hp p = Pokemon.max_hp p0
  /\ Pokemon.attack p = Pokemon.attack p0
  /\ Pokemon.defense p = Pokemon.defense p0
  /\ Pokemon.sp_attack p = Pokemon.sp_attack p0
  /\ Pokemon.sp_defense p = Pokemon.sp_defense p0
  /\ Pokemon.speed p = Pokemon.speed p0.

(** A Pokémon that had fainted is still fainted. *)
Definition stays_fainted (p0 p : Pokemon.t) : Prop :=
  Pokemon.is_fainted p0 = true -> Pokemon.is_fainted p = true.

(** A Pokémon that had a status condition still has this one. *)
Definition keeps_status (p0 p : Pokemon.t) : Prop :=
  truthy (Pokemon.status p0) = true -> Pokemon.status p = Pokemon.status p0.

(** The stat stages have the keys they had and lie in [-6, 6]. *)
Definition stages_kept_in_range (p0 p : Pokemon.t) : Prop :=
  dom (Pokemon.stat_stages p) = dom (Pokemon.stat_stages p0)
  /\ stages_in_range p.

(** The winner [_check_battle_end] records: the side that still has a
    usable Pokémon, [None] when neither has. *)
Definition outcome (self : Battle.t) : option Side :=
  if Player.has_usable_pokemon (player1 self) then Some Player1
  else if Player.has_usable_pokemon (player2 self) then Some Player2
  else None.

(** The state [_check_battle_end] leaves. *)
Definition ended (self : Battle.t) : Battle.t :=
  if Player.has_usable_pokemon (player1 self)
     && Player.has_usable_pokemon (player2 self)
  then self
  else
    log_if true
      match outcome self with
      | None => "The battle ended in a draw!"
      | Some side => Player.name (player side self) +:+ " won the battle!"
      end
      (set_over (outcome self) self).

(** The side can fight: its active Pokémon exists and has not fainted. *)
Definition can_fight (pl : Player.t) : bool :=
  match Player.active_pokemon pl with
  | Some p => negb (Pokemon.is_fainted p)
  | None => false
  end.

(** The speed [_determine_action_order] compares: the modified speed of the
    active Pokémon, 0 without one. *)
Definition speed_value (pl : Player.t) : res num :=
  match Player.active_pokemon pl with
  | Some p => Pokemon.get_modified_stat p "speed"
  | None => Ok (Int 0)
  end.

(** The HP a status condition costs at the end of a turn:
    [max(1, max_hp // 16)] for a burn, [max(1, max_hp // 8)] for poison,
    nothing otherwise. *)
Definition status_damage (p : Pokemon.t) : Z :=
  if bool_decide (Pokemon.status p = Some "burned")
  then Z.max 1 (Pokemon.max_hp p / 16)
  else if bool_decide (Pokemon.status p = Some "poisoned")
  then Z.max 1 (Pokemon.max_hp p / 8)
  else 0.

(** The player after the end-of-turn effects: the active Pokémon, unless it
    has fainted, has paid its status damage. *)
Definition after_status_damage (pl : Player.t) : Player.t :=
  match Player.active_pokemon pl with
  | Some p =>
      if Pokemon.is_fainted p || (status_damage p =? 0) then pl
      else
        Player.set_team
          (<[Player.active_pokemon_index pl :=
               Pokemon.set_current_hp
                 (Z.max 0 (Pokemon.current_hp p - status_damage p)) p]>
             (Player.team pl)) pl
  | None => pl
  end.

(** The Pokémon [_create_team_from_data] builds from an entry, if any. *)
Definition built (POKEMON_DATA : gmap Z Species.t)
  (pokemon_data : PokemonServer.TeamEntry) : option Pokemon.t :=
  match
    Pokemon.__init__ POKEMON_DATA
      (default 0 (PokemonServer.entry_id pokemon_data))
      (default 50 (PokemonServer.entry_level pokemon_data))
      (Some (default "" (PokemonServer.entry_nickname pokemon_data)))
  with
  | Ok pokemon => Some pokemon
  | Raise _ => None
  end.

(** A message on the wire: its length on four bytes, the highest first,
    and the message. *)
Definition frame (serialized : list byte) : list byte :=
  rev (Int.digits 4 (N.of_nat (length serialized))) ++ serialized.

(** The actions [choose_switch] returns. *)
Definition pass_action : Action := mk_action (Some "pass") None None None None.

Definition switch_action (index : nat) : Action :=
  mk_action (Some "switch") None (Some (Z.of_nat index)) None None.

(** The slot [i] can be switched to: it is not the active one and holds a
    Pokémon that has not fainted. *)
Definition switchable (pl : Player.t) (i : nat) : bool :=
  negb (i =? Player.active_pokemon_index pl)%nat
  && match Player.team pl !! i with
     | Some pokemon => negb (Pokemon.is_fainted pokemon)
     | None => false
     end.

(** Both active indices name a slot of their roster. *)
Definition active_in_roster (self : Battle.t) : Prop :=
  forall side,
    (Player.active_pokemon_index (player side self)
     < length (Player.team (player side self)))%nat.

(** * Properties *)

(** ** The combatant model *)

Section PokemonProps.

Implicit Types (p : Pokemon.t) (stat : string).

Lemma take_damage_result damage p :
  Pokemon.take_damage damage p
  = (Z.max 1 damage,
     Pokemon.set_current_hp
       (Z.max 0 (Pokemon.current_hp p - Z.max 1 damage)) p).
Proof. reflexivity. Qed.

Lemma take_damage_hp damage p :
  Pokemon.current_hp (Pokemon.take_damage damage p).2
  = Z.max 0 (Pokemon.current_hp p - Z.max 1 damage).
Proof. reflexivity. Qed.






(** C3, at the inputs where the claim and the code part: when the clamped
    amount exceeds the HP that is left, [take_damage] empties the HP, so
    the HP before minus the HP after is the HP that was left, and yet it
    returns the clamped amount it was asked for. *)
Theorem take_damage_returns_requested damage p :
  0 <= Pokemon.current_hp p < Z.max 1 damage ->
  let '(returned, p') := Pokemon.take_damage damage p in
  returned = Z.max 1 damage
  /\ Pokemon.current_hp p - Pokemon.current_hp p' = Pokemon.current_hp p
  /\ returned <> Pokemon.current_hp p - Pokemon.current_hp p'.
Proof.
  intros H. rewrite take_damage_result. cbn. lia.
Qed.

Lemma take_damage_returns_requested_witness :
  let p := Sample.pokemon "Pidgey" ["Normal"; "Flying"] ["Tackle"] 20 5 30 30 in
  0 <= Pokemon.current_hp p < Z.max 1 10
  /\ (Pokemon.take_damage 10 p).1 = 10
  /\ Pokemon.current_hp p - Pokemon.current_hp (Pokemon.take_damage 10 p).2 = 5.
Proof.
  intros p.
  assert (0 <= Pokemon.current_hp p < Z.max 1 10) as H by (cbn; lia).
  split; [exact H|].
  destruct (take_damage_returns_requested 10 p H) as (H1 & H2 & _).
  split; [exact H1 | exact H2].
Defined.

(** C4: for the names "accuracy" and "evasion" [get_modified_stat] returns
    the float 1.0 whatever the stage: the branch that would compute
    (3+s)/3 or 3/(3-s) lies behind the early return and is never reached. *)
Theorem get_modified_stat_accuracy_evasion p :
  Pokemon.get_modified_stat p "accuracy" = Ok (Float 1.0)
  /\ Pokemon.get_modified_stat p "evasion" = Ok (Float 1.0).
Proof. split; reflexivity. Qed.

Lemma modify_stat_stage_stages stat stages p :
  Pokemon.stat_stages (Pokemon.modify_stat_stage stat stages p).2
  = match Pokemon.stat_stages p !! stat with
    | Some old => <[stat := Z.max (-6) (Z.min 6 (old + stages))]> (Pokemon.stat_stages p)
    | None => Pokemon.stat_stages p
    end.
Proof.
  unfold Pokemon.modify_stat_stage. by destruct (Pokemon.stat_stages p !! stat).
Qed.

Lemma modify_stat_stage_in_range stat stages p :
  stages_in_range p ->
  stages_in_range (Pokemon.modify_stat_stage stat stages p).2.
Proof.
  intros Hp stat' s. rewrite modify_stat_stage_stages.
  destruct (Pokemon.stat_stages p !! stat) as [old|] eqn:Hold; [|apply Hp].
  destruct (decide (stat = stat')) as [<-|Hne].
  - rewrite lookup_insert_eq. intros [= <-]. lia.
  - rewrite lookup_insert_ne by done. apply Hp.
Qed.

Lemma modify_stat_stages_in_range calls p :
  stages_in_range p -> stages_in_range (modify_stat_stages calls p).
Proof.
  revert p. induction calls as [|[stat stages] calls IH]; intros p Hp; [done|].
  apply IH. by apply modify_stat_stage_in_range.
Qed.

(** C6: whatever the sequence of [modify_stat_stage] calls, every stored
    stage stays within [-6, 6]; and the next call, on a stat the Pokémon
    has, stores max(-6, min(6, old + stages)) for this stat and nothing
    else, and returns the new stage minus the old one: the requested delta
    itself when old + stages lies within [-6, 6], otherwise what was left up
    to the boundary, a delta of the sign of the request, no larger than it,
    and zero when the stage sits at the boundary asked to be crossed. *)
Theorem modify_stat_stage_clamps p :
  stages_in_range p ->
  forall calls,
    let q := modify_stat_stages calls p in
    stages_in_range q
    /\ forall stat stages old,
         Pokemon.stat_stages q !! stat = Some old ->
         let '(returned, q') := Pokemon.modify_stat_stage stat stages q in
         let new := Z.max (-6) (Z.min 6 (old + stages)) in
         q' = Pokemon.set_stat_stages (<[stat := new]> (Pokemon.stat_stages q)) q
         /\ Pokemon.stat_stages q' !! stat = Some new
         /\ -6 <= new <= 6
         /\ returned = new - old
         /\ (-6 <= old + stages <= 6 -> new = old + stages /\ returned = stages)
         /\ (6 < old + stages -> new = 6 /\ returned = 6 - old)
         /\ (old + stages < -6 -> new = -6 /\ returned = -6 - old)
         /\ Z.abs returned <= Z.abs stages
         /\ 0 <= returned * stages
         /\ (old = 6 -> 0 <= stages -> returned = 0)
         /\ (old = -6 -> stages <= 0 -> returned = 0).
Proof.
  intros Hp calls q.
  assert (stages_in_range q) as Hq by by apply modify_stat_stages_in_range.
  split; [exact Hq|].
  intros stat stages old Hold. unfold Pokemon.modify_stat_stage.
  rewrite Hold. cbv zeta. cbn [Pokemon.stat_stages Pokemon.set_stat_stages].
  rewrite lookup_insert_eq. specialize (Hq _ _ Hold). cbn beta in Hq.
  split; [reflexivity|]. split; [reflexivity|].
  repeat split; try lia; nia.
Qed.

(** Machamp's attack raised by 4 twice: the first call returns 4 and stores
    4, the second returns 2 and stores 6, a third request returns 0; the
    speed lowered by 9 stops at -6. *)
Lemma modify_stat_stage_clamps_witness :
  let once := modify_stat_stages [("attack", 4)] Sample.machamp in
  let twice := modify_stat_stages [("attack", 4); ("attack", 4)] Sample.machamp in
  stages_in_range Sample.machamp
  /\ stages_in_range
       (modify_stat_stages [("attack", 4); ("attack", 4); ("speed", -9)]
          Sample.machamp)
  /\ (Pokemon.modify_stat_stage "attack" 4 Sample.machamp).1 = 4
  /\ Pokemon.stat_stages once !! "attack" = Some 4
  /\ (Pokemon.modify_stat_stage "attack" 4 once).1 = 2
  /\ Pokemon.stat_stages twice !! "attack" = Some 6
  /\ (Pokemon.modify_stat_stage "attack" 4 twice).1 = 0
  /\ Pokemon.modify_stat_stage "speed" (-9) Sample.machamp
     = (-6,
        Pokemon.set_stat_stages
          (<["speed" := -6]> (Pokemon.stat_stages Sample.machamp))
          Sample.machamp).
Proof.
  intros once twice.
  assert (stages_in_range Sample.machamp) as H.
  { apply (bool_decide_unpack _). vm_compute. reflexivity. }
  split; [exact H|].
  split; [apply (modify_stat_stage_clamps Sample.machamp H)|].
  destruct (modify_stat_stage_clamps Sample.machamp H []) as [_ Hfirst].
  destruct (modify_stat_stage_clamps Sample.machamp H [("attack", 4)])
    as [_ Hsecond].
  destruct (modify_stat_stage_clamps Sample.machamp H
              [("attack", 4); ("attack", 4)]) as [_ Hthird].
  assert (Pokemon.stat_stages Sample.machamp !! "attack" = Some 0) as H0
    by (vm_compute; reflexivity).
  assert (Pokemon.stat_stages Sample.machamp !! "speed" = Some 0) as Hs
    by (vm_compute; reflexivity).
  assert (Pokemon.stat_stages once !! "attack" = Some 4) as H1
    by (vm_compute; reflexivity).
  assert (Pokemon.stat_stages twice !! "attack" = Some 6) as H2
    by (vm_compute; reflexivity).
  pose proof (Hfirst "attack" 4 0 H0) as Ha.
  pose proof (Hfirst "speed" (-9) 0 Hs) as Hb.
  pose proof (Hsecond "attack" 4 4 H1) as Hc.
  pose proof (Hthird "attack" 4 6 H2) as Hd.
  fold once in Hc. fold twice in Hd.
  change (modify_stat_stages [] Sample.machamp) with Sample.machamp in Ha, Hb.
  destruct (Pokemon.modify_stat_stage "attack" 4 Sample.machamp)
    as [r1 q1] eqn:E1.
  destruct (Pokemon.modify_stat_stage "speed" (-9) Sample.machamp)
    as [r2 q2] eqn:E2.
  destruct (Pokemon.modify_stat_stage "attack" 4 once) as [r3 q3] eqn:E3.
  destruct (Pokemon.modify_stat_stage "attack" 4 twice) as [r4 q4] eqn:E4.
  cbv zeta in Ha, Hb, Hc, Hd.
  destruct Ha as (_ & _ & _ & -> & _).
  destruct Hb as (-> & _ & _ & -> & _).
  destruct Hc as (_ & _ & _ & -> & _).
  destruct Hd as (_ & _ & _ & -> & _).
  split; [reflexivity|]. split; [exact H1|]. split; [reflexivity|].
  split; [exact H2|]. split; [reflexivity|]. reflexivity.
Defined.

End PokemonProps.

(** ** The roster *)

Section PlayerProps.

Implicit Types (pl : Player.t) (p : Pokemon.t).

Lemma active_pokemon_lookup pl :
  Player.active_pokemon pl = Player.team pl !! Player.active_pokemon_index pl.
Proof.
  unfold Player.active_pokemon.
  destruct (bool_decide_reflect (Player.team pl = [])) as [->|_]; [done|].
  cbn. destruct (Nat.leb_spec (length (Player.team pl))
                   (Player.active_pokemon_index pl)); [|done].
  symmetry. by apply lookup_ge_None.
Qed.

Lemma in_range_lookup pl (index : Z) :
  (if Player.in_range index pl then Player.team pl !! Z.to_nat index else None)
  = if bool_decide (0 <= index) then Player.team pl !! Z.to_nat index else None.
Proof.
  unfold Player.in_range.
  destruct (Z.leb_spec 0 index), (bool_decide_reflect (0 <= index)); try lia;
    cbn; [|done].
  destruct (Z.ltb_spec index (Z.of_nat (length (Player.team pl)))); [done|].
  symmetry. apply lookup_ge_None. lia.
Qed.

Lemma switch_pokemon_active pl p :
  Player.team pl !! Player.active_pokemon_index pl = Some p ->
  Pokemon.is_fainted p = false ->
  Player.switch_pokemon (Z.of_nat (Player.active_pokemon_index pl)) pl
  = (true, pl).
Proof.
  intros Hp Hf. unfold Player.switch_pokemon. rewrite in_range_lookup.
  rewrite bool_decide_true by lia. rewrite Nat2Z.id, Hp, Hf. by destruct pl.
Qed.

Lemma use_potion_usable pl index p :
  Forall hp_in_bounds (Player.team pl) ->
  potion_usable pl index p ->
  Player.use_potion index pl = (true, after_potion pl index p).
Proof.
  intros Hb (Hn & Hi & Hp & Hhp & Hfull).
  pose proof (proj1 (Forall_lookup _ _) Hb _ _ Hp) as Hpb. red in Hpb.
  unfold Player.use_potion.
  destruct (Z.leb_spec (Player.potions pl) 0); [lia|].
  rewrite in_range_lookup, bool_decide_true, Hp by lia.
  unfold Pokemon.heal, Pokemon.is_fainted.
  destruct (Z.leb_spec (Pokemon.current_hp p) 0); [lia|].
  destruct (Z.ltb_spec (Pokemon.current_hp p) (Pokemon.max_hp p)); [|lia].
  cbn. unfold after_potion. do 5 f_equal. lia.
Qed.

Lemma use_potion_unusable pl index :
  Forall hp_in_bounds (Player.team pl) ->
  (forall p, ~ potion_usable pl index p) ->
  Player.use_potion index pl = (false, pl).
Proof.
  intros Hb Hno. unfold Player.use_potion.
  destruct (Z.leb_spec (Player.potions pl) 0); [done|].
  rewrite in_range_lookup.
  destruct (bool_decide_reflect (0 <= index)); [|done].
  destruct (Player.team pl !! Z.to_nat index) as [p|] eqn:Hp; [|done].
  unfold Pokemon.is_fainted.
  destruct (Z.leb_spec (Pokemon.current_hp p) 0); [done|].
  destruct (Z.ltb_spec (Pokemon.current_hp p) (Pokemon.max_hp p)); [|done].
  destruct (Hno p). repeat split; try lia; [|done].
  apply lookup_lt_Some in Hp. lia.
Qed.

Lemma potion_usable_dec pl index :
  (exists p, potion_usable pl index p) \/ (forall p, ~ potion_usable pl index p).
Proof.
  unfold potion_usable.
  destruct (decide (1 <= Player.potions pl)); [|right; intros p; lia].
  destruct (decide (0 <= index < Z.of_nat (length (Player.team pl))));
    [|right; intros p; lia].
  destruct (Player.team pl !! Z.to_nat index) as [p|] eqn:Hp;
    [|right; intros p (_ & _ & ? & _); done].
  destruct (decide (0 < Pokemon.current_hp p));
    [|right; intros p' (_ & _ & [= <-] & ? & _); lia].
  destruct (decide (Pokemon.current_hp p = Pokemon.max_hp p));
    [right; intros p' (_ & _ & [= <-] & _ & ?); lia|].
  left. by exists p.
Qed.


End PlayerProps.

(** ** The battle engine *)

Section BattleProps.

Implicit Types (self : Battle.t) (player : Side) (p : Pokemon.t).

(** Unfolding of the monad's operations. *)
Ltac mrun :=
  unfold mbind, mret, M_bind, M_ret, res_bind, res_ret, gets, lift, log,
    modify, when, on_player;
  cbn beta iota.

Lemma set_player_same player self :
  set_player player (Battle.player player self) self = self.
Proof. by destruct player, self. Qed.

Lemma player_set_battle_log player l self :
  Battle.player player (set_battle_log l self) = Battle.player player self.
Proof. by destruct player. Qed.

Lemma player_set_player player pl self :
  Battle.player player (set_player player pl self) = pl.
Proof. by destruct player. Qed.

Lemma player_set_player_other player pl self :
  Battle.player (other player) (set_player player pl self)
  = Battle.player (other player) self.
Proof. by destruct player. Qed.

Lemma active_pokemon_run player self :
  active_pokemon player self
  = (Ok (match Player.team (Battle.player player self)
                 !! Player.active_pokemon_index (Battle.player player self) with
         | Some _ =>
             Some (player, Player.active_pokemon_index (Battle.player player self))
         | None => None
         end), self).
Proof. unfold active_pokemon, gets. by rewrite active_pokemon_lookup. Qed.

(** C10: a switch to the roster index that is already active, whose Pokémon
    has not fainted, succeeds: [switch_pokemon] returns true and leaves the
    player as it was, and the engine logs the withdraw and send-out lines. *)
Theorem switch_to_active_succeeds player self p :
  let pl := Battle.player player self in
  Player.team pl !! Player.active_pokemon_index pl = Some p ->
  Pokemon.is_fainted p = false ->
  Player.switch_pokemon (Z.of_nat (Player.active_pokemon_index pl)) pl
  = (true, pl)
  /\ _execute_switch player (Z.of_nat (Player.active_pokemon_index pl)) self
     = (Ok tt,
        set_battle_log
          (battle_log self
           ++ [Player.name pl +:+ " withdrew their Pokémon!";
               Player.name pl +:+ " sent out " +:+ Pokemon.nickname p +:+ "!"])
          self).
Proof.
  intros pl Hp Hf.
  pose proof (switch_pokemon_active pl p Hp Hf) as Hsw.
  split; [exact Hsw|].
  unfold _execute_switch. mrun. fold pl. rewrite Hsw.
  unfold pl. rewrite set_player_same, active_pokemon_run.
  rewrite player_set_battle_log. fold pl. rewrite Hp.
  unfold deref. cbn [fst snd]. rewrite player_set_battle_log. fold pl.
  rewrite Hp. destruct self; cbn. by rewrite <- app_assoc.
Qed.

Lemma switch_to_active_succeeds_witness :
  let self := Sample.battle [Sample.machamp; Sample.snorlax] [Sample.gengar] in
  Pokemon.is_fainted Sample.machamp = false
  /\ (_execute_switch Player1 0 self).1 = Ok tt
  /\ battle_log (_execute_switch Player1 0 self).2
     = ["Ash withdrew their Pokémon!"; "Ash sent out Machamp!"]
  /\ Player.active_pokemon_index (player1 (_execute_switch Player1 0 self).2)
     = 0%nat.
Proof.
  intros self.
  assert (Pokemon.is_fainted Sample.machamp = false) as Hf by reflexivity.
  split; [exact Hf|].
  destruct (switch_to_active_succeeds Player1 self Sample.machamp eq_refl Hf)
    as [_ Hrun].
  change (Z.of_nat _) with 0 in Hrun. rewrite Hrun. by repeat split.
Defined.

(** C9: a potion is used exactly when one is left and the index names a
    roster member that is neither fainted nor at full HP. Then the target
    gains 20 HP, capped at its maximum, the potion count drops by one and
    two lines are logged; otherwise only a failure line is logged. *)
Theorem potion_use player index self :
  let pl := Battle.player player self in
  Forall hp_in_bounds (Player.team pl) ->
  ((Player.use_potion index pl).1 = true <-> exists p, potion_usable pl index p)
  /\ (forall p, potion_usable pl index p ->
        _execute_item player "potion" index self
        = (Ok tt,
           set_battle_log
             (battle_log self
              ++ [Player.name pl +:+ " used a Potion on "
                    +:+ Pokemon.nickname p +:+ "!";
                  Pokemon.nickname p +:+ " restored some HP!"])
             (set_player player (after_potion pl index p) self)))
  /\ ((forall p, ~ potion_usable pl index p) ->
        _execute_item player "potion" index self
        = (Ok tt,
           set_battle_log
             (battle_log self
              ++ [Player.name pl +:+ " tried to use a Potion, but couldn't!"])
             self)).
Proof.
  intros pl Hb. split; [|split].
  - split.
    + intros Hused.
      destruct (potion_usable_dec pl index) as [|Hno]; [done|].
      by rewrite use_potion_unusable in Hused.
    + intros [p Hp]. by rewrite (use_potion_usable _ _ p).
  - intros p Hp. unfold _execute_item. cbn [String.eqb Ascii.eqb Bool.eqb].
    mrun. fold pl. rewrite (use_potion_usable _ _ p) by done.
    rewrite player_set_player. unfold deref. cbn [fst snd].
    rewrite player_set_player.
    destruct Hp as (_ & Hi & Hp & _). cbn [after_potion Player.team Player.set_potions Player.set_team].
    rewrite list_lookup_insert_eq by (apply lookup_lt_Some in Hp; lia).
    destruct player, self; unfold set_battle_log; cbn; by rewrite <- ?app_assoc.
  - intros Hno. unfold _execute_item. cbn [String.eqb Ascii.eqb Bool.eqb].
    mrun. fold pl. rewrite use_potion_unusable by done.
    unfold pl. by rewrite set_player_same.
Qed.

Lemma potion_use_witness :
  let hurt := Sample.pokemon "Machamp" ["Fighting"] ["Tackle"] 150 100 100 100 in
  let self := Sample.battle [Sample.snorlax; hurt] [Sample.gengar] in
  Forall hp_in_bounds (Player.team (Battle.player Player1 self))
  /\ potion_usable (Battle.player Player1 self) 1 hurt
  /\ (forall p, ~ potion_usable (Battle.player Player1 self) 0 p)
  /\ map Pokemon.current_hp
       (Player.team (player1 (_execute_item Player1 "potion" 1 self).2))
     = [200; 120]
  /\ Player.potions (player1 (_execute_item Player1 "potion" 1 self).2) = 2
  /\ (_execute_item Player1 "potion" 0 self).2
     = set_battle_log ["Ash tried to use a Potion, but couldn't!"] self.
Proof.
  intros hurt self.
  assert (Forall hp_in_bounds (Player.team (Battle.player Player1 self))) as Hb.
  { repeat constructor; cbn; lia. }
  assert (potion_usable (Battle.player Player1 self) 1 hurt) as Hyes.
  { repeat split; cbn; lia. }
  assert (forall p, ~ potion_usable (Battle.player Player1 self) 0 p) as Hno.
  { intros p (_ & _ & [= <-] & _ & Hfull). by apply Hfull. }
  destruct (potion_use Player1 1 self Hb) as (_ & Hrun & _).
  destruct (potion_use Player1 0 self Hb) as (_ & _ & Hfail).
  rewrite (Hrun hurt Hyes), (Hfail Hno). by repeat split.
Defined.

Variable MOVE_DATA : gmap string Data.Move.
Variable TYPE_CHART : gmap string (gmap string float).
Variable random_source : nat -> Draw.

Local Abbreviation determine_action_order :=
  (_determine_action_order MOVE_DATA random_source).
Local Abbreviation execute_turn := (execute_turn MOVE_DATA TYPE_CHART random_source).
Local Abbreviation execute_move := (_execute_move MOVE_DATA TYPE_CHART random_source).
Local Abbreviation calculate_damage := (_calculate_damage TYPE_CHART random_source).
Local Abbreviation apply_move_effects := (_apply_move_effects random_source).

Lemma execute_turn_order a1 a2 self actions :
  (forall self', determine_action_order a1 a2 self' = (Ok actions, self')) ->
  execute_turn a1 a2 self
  = execute_in_order MOVE_DATA TYPE_CHART random_source actions self.
Proof.
  intros Horder. unfold Battle.execute_turn, execute_in_order.
  unfold mbind, M_bind, modify. by rewrite Horder.
Qed.

(** C7: when exactly one side passes, the order holds the other side's
    action alone, and the turn executes that action only; when one side
    switches or uses an item and the other uses a move, the switch or item
    comes first and the move second. None of these cases consults priority,
    speed or the random source. *)
Theorem action_order a1 a2 self :
  let only side action := [(side, action)] in
  let both side action side' action' := [(side, action); (side', action')] in
  let is_pass a := act_type a = Some "pass" in
  let is_move a := act_type a = Some "move" in
  let is_switch_or_item a :=
    act_type a = Some "switch" \/ act_type a = Some "item" in
  (is_pass a1 -> ~ is_pass a2 ->
     determine_action_order a1 a2 self = (Ok (only Player2 a2), self)
     /\ execute_turn a1 a2 self
        = execute_in_order MOVE_DATA TYPE_CHART random_source
            (only Player2 a2) self)
  /\ (is_pass a2 -> ~ is_pass a1 ->
        determine_action_order a1 a2 self = (Ok (only Player1 a1), self)
        /\ execute_turn a1 a2 self
           = execute_in_order MOVE_DATA TYPE_CHART random_source
               (only Player1 a1) self)
  /\ (is_switch_or_item a1 -> is_move a2 ->
        determine_action_order a1 a2 self
        = (Ok (both Player1 a1 Player2 a2), self)
        /\ execute_turn a1 a2 self
           = execute_in_order MOVE_DATA TYPE_CHART random_source
               (both Player1 a1 Player2 a2) self)
  /\ (is_switch_or_item a2 -> is_move a1 ->
        determine_action_order a1 a2 self
        = (Ok (both Player2 a2 Player1 a1), self)
        /\ execute_turn a1 a2 self
           = execute_in_order MOVE_DATA TYPE_CHART random_source
               (both Player2 a2 Player1 a1) self).
Proof.
  intros only both is_pass is_move is_switch_or_item.
  assert (forall actions,
            (forall self', determine_action_order a1 a2 self'
                           = (Ok actions, self')) ->
            determine_action_order a1 a2 self = (Ok actions, self)
            /\ execute_turn a1 a2 self
               = execute_in_order MOVE_DATA TYPE_CHART random_source
                   actions self) as Hboth.
  { intros actions H. split; [apply H|]. by apply execute_turn_order. }
  unfold is_pass, is_move, is_switch_or_item.
  split_and!.
  - intros H1 H2. apply Hboth. intros self'.
    unfold Battle._determine_action_order. by rewrite bool_decide_true.
  - intros H2 H1. apply Hboth. intros self'.
    unfold Battle._determine_action_order.
    rewrite bool_decide_false by done. by rewrite bool_decide_true.
  - intros H1 H2. apply Hboth. intros self'.
    unfold Battle._determine_action_order.
    destruct H1 as [H1|H1]; by rewrite H1, H2.
  - intros H2 H1. apply Hboth. intros self'.
    unfold Battle._determine_action_order.
    destruct H2 as [H2|H2]; by rewrite H1, H2.
Qed.

(** *** C1: the damage of the reference scenario *)

Local Arguments Py.mul : simpl never.
Local Arguments Py.add : simpl never.
Local Arguments Py.truediv : simpl never.
Local Arguments Py.int : simpl never.
Local Arguments Py.ltb : simpl never.
Local Arguments Py.gtb : simpl never.
Local Arguments Py.eqb : simpl never.
Local Arguments Pokemon.get_modified_stat : simpl never.
Local Arguments type_effectiveness : simpl never.
Local Arguments String.append : simpl never.
Local Arguments pretty : simpl never.
Local Arguments bool_decide : simpl never.
Local Arguments Z.max : simpl never.
Local Arguments Z.min : simpl never.
Local Arguments Z.mul : simpl never.

(** C1, with the arithmetic redone: at level 50, power 80, attack and
    defense 100, effectiveness 1, variance 1.0 and no critical hit, the
    formula gives 37.2 and the damage is 37; with the same-type bonus it is
    the floor of 55.8, that is 55. *)
Theorem damage_scenario attacker defender move self a d :
  let move_type := default "Normal" (Data.type move) in
  Player.team (Battle.player attacker.1 self) !! attacker.2 = Some a ->
  Player.team (Battle.player defender.1 self) !! defender.2 = Some d ->
  Pokemon.level a = 50 ->
  Data.power move = Some 80 ->
  Data.category move = Some "Physical" ->
  Pokemon.get_modified_stat a "attack" = Ok (Int 100) ->
  Pokemon.get_modified_stat d "defense" = Ok (Int 100) ->
  type_effectiveness TYPE_CHART move_type (Pokemon.types d) = 1.0%float ->
  uniform (random_source (drawn self)) = 1.0%float ->
  ltb (Float (random (random_source (S (drawn self))))) (Float 0.0625) = false ->
  calculate_damage attacker defender move self
  = (Ok (if bool_decide (move_type ∈ Pokemon.types a) then 55 else 37),
     set_drawn (S (S (drawn self))) self).
Proof.
  intros move_type Ha Hd Hlevel Hpower Hcat Hatk Hdef Heff Hvar Hcrit.
  unfold Battle._calculate_damage. rewrite Hpower, Hcat. fold move_type.
  unfold deref, draw, random_uniform_085_1, random_random. mrun. cbn.
  rewrite Ha. cbn. rewrite Hd. cbn. rewrite Hatk, Hdef, Hlevel. cbn.
  rewrite Heff.
  change (gtb (Float 1) (Float 1)) with false.
  change (ltb (Float 1) (Float 1)) with false.
  change (eqb (Float 1) (Int 0)) with false.
  destruct (bool_decide (move_type ∈ Pokemon.types a)); cbn;
    rewrite Hvar, Hcrit; vm_compute; reflexivity.
Qed.

(** *** Invariants of the engine: the rules of [preserves] *)

Section Logic.

Context (Inv : Battle.t -> Prop) `{!PlayersOnly Inv}.

Lemma preserves_weaken {A} (m : M A) (Q Q' : A -> Prop) :
  preserves Inv m Q -> (forall a, Q a -> Q' a) -> preserves Inv m Q'.
Proof. intros Hm HQ self HInv. destruct (Hm self HInv). naive_solver. Qed.

Lemma preserves_ret {A} (a : A) (Q : A -> Prop) :
  Q a -> preserves Inv (mret a) Q.
Proof. intros HQ self HInv. split; [done|]. by intros ? [= <-]. Qed.

Lemma preserves_bind {A B} (m : M A) (k : A -> M B) Q R :
  preserves Inv m Q -> (forall a, Q a -> preserves Inv (k a) R) ->
  preserves Inv (m ≫= k) R.
Proof.
  intros Hm Hk self HInv. unfold mbind, M_bind.
  destruct (Hm self HInv) as [HInv' HQ]. destruct (m self) as [[a|e] self']; [|done].
  apply Hk; [by apply HQ | done].
Qed.

Lemma preserves_lift {A} (r : res A) :
  preserves Inv (lift r) (fun a => r = Ok a).
Proof. by intros self HInv. Qed.

Lemma preserves_gets {A} (f : Battle.t -> A) :
  preserves Inv (gets f) (fun a => exists self, Inv self /\ a = f self).
Proof. intros self HInv. split; [done|]. intros ? [= <-]. eauto. Qed.

Lemma preserves_modify (f : Battle.t -> Battle.t) :
  (forall self, player1 (f self) = player1 self /\ player2 (f self) = player2 self) ->
  preserves Inv (modify f) (fun _ => True).
Proof.
  intros Hf self HInv. split; [|done]. cbn.
  destruct (Hf self). by apply (players_only self).
Qed.

Lemma preserves_log msg : preserves Inv (log msg) (fun _ => True).
Proof. by apply preserves_modify. Qed.

Lemma preserves_draw : preserves Inv (draw random_source) (fun _ => True).
Proof. intros self HInv. split; [|done]. by apply (players_only self). Qed.

Lemma preserves_deref r :
  preserves Inv (deref r)
    (fun p => exists self,
       Inv self /\ Player.team (Battle.player r.1 self) !! r.2 = Some p).
Proof.
  intros self HInv. unfold deref.
  destruct (Player.team _ !! _) as [p|] eqn:Hp; [|done].
  split; [done|]. intros ? [= <-]. eauto.
Qed.

Lemma preserves_call {A} r (method : Pokemon.t -> A * Pokemon.t) :
  (forall self p,
     Inv self -> Player.team (Battle.player r.1 self) !! r.2 = Some p ->
     Inv (store r (method p).2 self)) ->
  preserves Inv (call r method) (fun _ => True).
Proof.
  intros Hm self HInv. unfold call.
  destruct (Player.team _ !! _) as [p|] eqn:Hp; [|done].
  specialize (Hm self p HInv Hp). unfold store in Hm.
  by destruct (method p).
Qed.

Lemma preserves_on_player {A} s (method : Player.t -> A * Player.t) :
  (forall self, Inv self -> Inv (set_player s (method (Battle.player s self)).2 self)) ->
  preserves Inv (on_player s method) (fun _ => True).
Proof.
  intros Hm self HInv. unfold on_player. specialize (Hm self HInv).
  by destruct (method _).
Qed.

Lemma preserves_when (b : bool) (m : M unit) :
  (b = true -> preserves Inv m (fun _ => True)) ->
  preserves Inv (when b m) (fun _ => True).
Proof. destruct b; [auto|]. intros _. by apply preserves_ret. Qed.

Lemma preserves_for_each {A} (l : list A) (body : A -> M unit) :
  (forall x, preserves Inv (body x) (fun _ => True)) ->
  preserves Inv (for_each l body) (fun _ => True).
Proof.
  intros Hbody. induction l as [|x l IH]; [by apply preserves_ret|].
  cbn [for_each]. eapply preserves_bind; [apply Hbody|]. by intros _ _.
Qed.

End Logic.

(** *** Signs of float products *)

Lemma binary_round_aux_signed s m e l :
  signed s (binary_round_aux prec emax s m e l).
Proof.
  unfold binary_round_aux.
  destruct (shr_fexp prec emax m e l) as [mrs' e'].
  destruct (shr_fexp prec emax _ e' loc_Exact) as [mrs'' e''].
  destruct (shr_m mrs''); [exact Logic.I| |exact Logic.I].
  destruct (Z.leb _ _); [reflexivity|exact Logic.I].
Qed.

Lemma binary_round_signed s m e : signed s (binary_round prec emax s m e).
Proof.
  unfold binary_round. destruct (shl_align _ _ _) as [mz ez].
  apply binary_round_aux_signed.
Qed.

Lemma signed_not_negative x : signed false x -> not_negative x.
Proof. destruct x as [| | |[] ? ?]; cbn; auto; discriminate. Qed.

Lemma binary_normalize_signed z :
  0 <= z -> signed false (binary_normalize prec emax z 0 false).
Proof.
  destruct z; cbn; [auto| |lia]. intros _. apply binary_round_signed.
Qed.

Lemma SFldexp_signed x e :
  signed false x -> signed false (SFldexp prec emax x e).
Proof.
  destruct x as [| | |s m e']; cbn; auto.
  intros ->. apply binary_round_signed.
Qed.




Lemma trunc_not_negative f z :
  not_negative (Prim2SF f) -> trunc f = Ok z -> 0 <= z.
Proof.
  unfold trunc. destruct (Prim2SF f) as [| | |[] m e]; cbn; try done.
  - by intros _ [= <-].
  - intros _ [= <-]. apply Z.shiftl_nonneg. lia.
Qed.


(** *** C5: the HP bounds are an invariant of the engine *)

Global Instance hp_invariant_players : PlayersOnly hp_invariant.
Proof. intros self self' H1 H2. unfold hp_invariant. by rewrite H1, H2. Qed.





(** One step of a proof that a computation preserves an invariant. *)
Ltac prim :=
  first [ apply preserves_log | apply preserves_draw | apply preserves_lift
        | apply preserves_gets | apply preserves_deref ];
  try apply _.

Ltac pstep :=
  lazymatch goal with
  | |- preserves _ (mret _) _ => by apply preserves_ret
  | |- preserves _ (mbind _ _) _ =>
      first [ eapply preserves_bind; [solve [prim]|intros ? ?; cbv beta in *]
            | eapply (preserves_bind _ _ _ (fun _ => True)); [|intros ? _] ]
  | |- preserves _ (if ?b then _ else _) _ => destruct b eqn:?
  | |- preserves _ (match ?x with _ => _ end) _ => destruct x eqn:?
  | |- preserves _ (when _ _) _ => apply preserves_when; intros ?
  | |- preserves _ (for_each _ _) _ => apply preserves_for_each; intros ?
  | |- preserves _ _ _ =>
      first [ prim | eapply preserves_weaken; [solve [prim]|done] ]
  end.

Section Invariant.

Context (Inv : Battle.t -> Prop) `{!PlayersOnly Inv}.

Lemma preserves_random_random :
  preserves Inv (random_random random_source) (fun _ => True).
Proof. unfold random_random. repeat pstep. Qed.


Lemma preserves_random_uniform :
  preserves Inv (random_uniform_085_1 random_source) (fun _ => True).
Proof. unfold random_uniform_085_1. repeat pstep. Qed.

Lemma preserves_calculate_damage attacker defender move :
  preserves Inv (calculate_damage attacker defender move) (fun _ => True).
Proof.
  unfold Battle._calculate_damage.
  repeat first [ apply preserves_random_random | apply preserves_random_uniform
               | pstep ].
Qed.

End Invariant.











Lemma switch_pokemon_team index pl :
  Player.team (Player.switch_pokemon index pl).2 = Player.team pl.
Proof. unfold Player.switch_pokemon. by repeat case_match. Qed.











(** *** C8: the magnitude of drain and recoil *)

Lemma lookup_store r p p' self :
  Player.team (Battle.player r.1 self) !! r.2 = Some p ->
  Player.team (Battle.player r.1 (store r p' self)) !! r.2 = Some p'.
Proof.
  intros Hp. unfold store. rewrite player_set_player. cbn.
  apply list_lookup_insert_eq. by eapply lookup_lt_Some.
Qed.

Lemma call_run {A} r (method : Pokemon.t -> A * Pokemon.t) p self :
  Player.team (Battle.player r.1 self) !! r.2 = Some p ->
  call r method self = (Ok (method p).1, store r (method p).2 self).
Proof. intros Hp. unfold call. rewrite Hp. by destruct (method p). Qed.

Lemma deref_run r p self :
  Player.team (Battle.player r.1 self) !! r.2 = Some p ->
  deref r self = (Ok p, self).
Proof. intros Hp. unfold deref. by rewrite Hp. Qed.


Lemma bind_run {A B} (m : M A) (k : A -> M B) self :
  (m ≫= k) self
  = match m self with
    | (Ok a, self') => k a self'
    | (Raise e, self') => (Raise e, self')
    end.
Proof. reflexivity. Qed.

Lemma ret_run {A} (a : A) self : (mret a : M A) self = (Ok a, self).
Proof. reflexivity. Qed.

Ltac mstep := repeat (first [rewrite bind_run | rewrite ret_run]; cbv beta iota).

Lemma when_log_run b msg self : when b (log msg) self = (Ok tt, log_if b msg self).
Proof. by destruct b. Qed.



Lemma calculate_damage_players attacker defender move self :
  let self' := (calculate_damage attacker defender move self).2 in
  player1 self' = player1 self /\ player2 self' = player2 self.
Proof.
  set (Inv := fun s => player1 s = player1 self /\ player2 s = player2 self).
  assert (PlayersOnly Inv) as HInv.
  { intros s s' H1 H2 [? ?]. unfold Inv. by rewrite <- H1, <- H2. }
  by apply (preserves_calculate_damage Inv attacker defender move self).
Qed.

Lemma player_same s self self' :
  player1 self' = player1 self -> player2 self' = player2 self ->
  Battle.player s self' = Battle.player s self.
Proof. by destruct s. Qed.

Lemma execute_move_damaging player move_name self a d move damage self1 :
  let opponent := other player in
  let attacker := (player, Player.active_pokemon_index (Battle.player player self)) in
  let defender := (opponent, Player.active_pokemon_index (Battle.player opponent self)) in
  let used :=
    log_if true
      (Player.name (Battle.player player self) +:+ "'s " +:+ Pokemon.nickname a
       +:+ " used " +:+ move_name +:+ "!") self in
  Player.team (Battle.player player self) !! attacker.2 = Some a ->
  Pokemon.is_fainted a = false ->
  Player.team (Battle.player opponent self) !! defender.2 = Some d ->
  Pokemon.is_fainted d = false ->
  MOVE_DATA !! move_name = Some move ->
  Data.is_empty move = false ->
  move_name ∈ Pokemon.moves a ->
  Pokemon.status a ∉ [Some "paralyzed"; Some "frozen"; Some "asleep"] ->
  100 <= default 100 (Data.accuracy move) ->
  default "Physical" (Data.category move) ∈ ["Physical"; "Special"] ->
  calculate_damage attacker defender move used = (Ok damage, self1) ->
  execute_move player move_name self
  = apply_move_effects move attacker defender player opponent
      (damaged defender opponent d damage self1).
Proof.
  intros opponent attacker defender used Ha Hfa Hd Hfd Hmove Hne Hknown
    Hstatus Hacc Hcat Hdmg.
  pose proof Ha as Ha'. pose proof Hd as Hd'.
  unfold attacker in Ha'. unfold defender in Hd'. cbn [snd] in Ha', Hd'.
  unfold Battle._execute_move. mstep. rewrite active_pokemon_run, Ha'. mstep.
  rewrite (deref_run (player, _) a) by done. mstep. rewrite Hfa.
  mstep. rewrite active_pokemon_run. fold opponent. rewrite Hd'. mstep.
  rewrite (deref_run (opponent, _) d) by done. mstep. rewrite Hfd.
  rewrite Hmove. cbn [default id]. rewrite Hne.
  rewrite (bool_decide_true (move_name ∈ _)) by done. cbn [negb orb].
  mstep. unfold gets at 1. mstep. unfold log at 1, modify at 1. mstep.
  rewrite !bool_decide_false
    by (intros Hs; apply Hstatus; rewrite Hs; by repeat constructor).
  mstep. destruct (Z.ltb_spec (default 100 (Data.accuracy move)) 100); [lia|].
  mstep. rewrite (bool_decide_true _ Hcat).
  fold attacker defender. fold used in Hdmg. unfold log_if in used.
  fold used. mstep. rewrite Hdmg.
  pose proof (calculate_damage_players attacker defender move used) as Hsame.
  rewrite Hdmg in Hsame. cbn [snd] in Hsame. destruct Hsame as [H1 H2].
  assert (Player.team (Battle.player defender.1 self1) !! defender.2 = Some d)
    as Hd1.
  { rewrite (player_same _ used self1) by done. unfold used.
    by rewrite player_set_battle_log. }
  mstep. rewrite (call_run _ _ _ _ Hd1). mstep. unfold log at 1, modify at 1. mstep.
  rewrite (deref_run defender (Pokemon.take_damage damage d).2)
    by (rewrite player_set_battle_log; by eapply lookup_store).
  mstep. unfold gets at 1. mstep. rewrite when_log_run. mstep.
  unfold damaged. destruct (Pokemon.take_damage damage d) as [actual d'].
  cbn [fst snd log_if]. by rewrite player_set_battle_log.
Qed.

Global Instance hp_as_players r p : PlayersOnly (hp_as r p).
Proof.
  intros self self' H1 H2 (q & Hq & ?). exists q.
  by rewrite (player_same _ self self').
Qed.

Lemma hp_as_store_other r r' p p' self :
  r'.1 <> r.1 -> hp_as r p self -> hp_as r p (store r' p' self).
Proof.
  intros Hne (q & Hq & ?). exists q. split; [|done]. unfold store.
  destruct r as [s i], r' as [s' i']. cbn in *. by destruct s, s'.
Qed.

Lemma hp_as_store r p p' self :
  Pokemon.current_hp p' = Pokemon.current_hp p ->
  Pokemon.max_hp p' = Pokemon.max_hp p ->
  hp_as r p self -> hp_as r p (store r p' self).
Proof.
  intros Hhp Hmax (q & Hq & ?). exists p'. split; [|done].
  by eapply lookup_store.
Qed.

Lemma preserves_call_hp_as {A} r r' p (method : Pokemon.t -> A * Pokemon.t) :
  (r' = r \/ r'.1 <> r.1) ->
  (r' = r ->
   forall q, Pokemon.current_hp (method q).2 = Pokemon.current_hp q
             /\ Pokemon.max_hp (method q).2 = Pokemon.max_hp q) ->
  preserves (hp_as r p) (call r' method) (fun _ => True).
Proof.
  intros Hr Hm. apply preserves_call. intros self q HInv Hq.
  destruct Hr as [->|Hne]; [|by apply hp_as_store_other].
  destruct HInv as (q' & Hq' & Hhp & Hmax).
  assert (q' = q) as -> by congruence.
  destruct (Hm eq_refl q) as [Hhp' Hmax'].
  apply hp_as_store; [congruence|congruence|]. by exists q.
Qed.

Lemma modify_stat_stage_hp stat stages q :
  Pokemon.current_hp (Pokemon.modify_stat_stage stat stages q).2
  = Pokemon.current_hp q
  /\ Pokemon.max_hp (Pokemon.modify_stat_stage stat stages q).2
     = Pokemon.max_hp q.
Proof.
  unfold Pokemon.modify_stat_stage. by destruct (Pokemon.stat_stages q !! stat).
Qed.

Lemma apply_status_hp status q :
  Pokemon.current_hp (Pokemon.apply_status status q).2 = Pokemon.current_hp q
  /\ Pokemon.max_hp (Pokemon.apply_status status q).2 = Pokemon.max_hp q.
Proof. unfold Pokemon.apply_status. by repeat case_match. Qed.

Lemma preserves_modify_stages_hp_as r p target delta l verb :
  (target = r \/ target.1 <> r.1) ->
  preserves (hp_as r p) (modify_stages target delta l verb) (fun _ => True).
Proof.
  intros Ht. unfold modify_stages. repeat pstep.
  apply preserves_call_hp_as; [done|]. intros _ q. apply modify_stat_stage_hp.
Qed.

(** No effect of a move changes the HP of the defender. *)
Lemma preserves_defender_hp move attacker defender ap dp p :
  attacker.1 <> defender.1 ->
  preserves (hp_as defender p)
    (apply_move_effects move attacker defender ap dp) (fun _ => True).
Proof.
  intros Hne. unfold Battle._apply_move_effects. cbv zeta.
  repeat first [ apply preserves_random_random; apply _
               | apply preserves_modify_stages_hp_as; by auto
               | pstep ];
    (apply preserves_call_hp_as; [by auto|]);
    [intros _ q; apply apply_status_hp | intros -> ..]; done.
Qed.

Lemma damaged_hp_as attacker defender opponent move d damage used self1 :
  Player.team (Battle.player defender.1 used) !! defender.2 = Some d ->
  calculate_damage attacker defender move used = (Ok damage, self1) ->
  hp_as defender (Pokemon.take_damage damage d).2
    (damaged defender opponent d damage self1).
Proof.
  intros Hd Hdmg. exists (Pokemon.take_damage damage d).2. split; [|done].
  unfold damaged.
  pose proof (calculate_damage_players attacker defender move used) as Hsame.
  rewrite Hdmg in Hsame. cbn [snd] in Hsame. destruct Hsame as [H1 H2].
  destruct (Pokemon.take_damage damage d) as [actual d1]. cbn [snd].
  unfold log_if. destruct (Pokemon.is_fainted d1);
    rewrite ?player_set_battle_log; eapply lookup_store;
    by rewrite (player_same _ used self1).
Qed.






(** *** C2: a move the defender is immune to *)

(** C2: a Physical or Special move that connects costs the defender HP,
    whatever its effectiveness: the defender is left with
    [max(0, hp - max(1, damage))], less than it had, also when the chart
    makes the effectiveness exactly 0 and the immunity line is logged. *)
Theorem connecting_move_costs_hp player move_name self a d move damage self1 :
  let opponent := other player in
  let attacker := (player, Player.active_pokemon_index (Battle.player player self)) in
  let defender := (opponent, Player.active_pokemon_index (Battle.player opponent self)) in
  let used :=
    log_if true
      (Player.name (Battle.player player self) +:+ "'s " +:+ Pokemon.nickname a
       +:+ " used " +:+ move_name +:+ "!") self in
  Player.team (Battle.player player self) !! attacker.2 = Some a ->
  Pokemon.is_fainted a = false ->
  Player.team (Battle.player opponent self) !! defender.2 = Some d ->
  Pokemon.is_fainted d = false ->
  MOVE_DATA !! move_name = Some move ->
  Data.is_empty move = false ->
  move_name ∈ Pokemon.moves a ->
  Pokemon.status a ∉ [Some "paralyzed"; Some "frozen"; Some "asleep"] ->
  100 <= default 100 (Data.accuracy move) ->
  default "Physical" (Data.category move) ∈ ["Physical"; "Special"] ->
  calculate_damage attacker defender move used = (Ok damage, self1) ->
  exists d',
    Player.team (Battle.player opponent (execute_move player move_name self).2)
      !! defender.2 = Some d'
    /\ Pokemon.current_hp d'
       = Z.max 0 (Pokemon.current_hp d - Z.max 1 damage)
    /\ Pokemon.current_hp d' < Pokemon.current_hp d.
Proof.
  intros opponent attacker defender used Ha Hfa Hd Hfd Hmove Hne Hknown
    Hstatus Hacc Hcat Hdmg.
  assert (attacker.1 <> defender.1) as Hsides by (by destruct player).
  rewrite (execute_move_damaging player move_name self a d move damage self1)
    by done.
  fold opponent attacker defender.
  destruct (preserves_defender_hp move attacker defender player opponent
              (Pokemon.take_damage damage d).2 Hsides
              (damaged defender opponent d damage self1))
    as [(d' & Hd' & Hhp & _) _].
  { apply (damaged_hp_as attacker defender opponent move d damage used);
      [|done]. unfold used, log_if. by rewrite player_set_battle_log. }
  exists d'. split; [done|]. rewrite Hhp, take_damage_hp.
  unfold Pokemon.is_fainted in Hfd. apply Z.leb_gt in Hfd. lia.
Qed.

End BattleProps.

(** ** The properties at the sample data *)

Section Witnesses.

Local Abbreviation calculate_damage :=
  (_calculate_damage Sample.TYPE_CHART Sample.steady).
Local Abbreviation execute_move :=
  (_execute_move Sample.MOVE_DATA Sample.TYPE_CHART Sample.steady).
Local Abbreviation execute_turn :=
  (Battle.execute_turn Sample.MOVE_DATA Sample.TYPE_CHART Sample.steady).

(** Hypotheses over the sample data hold by evaluation. *)
Ltac evaluate :=
  first [ reflexivity
        | vm_compute; reflexivity
        | vm_compute; lia
        | apply (bool_decide_unpack _); vm_compute; reflexivity ].

Lemma damage_scenario_witness :
  let plain := Sample.battle [Sample.machamp] [Sample.machamp] in
  let stab := Sample.battle [Sample.snorlax] [Sample.machamp] in
  calculate_damage (Player1, 0%nat) (Player2, 0%nat) strength plain
  = (Ok 37, set_drawn 2 plain)
  /\ calculate_damage (Player1, 0%nat) (Player2, 0%nat) strength stab
     = (Ok 55, set_drawn 2 stab).
Proof.
  intros plain stab. split.
  - apply (damage_scenario Sample.TYPE_CHART Sample.steady (Player1, 0%nat)
             (Player2, 0%nat) strength plain Sample.machamp Sample.machamp);
      evaluate.
  - apply (damage_scenario Sample.TYPE_CHART Sample.steady (Player1, 0%nat)
             (Player2, 0%nat) strength stab Sample.snorlax Sample.machamp);
      evaluate.
Defined.

(** C1 as stated fails: in the scenario of the claim (level 50, power 80,
    attack and defense 100, effectiveness 1, variance 1.0, no critical hit)
    the damage is not 42, and with the same-type bonus it is not 63. *)
Lemma damage_scenario_counterexample :
  let plain := Sample.battle [Sample.machamp] [Sample.machamp] in
  let stab := Sample.battle [Sample.snorlax] [Sample.machamp] in
  (Pokemon.level Sample.machamp = 50 /\ Pokemon.level Sample.snorlax = 50
   /\ Data.power strength = Some 80
   /\ Data.category strength = Some "Physical"
   /\ Pokemon.get_modified_stat Sample.machamp "attack" = Ok (Int 100)
   /\ Pokemon.get_modified_stat Sample.snorlax "attack" = Ok (Int 100)
   /\ Pokemon.get_modified_stat Sample.machamp "defense" = Ok (Int 100)
   /\ type_effectiveness Sample.TYPE_CHART "Normal"
        (Pokemon.types Sample.machamp) = 1.0%float
   /\ uniform (Sample.steady 0%nat) = 1.0%float
   /\ ltb (Float (random (Sample.steady 1%nat))) (Float 0.0625) = false
   /\ ("Normal" ∉ Pokemon.types Sample.machamp)
   /\ ("Normal" ∈ Pokemon.types Sample.snorlax))
  /\ ((calculate_damage (Player1, 0%nat) (Player2, 0%nat) strength plain).1
      <> Ok 42)
  /\ ((calculate_damage (Player1, 0%nat) (Player2, 0%nat) strength stab).1
      <> Ok 63).
Proof.
  intros plain stab. split; [split_and!; evaluate|].
  split; vm_compute; discriminate.
Qed.

Lemma action_order_witness :
  let self := Sample.battle [Sample.machamp; Sample.snorlax] [Sample.snorlax] in
  (execute_turn Sample.pass (Sample.move "Tackle") self).1
  = Ok ["Gary's Snorlax used Tackle!"; "Machamp took 29 damage!"]
  /\ (execute_turn (Sample.move "Tackle") (Sample.switch 0) self).1
     = Ok ["Gary withdrew their Pokémon!"; "Gary sent out Snorlax!";
           "Ash's Machamp used Tackle!"; "Snorlax took 19 damage!"].
Proof.
  intros self.
  pose proof (action_order Sample.MOVE_DATA Sample.TYPE_CHART Sample.steady
                Sample.pass (Sample.move "Tackle") self) as (Hpass & _).
  pose proof (action_order Sample.MOVE_DATA Sample.TYPE_CHART Sample.steady
                (Sample.move "Tackle") (Sample.switch 0) self)
    as (_ & _ & _ & Hswitch).
  cbv zeta in Hpass, Hswitch.
  assert (act_type Sample.pass = Some "pass") as H1 by reflexivity.
  assert (act_type (Sample.move "Tackle") <> Some "pass") as H2 by discriminate.
  assert (act_type (Sample.switch 0) = Some "switch") as H3 by reflexivity.
  assert (act_type (Sample.move "Tackle") = Some "move") as H4 by reflexivity.
  destruct (Hpass H1 H2) as [_ ->].
  destruct (Hswitch (or_introl H3) H4) as [_ ->].
  split; evaluate.
Defined.




(** Tackle, a Normal move, against a Ghost: the effectiveness is 0, the
    immunity line is logged, and Gengar goes from 80 to 79 HP. *)
Lemma connecting_move_costs_hp_witness :
  let self := Sample.battle [hurt_machamp] [hurt_gengar] in
  let used := set_battle_log ["Ash's Machamp used Tackle!"] self in
  let after := (execute_move Player1 "Tackle" self).2 in
  type_effectiveness Sample.TYPE_CHART "Normal" (Pokemon.types hurt_gengar)
  = 0%float
  /\ calculate_damage (Player1, 0%nat) (Player2, 0%nat) tackle used
     = (Ok 1,
        set_drawn 2
          (set_battle_log
             ["Ash's Machamp used Tackle!"; "It doesn't affect Gengar..."] self))
  /\ (exists d',
        Player.team (player2 after) !! 0%nat = Some d'
        /\ Pokemon.current_hp d' = 79
        /\ Pokemon.current_hp d' < Pokemon.current_hp hurt_gengar)
  /\ battle_log after
     = ["Ash's Machamp used Tackle!"; "It doesn't affect Gengar...";
        "Gengar took 1 damage!"].
Proof.
  intros self used after.
  split; [evaluate|].
  assert (calculate_damage (Player1, 0%nat) (Player2, 0%nat) tackle used
          = (Ok 1,
             set_drawn 2
               (set_battle_log
                  ["Ash's Machamp used Tackle!"; "It doesn't affect Gengar..."]
                  self))) as Hdmg by evaluate.
  split; [exact Hdmg|].
  split; [|evaluate].
  apply (connecting_move_costs_hp Sample.MOVE_DATA Sample.TYPE_CHART
           Sample.steady Player1 "Tackle" self hurt_machamp hurt_gengar
           tackle 1
           (set_drawn 2
              (set_battle_log
                 ["Ash's Machamp used Tackle!"; "It doesn't affect Gengar..."]
                 self)));
    first [exact Hdmg | evaluate].
Defined.

End Witnesses.

(** * Further properties of the code *)

(** ** pokemon.py *)

Section MorePokemon.

Implicit Types (p : Pokemon.t) (stat : string).

(** X1: [heal] returns the HP gained: nothing on a fainted Pokémon, which it
    leaves as it is, and otherwise, for an amount that is not negative, the
    amount or the missing HP, whichever is smaller. Only [current_hp]
    changes. *)
Theorem heal_returns_gain amount p :
  let '(healed, p') := Pokemon.heal amount p in
  p' = Pokemon.set_current_hp (Pokemon.current_hp p + healed) p
  /\ (Pokemon.is_fainted p = true -> healed = 0)
  /\ (Pokemon.is_fainted p = false -> 0 <= amount -> hp_in_bounds p ->
      healed = Z.min amount (Pokemon.max_hp p - Pokemon.current_hp p)
      /\ Pokemon.is_fainted p' = false).
Proof.
  unfold Pokemon.heal, hp_in_bounds, Pokemon.is_fainted.
  destruct (Z.leb_spec (Pokemon.current_hp p) 0) as [Hf|Hf]; cbn.
  - split_and!; [|done|done]. rewrite Z.add_0_r. by destruct p.
  - split_and!; [f_equal; lia|done|]. intros _ Ha Hb. split; [lia|].
    apply Z.leb_gt. lia.
Qed.

Lemma apply_status_immune_dec new_status p :
  (String.eqb new_status "paralyzed" && bool_decide ("Electric" ∈ Pokemon.types p)
   || String.eqb new_status "poisoned"
      && (bool_decide ("Poison" ∈ Pokemon.types p)
          || bool_decide ("Steel" ∈ Pokemon.types p))
   || String.eqb new_status "burned" && bool_decide ("Fire" ∈ Pokemon.types p))
  = true
  <-> status_immune new_status (Pokemon.types p).
Proof.
  unfold status_immune.
  rewrite !orb_true_iff, !andb_true_iff, !orb_true_iff, !bool_decide_eq_true,
    !String.eqb_eq.
  tauto.
Qed.

(** X2: [apply_status] succeeds exactly when the Pokémon carries no status and
    its types do not make it immune; then the status is set and nothing
    else changes. Otherwise the Pokémon is left as it is: a status already
    carried is never overwritten. *)
Theorem apply_status_result new_status p :
  let '(applied, p') := Pokemon.apply_status new_status p in
  (applied = true
   <-> truthy (Pokemon.status p) = false
       /\ ~ status_immune new_status (Pokemon.types p))
  /\ (applied = true -> p' = Pokemon.set_status (Some new_status) p)
  /\ (applied = false -> p' = p).
Proof.
  pose proof (apply_status_immune_dec new_status p) as Himm.
  unfold Pokemon.apply_status.
  destruct (truthy (Pokemon.status p)); [by split_and!; [split; [|intros []]|..]|].
  destruct (String.eqb new_status "paralyzed" && _) eqn:H1.
  { cbn in Himm. split_and!; try done. split; [done|]. intros [_ []]. tauto. }
  destruct (String.eqb new_status "poisoned" && _) eqn:H2.
  { cbn in Himm. split_and!; try done. split; [done|]. intros [_ []]. tauto. }
  destruct (String.eqb new_status "burned" && _) eqn:H3.
  { cbn in Himm. split_and!; try done. split; [done|]. intros [_ []]. tauto. }
  cbn in Himm. split_and!; try done. split; [|done]. intros _. split; [done|].
  intros Hi. apply Himm in Hi. done.
Qed.

(** X3: [modify_stat_stage] on a name that is no key of [stat_stages] returns 0
    and changes nothing; on a key it changes that stage alone: no key is
    added or removed, the other stages and every other attribute stay. *)
Theorem modify_stat_stage_frame stat stages p :
  let p' := (Pokemon.modify_stat_stage stat stages p).2 in
  (Pokemon.stat_stages p !! stat = None ->
   Pokemon.modify_stat_stage stat stages p = (0, p))
  /\ dom (Pokemon.stat_stages p') = dom (Pokemon.stat_stages p)
  /\ (forall stat', stat' <> stat ->
        Pokemon.stat_stages p' !! stat' = Pokemon.stat_stages p !! stat')
  /\ p' = Pokemon.set_stat_stages (Pokemon.stat_stages p') p.
Proof.
  unfold Pokemon.modify_stat_stage.
  destruct (Pokemon.stat_stages p !! stat) as [old|] eqn:Hold; cbn.
  - split_and!; [done| |by intros; rewrite lookup_insert_ne|done].
    rewrite dom_insert_L. apply elem_of_dom_2 in Hold.
    apply subseteq_union_1_L. by apply singleton_subseteq_l.
  - split_and!; try done. by destruct p.
Qed.

(** X4: After [reset_stat_stages] the keys are those of before and every stage
    is 0, so that the next [modify_stat_stage] on a key returns the request
    clamped to [-6, 6]. *)
Theorem reset_stat_stages_zero p :
  let p' := Pokemon.reset_stat_stages p in
  dom (Pokemon.stat_stages p') = dom (Pokemon.stat_stages p)
  /\ (forall stat s, Pokemon.stat_stages p' !! stat = Some s -> s = 0)
  /\ stages_in_range p'
  /\ (forall stat stages,
        is_Some (Pokemon.stat_stages p !! stat) ->
        (Pokemon.modify_stat_stage stat stages p').1
        = Z.max (-6) (Z.min 6 stages)).
Proof.
  unfold Pokemon.reset_stat_stages, stages_in_range.
  cbn [Pokemon.stat_stages Pokemon.set_stat_stages]. split_and!.
  - apply dom_fmap_L.
  - intros stat s. rewrite lookup_fmap. by destruct (_ !! stat); intros [= <-].
  - intros stat s. rewrite lookup_fmap. destruct (_ !! stat); intros [= <-]. lia.
  - intros stat stages [old Hold]. unfold Pokemon.modify_stat_stage.
    cbn [Pokemon.stat_stages Pokemon.set_stat_stages].
    rewrite lookup_fmap, Hold. cbn. f_equal. lia.
Qed.

End MorePokemon.

(** ** player.py *)

Section MorePlayer.

Implicit Types (pl : Player.t) (p : Pokemon.t).

(** X5: [switch_pokemon] succeeds exactly when the index names a roster member
    that has not fainted; then that member is the active Pokémon and
    nothing else changes. Otherwise the player is left as it is. *)
Theorem switch_pokemon_result index pl :
  let '(switched, pl') := Player.switch_pokemon index pl in
  (switched = true
   <-> exists p, 0 <= index /\ Player.team pl !! Z.to_nat index = Some p
                 /\ Pokemon.is_fainted p = false)
  /\ (switched = true ->
      pl' = Player.set_active_pokemon_index (Z.to_nat index) pl
      /\ exists p, Player.active_pokemon pl' = Some p
                   /\ Pokemon.is_fainted p = false)
  /\ (switched = false -> pl' = pl).
Proof.
  unfold Player.switch_pokemon. rewrite in_range_lookup.
  destruct (bool_decide_reflect (0 <= index)) as [Hi|Hi].
  - destruct (Player.team pl !! Z.to_nat index) as [p|] eqn:Hp.
    + destruct (Pokemon.is_fainted p) eqn:Hf; cbn.
      * split_and!; try done. split; [done|]. intros (q & _ & [= <-] & ?).
        congruence.
      * split_and!; try done; [split; eauto|]. intros _. split; [done|].
        exists p. by rewrite active_pokemon_lookup.
    + split_and!; try done. split; [done|]. by intros (q & _ & ? & _).
  - split_and!; try done. split; [done|]. intros (q & ? & _). lia.
Qed.

Lemma has_usable_pokemon_true pl :
  Player.has_usable_pokemon pl = true
  <-> exists i p, Player.team pl !! i = Some p /\ Pokemon.is_fainted p = false.
Proof.
  unfold Player.has_usable_pokemon. rewrite existsb_exists. split.
  - intros (p & Hp%list_elem_of_In%list_elem_of_lookup & Hf).
    destruct Hp as [i Hi]. exists i, p. split; [done|].
    by apply negb_true_iff.
  - intros (i & p & Hi & Hf). exists p. split.
    + apply list_elem_of_In, list_elem_of_lookup. eauto.
    + by apply negb_true_iff.
Qed.

(** X6: [has_usable_pokemon] holds exactly when some [switch_pokemon] call
    would succeed; a player without Pokémon has none usable. *)
Theorem has_usable_iff_switchable pl :
  (Player.has_usable_pokemon pl = true
   <-> exists index, (Player.switch_pokemon index pl).1 = true)
  /\ (Player.team pl = [] -> Player.has_usable_pokemon pl = false).
Proof.
  split; [|by unfold Player.has_usable_pokemon; intros ->].
  rewrite has_usable_pokemon_true. split.
  - intros (i & p & Hi & Hf). exists (Z.of_nat i).
    pose proof (switch_pokemon_active (Player.set_active_pokemon_index i pl) p)
      as Hsw.
    unfold Player.switch_pokemon in *. rewrite in_range_lookup in *.
    cbn in Hsw. rewrite bool_decide_true by lia. rewrite Nat2Z.id, Hi, Hf.
    done.
  - intros [index Hsw]. unfold Player.switch_pokemon in Hsw.
    rewrite in_range_lookup in Hsw.
    destruct (bool_decide (0 <= index)); [|done].
    destruct (Player.team pl !! Z.to_nat index) as [p|] eqn:Hp; [|done].
    destruct (Pokemon.is_fainted p) eqn:Hf; [done|]. eauto.
Qed.

Lemma use_potion_potions index pl :
  Player.potions (Player.use_potion index pl).2
  = Player.potions pl - (if (Player.use_potion index pl).1 then 1 else 0)
  /\ ((Player.use_potion index pl).1 = true -> 0 < Player.potions pl)
  /\ length (Player.team (Player.use_potion index pl).2)
     = length (Player.team pl).
Proof.
  unfold Player.use_potion.
  destruct (Z.leb_spec (Player.potions pl) 0); [cbn; split_and!; [lia|done|done]|].
  destruct (if Player.in_range index pl then _ else _) as [p|];
    [|cbn; split_and!; [lia|done|done]].
  destruct (negb _ && _); cbn; split_and!; try done; try lia.
  by rewrite length_insert.
Qed.

(** X7: Whatever the sequence of [use_potion] calls, the potion count drops by
    the number of calls that succeeded and never below zero: a player that
    starts with [n] potions heals at most [n] times. The roster keeps its
    size. *)
Theorem use_potions_count indices pl :
  0 <= Player.potions pl ->
  let '(results, pl') := use_potions indices pl in
  Player.potions pl'
  = Player.potions pl - Z.of_nat (length (filter (fun b => b = true) results))
  /\ 0 <= Player.potions pl'
  /\ length (Player.team pl') = length (Player.team pl).
Proof.
  revert pl. induction indices as [|index indices IH]; intros pl Hn; cbn.
  { split_and!; [lia|done|done]. }
  destruct (use_potion_potions index pl) as (Hp & Hpos & Hlen).
  destruct (Player.use_potion index pl) as [used pl1]; cbn in *.
  assert (0 <= Player.potions pl1) as H1 by (destruct used; [specialize (Hpos eq_refl)|]; lia).
  specialize (IH pl1 H1).
  destruct (use_potions indices pl1) as [results pl2].
  destruct IH as (IH1 & IH2 & IH3). split_and!; [|done|congruence].
  rewrite IH1, Hp. destruct used.
  - rewrite filter_cons_True by done. cbn [length]. lia.
  - rewrite filter_cons_False by done. lia.
Qed.

Lemma use_potions_count_witness :
  let pl := Sample.ash [hurt_machamp; Sample.snorlax] in
  0 <= Player.potions pl
  /\ (use_potions [0; 1; 0; 0; 0; 7] pl).1
     = [true; false; true; true; false; false]
  /\ Player.potions (use_potions [0; 1; 0; 0; 0; 7] pl).2 = 0.
Proof.
  intros pl. assert (0 <= Player.potions pl) as H by (cbn; lia).
  split; [exact H|].
  pose proof (use_potions_count [0; 1; 0; 0; 0; 7] pl H) as Hcount.
  destruct (use_potions [0; 1; 0; 0; 0; 7] pl) as [results pl'] eqn:Hrun.
  vm_compute in Hrun. injection Hrun as <- <-. by split.
Defined.

End MorePlayer.

(** ** battle.py: what the engine keeps *)

(** *** The engine reaches the rosters through six methods only

    An invariant kept by logging, by drawing random numbers and by the
    four Pokémon methods and the two player methods the engine calls is
    kept by each action and by the end-of-turn effects. *)

Section EngineInduction.

Variable MOVE_DATA : gmap string Data.Move.
Variable TYPE_CHART : gmap string (gmap string float).
Variable random_source : nat -> Draw.
Variable Inv : Battle.t -> Prop.

Hypothesis Inv_log : forall msg, preserves Inv (log msg) (fun _ => True).
Hypothesis Inv_draw : preserves Inv (draw random_source) (fun _ => True).
Hypothesis Inv_take_damage : forall r damage,
  preserves Inv (call r (Pokemon.take_damage damage)) (fun _ => True).
Hypothesis Inv_heal : forall r amount,
  preserves Inv (call r (Pokemon.heal amount)) (fun _ => True).
Hypothesis Inv_apply_status : forall r status,
  preserves Inv (call r (Pokemon.apply_status status)) (fun _ => True).
Hypothesis Inv_modify_stat_stage : forall r stat stages,
  preserves Inv (call r (Pokemon.modify_stat_stage stat stages)) (fun _ => True).
Hypothesis Inv_switch_pokemon : forall side index,
  preserves Inv (on_player side (Player.switch_pokemon index)) (fun _ => True).
Hypothesis Inv_use_potion : forall side index,
  preserves Inv (on_player side (Player.use_potion index)) (fun _ => True).

Ltac kept_prim :=
  first [ apply preserves_lift | apply preserves_gets | apply preserves_deref
        | apply Inv_log | apply Inv_draw | apply Inv_take_damage
        | apply Inv_heal | apply Inv_apply_status
        | apply Inv_modify_stat_stage | apply Inv_switch_pokemon
        | apply Inv_use_potion ].

Ltac kept_step :=
  lazymatch goal with
  | |- preserves _ (mret _) _ => by apply preserves_ret
  | |- preserves _ (mbind _ _) _ =>
      first [ eapply preserves_bind; [solve [kept_prim]|intros ? ?; cbv beta in *]
            | eapply (preserves_bind _ _ _ (fun _ => True)); [|intros ? _] ]
  | |- preserves _ (if ?b then _ else _) _ => destruct b eqn:?
  | |- preserves _ (match ?x with _ => _ end) _ => destruct x eqn:?
  | |- preserves _ (when _ _) _ => apply preserves_when; intros ?
  | |- preserves _ (for_each _ _) _ => apply preserves_for_each; intros ?
  | |- preserves _ _ _ =>
      first [ kept_prim | eapply preserves_weaken; [solve [kept_prim]|done] ]
  end.

Lemma kept_random_random :
  preserves Inv (random_random random_source) (fun _ => True).
Proof. unfold random_random. repeat kept_step. Qed.

Lemma kept_random_randint :
  preserves Inv (random_randint_1_100 random_source) (fun _ => True).
Proof. unfold random_randint_1_100. repeat kept_step. Qed.

Lemma kept_random_uniform :
  preserves Inv (random_uniform_085_1 random_source) (fun _ => True).
Proof. unfold random_uniform_085_1. repeat kept_step. Qed.

Lemma kept_calculate_damage attacker defender move :
  preserves Inv (_calculate_damage TYPE_CHART random_source attacker defender move)
    (fun _ => True).
Proof.
  unfold _calculate_damage.
  repeat first [ apply kept_random_random | apply kept_random_uniform
               | kept_step ].
Qed.

Lemma kept_modify_stages target delta l verb :
  preserves Inv (modify_stages target delta l verb) (fun _ => True).
Proof. unfold modify_stages. repeat kept_step. Qed.

Lemma kept_apply_move_effects move attacker defender ap dp :
  preserves Inv (_apply_move_effects random_source move attacker defender ap dp)
    (fun _ => True).
Proof.
  unfold _apply_move_effects. cbv zeta.
  repeat first [ apply kept_random_random | apply kept_modify_stages
               | kept_step ].
Qed.

Lemma kept_execute_move player move_name :
  preserves Inv (_execute_move MOVE_DATA TYPE_CHART random_source player move_name)
    (fun _ => True).
Proof.
  unfold _execute_move, active_pokemon. cbv zeta.
  repeat first [ apply kept_random_random | apply kept_random_randint
               | apply kept_calculate_damage | apply kept_apply_move_effects
               | kept_step ].
Qed.

Lemma kept_execute_switch player index :
  preserves Inv (_execute_switch player index) (fun _ => True).
Proof. unfold _execute_switch, active_pokemon. repeat kept_step. Qed.

Lemma kept_execute_item player item index :
  preserves Inv (_execute_item player item index) (fun _ => True).
Proof. unfold _execute_item. repeat kept_step. Qed.

Lemma kept_execute_action player action :
  preserves Inv
    (_execute_action MOVE_DATA TYPE_CHART random_source player action)
    (fun _ => True).
Proof.
  unfold _execute_action. cbv zeta.
  repeat first [ apply kept_execute_move | apply kept_execute_switch
               | apply kept_execute_item | kept_step ].
Qed.

Lemma kept_apply_status_damage pokemon player :
  preserves Inv (_apply_status_damage pokemon player) (fun _ => True).
Proof. unfold _apply_status_damage. cbv zeta. repeat kept_step. Qed.

Lemma kept_apply_end_of_turn_effects :
  preserves Inv _apply_end_of_turn_effects (fun _ => True).
Proof.
  unfold _apply_end_of_turn_effects, active_pokemon.
  repeat first [ apply kept_apply_status_damage | kept_step ].
Qed.

Lemma kept_determine_action_order a1 a2 :
  preserves Inv (_determine_action_order MOVE_DATA random_source a1 a2)
    (fun _ => True).
Proof.
  unfold _determine_action_order, speed_of. cbv zeta.
  repeat first [ apply kept_random_random | kept_step ].
Qed.

(** With the writes of the turn counter, the log and the outcome, a whole
    turn. *)
Hypothesis Inv_modify : forall f,
  (forall self, player1 (f self) = player1 self /\ player2 (f self) = player2 self) ->
  preserves Inv (modify f) (fun _ => True).

Lemma kept_check_battle_end : preserves Inv _check_battle_end (fun _ => True).
Proof. unfold _check_battle_end. repeat kept_step; by apply Inv_modify. Qed.

Lemma kept_run_actions actions :
  preserves Inv (run_actions MOVE_DATA TYPE_CHART random_source actions)
    (fun _ => True).
Proof.
  induction actions as [|[player action] actions IH]; cbn [run_actions].
  - kept_step.
  - repeat first [ apply kept_execute_action | apply kept_check_battle_end
                 | apply IH | kept_step ].
Qed.

Lemma kept_execute_turn a1 a2 :
  preserves Inv (execute_turn MOVE_DATA TYPE_CHART random_source a1 a2)
    (fun _ => True).
Proof.
  unfold execute_turn.
  repeat first [ apply kept_run_actions | apply kept_determine_action_order
               | apply kept_apply_end_of_turn_effects
               | apply kept_check_battle_end | kept_step ];
    by apply Inv_modify.
Qed.

End EngineInduction.

(** *** Relations between the rosters before and after *)

Section Evolved.

Variable MOVE_DATA : gmap string Data.Move.
Variable TYPE_CHART : gmap string (gmap string float).
Variable random_source : nat -> Draw.
Variable R : Pokemon.t -> Pokemon.t -> Prop.

Hypothesis R_take_damage : forall damage p0 p,
  R p0 p -> R p0 (Pokemon.take_damage damage p).2.
Hypothesis R_heal : forall amount p0 p,
  R p0 p -> R p0 (Pokemon.heal amount p).2.
Hypothesis R_apply_status : forall status p0 p,
  R p0 p -> R p0 (Pokemon.apply_status status p).2.
Hypothesis R_modify_stat_stage : forall stat stages p0 p,
  R p0 p -> R p0 (Pokemon.modify_stat_stage stat stages p).2.

Variable self0 : Battle.t.

#[local] Instance evolved_players : PlayersOnly (evolved R self0).
Proof.
  intros self self' H1 H2 H side.
  rewrite (player_same side self self') by done. apply H.
Qed.

Lemma evolved_set_player side pl self :
  evolved R self0 self ->
  Forall2 R (Player.team (player side self0)) (Player.team pl) ->
  Player.name pl = Player.name (player side self) ->
  Player.potions pl <= Player.potions (player side self) ->
  evolved R self0 (set_player side pl self).
Proof.
  intros H Hteam Hname Hpotions side'.
  destruct (H side) as (_ & Hn & Hp), (H side') as (Ht' & Hn' & Hp').
  destruct side, side'; cbn in *; repeat split; try done; try congruence; lia.
Qed.

Lemma Forall2_insert_r_lookup (l0 l : list Pokemon.t) i p p' :
  Forall2 R l0 l -> l !! i = Some p -> (forall p0, R p0 p -> R p0 p') ->
  Forall2 R l0 (<[i := p']> l).
Proof.
  intros Hl Hp Hp'.
  destruct (Forall2_lookup_r _ _ _ _ _ Hl Hp) as (p0 & Hp0 & HR).
  rewrite <- (list_insert_id l0 i p0 Hp0). apply Forall2_insert; auto.
Qed.

Lemma evolved_call {A} r (method : Pokemon.t -> A * Pokemon.t) :
  (forall p0 p, R p0 p -> R p0 (method p).2) ->
  preserves (evolved R self0) (call r method) (fun _ => True).
Proof.
  intros Hm. apply preserves_call. intros self p H Hp. unfold store.
  apply evolved_set_player; [done| |done|done]. cbn.
  eapply Forall2_insert_r_lookup; [apply H|done|]. intros p0. apply Hm.
Qed.

Lemma evolved_switch_pokemon side index :
  preserves (evolved R self0) (on_player side (Player.switch_pokemon index))
    (fun _ => True).
Proof.
  apply preserves_on_player. intros self H.
  apply evolved_set_player; [done|..].
  - rewrite switch_pokemon_team. apply H.
  - unfold Player.switch_pokemon. by repeat case_match.
  - unfold Player.switch_pokemon. by repeat case_match.
Qed.

Lemma evolved_use_potion side index :
  preserves (evolved R self0) (on_player side (Player.use_potion index))
    (fun _ => True).
Proof.
  apply preserves_on_player. intros self H.
  destruct (H side) as (Hteam & _ & _).
  apply evolved_set_player; [done|..]; unfold Player.use_potion;
    repeat case_match; try done; cbn; try lia.
  eapply Forall2_insert_r_lookup; [done| |intros p0; apply R_heal].
  by destruct (Player.in_range _ _).
Qed.

Lemma evolved_execute_turn a1 a2 :
  preserves (evolved R self0)
    (execute_turn MOVE_DATA TYPE_CHART random_source a1 a2) (fun _ => True).
Proof.
  apply kept_execute_turn.
  - apply preserves_log, _.
  - apply preserves_draw, _.
  - intros r damage. apply evolved_call. intros p0 p. apply R_take_damage.
  - intros r amount. apply evolved_call. intros p0 p. apply R_heal.
  - intros r status. apply evolved_call. intros p0 p. apply R_apply_status.
  - intros r stat stages. apply evolved_call. intros p0 p.
    apply R_modify_stat_stage.
  - apply evolved_switch_pokemon.
  - apply evolved_use_potion.
  - intros f Hf. by apply preserves_modify; [apply _|].
Qed.

End Evolved.

Lemma evolved_refl (R : Pokemon.t -> Pokemon.t -> Prop) self :
  (forall side, Forall (fun p => R p p) (Player.team (player side self))) ->
  evolved R self self.
Proof.
  intros HR side. split; [|split; [done|lia]].
  apply Forall_Forall2_diag, HR.
Qed.

Section TurnKeeps.

Variable MOVE_DATA : gmap string Data.Move.
Variable TYPE_CHART : gmap string (gmap string float).
Variable random_source : nat -> Draw.

Local Abbreviation execute_turn := (execute_turn MOVE_DATA TYPE_CHART random_source).

(** X8: A turn, also one that ends with an exception, leaves both rosters with
    the Pokémon they had, slot by slot: none is added, removed or moved, and
    each keeps its species, names, types, level, moves, maximal HP and base
    statistics. The players keep their names and gain no potion. *)
Theorem execute_turn_keeps_make a1 a2 self :
  evolved same_make self (execute_turn a1 a2 self).2.
Proof.
  apply evolved_execute_turn.
  - by intros damage p0 p H.
  - intros amount p0 p H. unfold Pokemon.heal. by case_match.
  - intros status p0 p H. unfold Pokemon.apply_status. by repeat case_match.
  - intros stat stages p0 p H. unfold Pokemon.modify_stat_stage. by case_match.
  - apply evolved_refl. intros side. apply Forall_forall. intros p _.
    by repeat split.
Qed.

(** X9: No Pokémon is revived: one that had fainted before a turn is fainted
    after it, whatever the actions and the random draws. *)
Theorem execute_turn_no_revival a1 a2 self :
  evolved stays_fainted self (execute_turn a1 a2 self).2.
Proof.
  apply evolved_execute_turn.
  - intros damage p0 p H Hp0. specialize (H Hp0).
    unfold Pokemon.take_damage, Pokemon.is_fainted in *. cbn. lia.
  - intros amount p0 p H Hp0. specialize (H Hp0).
    unfold Pokemon.heal. by rewrite H.
  - intros status p0 p H Hp0. specialize (H Hp0).
    unfold Pokemon.apply_status. by repeat case_match.
  - intros stat stages p0 p H Hp0. specialize (H Hp0).
    unfold Pokemon.modify_stat_stage. by case_match.
  - apply evolved_refl. intros side. apply Forall_forall. by intros p _ Hp.
Qed.

(** X10: No status condition is cured or replaced by the engine: a Pokémon that
    had one before a turn has the same one after it. *)
Theorem execute_turn_keeps_status a1 a2 self :
  evolved keeps_status self (execute_turn a1 a2 self).2.
Proof.
  apply evolved_execute_turn.
  - by intros damage p0 p H.
  - intros amount p0 p H. unfold Pokemon.heal. by case_match.
  - intros status p0 p H Hp0. specialize (H Hp0).
    unfold Pokemon.apply_status. rewrite H, Hp0. done.
  - intros stat stages p0 p H. unfold Pokemon.modify_stat_stage. by case_match.
  - apply evolved_refl. intros side. apply Forall_forall. by intros p _ Hp.
Qed.

(** X11: When every stat stage of both rosters lies in [-6, 6] before a turn, so
    does every one after it, and no stage has been added or removed. *)
Theorem execute_turn_stages_in_range a1 a2 self :
  (forall side, Forall stages_in_range (Player.team (player side self))) ->
  evolved stages_kept_in_range self (execute_turn a1 a2 self).2.
Proof.
  intros Hself. apply evolved_execute_turn.
  - by intros damage p0 p H.
  - intros amount p0 p H. unfold Pokemon.heal. by case_match.
  - intros status p0 p H. unfold Pokemon.apply_status. by repeat case_match.
  - intros stat stages p0 p [Hdom Hrange]. unfold Pokemon.modify_stat_stage.
    destruct (Pokemon.stat_stages p !! stat) as [old|] eqn:Hold; [|done].
    split; cbn.
    + rewrite dom_insert_L, <- Hdom. apply subseteq_union_1_L.
      apply singleton_subseteq_l. by apply elem_of_dom.
    + unfold stages_in_range. cbn. apply map_Forall_insert_2; [lia|done].
  - apply evolved_refl. intros side.
    eapply Forall_impl; [apply Hself|]. by intros p Hp.
Qed.

End TurnKeeps.

Lemma execute_turn_stages_in_range_witness :
  let self := Sample.battle [Sample.machamp; Sample.gengar] [Sample.snorlax] in
  evolved stages_kept_in_range self
    (Battle.execute_turn Sample.MOVE_DATA Sample.TYPE_CHART Sample.steady
       (Sample.move "Strength") (Sample.switch 0) self).2.
Proof.
  intros self.
  apply (execute_turn_stages_in_range
           Sample.MOVE_DATA Sample.TYPE_CHART Sample.steady).
  intros side. destruct side; cbn;
    repeat (apply Forall_cons_2;
            [apply map_Forall_to_list; vm_compute;
             repeat (apply Forall_cons_2; [by vm_compute|]); apply Forall_nil_2|]);
    apply Forall_nil_2.
Defined.

(** *** The turn counter and the outcome *)

Section Control.

Context (Inv : Battle.t -> Prop) `{!ControlOnly Inv}.

Lemma control_log msg : preserves Inv (log msg) (fun _ => True).
Proof. intros self H. split; [|done]. by apply (control_only self). Qed.

Lemma control_draw random_source :
  preserves Inv (draw random_source) (fun _ => True).
Proof. intros self H. split; [|done]. by apply (control_only self). Qed.

Lemma control_call {A} r (method : Pokemon.t -> A * Pokemon.t) :
  preserves Inv (call r method) (fun _ => True).
Proof.
  apply preserves_call. intros self p H _.
  apply (control_only self); [..|done]; unfold store; by destruct r.1.
Qed.

Lemma control_on_player {A} side (method : Player.t -> A * Player.t) :
  preserves Inv (on_player side method) (fun _ => True).
Proof.
  apply preserves_on_player. intros self H.
  apply (control_only self); [..|done]; by destruct side.
Qed.

End Control.

Global Instance control_as_control self0 : ControlOnly (control_as self0).
Proof.
  intros self self' H1 H2 H3. unfold control_as. by rewrite H1, H2, H3.
Qed.

Lemma control_execute_action MOVE_DATA TYPE_CHART random_source self0
  player action :
  preserves (control_as self0)
    (_execute_action MOVE_DATA TYPE_CHART random_source player action)
    (fun _ => True).
Proof.
  apply kept_execute_action; intros;
    first [ apply control_log | apply control_draw | apply control_call
          | apply control_on_player ]; apply _.
Qed.

Lemma control_apply_end_of_turn_effects self0 :
  preserves (control_as self0) _apply_end_of_turn_effects (fun _ => True).
Proof.
  apply kept_apply_end_of_turn_effects; intros;
    first [ apply control_log | apply control_call ]; apply _.
Qed.

Lemma control_determine_action_order MOVE_DATA random_source self0 a1 a2 :
  preserves (control_as self0)
    (_determine_action_order MOVE_DATA random_source a1 a2) (fun _ => True).
Proof.
  apply kept_determine_action_order. apply control_draw, _.
Qed.

Lemma check_battle_end_run self : _check_battle_end self = (Ok tt, ended self).
Proof.
  unfold _check_battle_end, ended, outcome, log_if, log, modify, gets.
  unfold mbind, M_bind, mret, M_ret.
  by destruct (Player.has_usable_pokemon (player1 self)),
       (Player.has_usable_pokemon (player2 self)).
Qed.

Lemma ended_players self :
  player1 (ended self) = player1 self /\ player2 (ended self) = player2 self.
Proof. unfold ended. by case_match. Qed.

(** After [_check_battle_end] on a battle that was not over. *)
Lemma ended_control self :
  is_battle_over self = false ->
  current_turn (ended self) = current_turn self
  /\ (is_battle_over (ended self) = true <->
      Player.has_usable_pokemon (player1 (ended self)) = false
      \/ Player.has_usable_pokemon (player2 (ended self)) = false)
  /\ winner (ended self)
     = (if is_battle_over (ended self) then outcome (ended self)
        else winner self).
Proof.
  intros Hover. destruct (ended_players self) as [H1 H2].
  unfold outcome. rewrite H1, H2. unfold ended, outcome.
  destruct (Player.has_usable_pokemon (player1 self)),
    (Player.has_usable_pokemon (player2 self)); cbn; rewrite ?Hover;
    intuition congruence.
Qed.

Lemma run_actions_over MOVE_DATA TYPE_CHART random_source actions self :
  is_battle_over self = true ->
  run_actions MOVE_DATA TYPE_CHART random_source actions self = (Ok tt, self).
Proof.
  intros Hover. destruct actions as [|[player action] rest]; [done|].
  cbn [run_actions]. rewrite bind_run.
  change (gets is_battle_over self) with (Ok (is_battle_over self), self).
  cbv beta iota. by rewrite Hover.
Qed.

(** The loop over the actions of a battle that was not over: when it leaves
    the battle over, a side has no usable Pokémon and the winner is the
    other one. *)
Lemma run_actions_control MOVE_DATA TYPE_CHART random_source actions self :
  is_battle_over self = false ->
  let self' := (run_actions MOVE_DATA TYPE_CHART random_source actions self).2 in
  current_turn self' = current_turn self
  /\ (is_battle_over self' = true ->
      (Player.has_usable_pokemon (player1 self') = false
       \/ Player.has_usable_pokemon (player2 self') = false)
      /\ winner self' = outcome self')
  /\ (is_battle_over self' = false -> winner self' = winner self).
Proof.
  revert self. induction actions as [|[player action] rest IH];
    intros self Hover; cbn [run_actions].
  - cbn. rewrite Hover. by repeat split.
  - rewrite bind_run.
    change (gets is_battle_over self) with (Ok (is_battle_over self), self).
    cbv beta iota. rewrite Hover, bind_run.
    destruct (control_execute_action MOVE_DATA TYPE_CHART random_source
                self player action self) as [(Ht & Ho & Hw) _]; [done|].
    destruct (_execute_action _ _ _ player action self) as [[[]|e] self1];
      cbn [snd] in *.
    + rewrite bind_run, check_battle_end_run. cbv beta iota.
      rewrite Hover in Ho.
      destruct (ended_control self1 Ho) as (Ht' & Ho' & Hw').
      destruct (is_battle_over (ended self1)) eqn:He.
      * rewrite run_actions_over by done. cbn [snd]. rewrite He.
        repeat split; [congruence|by apply Ho'|done|done].
      * destruct (IH (ended self1) He) as (Ht'' & Ho'' & Hw'').
        repeat split; [congruence|by apply Ho''|by apply Ho''|].
        intros Hover'. rewrite Hw'' by done. congruence.
    + rewrite Ho, Hover. repeat split; [done|done|done|by intros _].
Qed.

Section TurnControl.

Variable MOVE_DATA : gmap string Data.Move.
Variable TYPE_CHART : gmap string (gmap string float).
Variable random_source : nat -> Draw.

Local Abbreviation execute_turn := (execute_turn MOVE_DATA TYPE_CHART random_source).

(** X12: A turn played on a battle that is not over and that returns: the turn
    counter has advanced by one; the battle is over exactly when a side has
    no usable Pokémon left; the winner of a battle that is over is the side
    that still has one, [None] when neither has, and the winner field is
    untouched otherwise; the list returned is the log of the battle. *)
Theorem execute_turn_outcome a1 a2 self log self' :
  is_battle_over self = false ->
  execute_turn a1 a2 self = (Ok log, self') ->
  current_turn self' = current_turn self + 1
  /\ (is_battle_over self' = true <->
      Player.has_usable_pokemon (player1 self') = false
      \/ Player.has_usable_pokemon (player2 self') = false)
  /\ winner self' = (if is_battle_over self' then outcome self' else winner self)
  /\ log = battle_log self'.
Proof.
  intros Hover. unfold Battle.execute_turn.
  rewrite bind_run. unfold modify at 1. cbv beta iota.
  rewrite bind_run. unfold modify at 1. cbv beta iota.
  set (self1 := set_battle_log [] _).
  assert (control_as self1 self1) as Hc1 by done.
  rewrite bind_run.
  destruct (control_determine_action_order MOVE_DATA random_source
              self1 a1 a2 self1 Hc1) as [(Ht2 & Ho2 & Hw2) _].
  destruct (_determine_action_order _ _ a1 a2 self1) as [[actions|e] self2];
    [|done].
  cbn [snd] in *. rewrite bind_run.
  assert (is_battle_over self2 = false) as Hover2 by (by rewrite Ho2).
  destruct (run_actions_control MOVE_DATA TYPE_CHART random_source
              actions self2 Hover2) as (Ht3 & Ho3 & Hw3).
  destruct (run_actions _ _ _ actions self2) as [[[]|e] self3]; [|done].
  cbn [snd] in *. rewrite bind_run.
  change (gets is_battle_over self3) with (Ok (is_battle_over self3), self3).
  cbv beta iota. rewrite bind_run.
  destruct (is_battle_over self3) eqn:Hover3; cbn [negb when].
  - rewrite ret_run. intros [= <- <-]. rewrite Hover3.
    destruct (Ho3 eq_refl) as [Hu Hw].
    split; [by rewrite Ht3, Ht2|]. split; [by split|]. by split.
  - rewrite bind_run.
    assert (control_as self3 self3) as Hc3 by done.
    destruct (control_apply_end_of_turn_effects self3 self3 Hc3)
      as [(Ht4 & Ho4 & Hw4) _].
    destruct (_apply_end_of_turn_effects self3) as [[[]|e] self4]; [|done].
    cbn [snd] in *. rewrite check_battle_end_run.
    intros [= <- <-].
    rewrite Hover3 in Ho4.
    destruct (ended_control self4 Ho4) as (Ht5 & Ho5 & Hw5).
    split; [by rewrite Ht5, Ht4, Ht3, Ht2|]. split; [done|]. split; [|done].
    rewrite Hw5. destruct (is_battle_over (ended self4)); [done|].
    rewrite Hw4, Hw3 by done. by rewrite Hw2.
Qed.

(** X13: A turn submitted to a battle that is over executes no action and no
    end-of-turn effect: both players, the outcome and the winner are as
    they were; the turn counter still advances and the log is emptied. *)
Theorem execute_turn_after_end a1 a2 self :
  is_battle_over self = true ->
  let self' := (execute_turn a1 a2 self).2 in
  player1 self' = player1 self /\ player2 self' = player2 self
  /\ is_battle_over self' = true /\ winner self' = winner self
  /\ current_turn self' = current_turn self + 1
  /\ battle_log self' = [].
Proof.
  intros Hover self'.
  assert (exists n,
            self' = set_drawn n
                      (set_battle_log []
                         (set_current_turn (current_turn self + 1) self)))
    as [n ->]; [|done].
  subst self'. unfold Battle.execute_turn.
  rewrite bind_run. unfold modify at 1. cbv beta iota.
  rewrite bind_run. unfold modify at 1. cbv beta iota.
  set (self1 := set_battle_log [] _).
  rewrite bind_run.
  assert (exists n, (_determine_action_order MOVE_DATA random_source a1 a2 self1).2
                    = set_drawn n self1) as [n Hn].
  { unfold _determine_action_order, speed_of, random_random, draw, gets, lift.
    unfold mbind, M_bind, mret, M_ret. cbv zeta.
    assert (self1 = set_drawn (drawn self1) self1) as Hid by reflexivity.
    repeat case_match; simplify_eq; cbn [snd]; eauto. }
  exists n.
  destruct (_determine_action_order _ _ a1 a2 self1) as [[actions|e] self2];
    cbn [snd] in Hn; subst self2; [|done].
  rewrite bind_run, run_actions_over by done. cbv beta iota.
  rewrite bind_run.
  change (gets is_battle_over (set_drawn n self1))
    with (Ok (is_battle_over (set_drawn n self1)), set_drawn n self1).
  cbv beta iota.
  replace (is_battle_over (set_drawn n self1)) with true by done.
  cbn [negb when]. by rewrite bind_run, ret_run.
Qed.

End TurnControl.

Lemma execute_turn_outcome_witness :
  let self :=
    Sample.battle [Sample.machamp]
      [Sample.pokemon "Snorlax" ["Normal"] ["Tackle"] 200 10 100 100] in
  let self' :=
    (Battle.execute_turn Sample.MOVE_DATA Sample.TYPE_CHART Sample.steady
       (Sample.move "Strength") (Sample.move "Tackle") self).2 in
  is_battle_over self = false
  /\ current_turn self' = current_turn self + 1
  /\ (is_battle_over self' = true <->
      Player.has_usable_pokemon (player1 self') = false
      \/ Player.has_usable_pokemon (player2 self') = false)
  /\ winner self' = (if is_battle_over self' then outcome self' else winner self)
  /\ battle_log self' = battle_log self'.
Proof.
  intros self self'. split; [reflexivity|].
  apply (execute_turn_outcome Sample.MOVE_DATA Sample.TYPE_CHART Sample.steady
           (Sample.move "Strength") (Sample.move "Tackle") self);
    [reflexivity | vm_compute; reflexivity].
Defined.

Lemma execute_turn_after_end_witness :
  let self :=
    set_over (Some Player1) (Sample.battle [Sample.machamp] [Sample.snorlax]) in
  let self' :=
    (Battle.execute_turn Sample.MOVE_DATA Sample.TYPE_CHART Sample.steady
       (Sample.move "Strength") (Sample.move "Tackle") self).2 in
  is_battle_over self = true
  /\ player1 self' = player1 self /\ player2 self' = player2 self
  /\ is_battle_over self' = true /\ winner self' = winner self
  /\ current_turn self' = current_turn self + 1
  /\ battle_log self' = [].
Proof.
  intros self self'. split; [reflexivity|].
  apply (execute_turn_after_end Sample.MOVE_DATA Sample.TYPE_CHART Sample.steady
           (Sample.move "Strength") (Sample.move "Tackle") self).
  reflexivity.
Defined.

(** ** battle.py: the guards of a move and the order of the actions *)

Section MoveGuards.

Variable MOVE_DATA : gmap string Data.Move.
Variable TYPE_CHART : gmap string (gmap string float).
Variable random_source : nat -> Draw.

Local Abbreviation execute_move := (_execute_move MOVE_DATA TYPE_CHART random_source).
Local Abbreviation determine_action_order :=
  (_determine_action_order MOVE_DATA random_source).

Lemma can_fight_lookup pl :
  can_fight pl
  = match Player.team pl !! Player.active_pokemon_index pl with
    | Some p => negb (Pokemon.is_fainted p)
    | None => false
    end.
Proof. unfold can_fight. by rewrite active_pokemon_lookup. Qed.

(** X14: A move by a side that cannot fight, or against one that cannot, does
    nothing at all: no Pokémon changes, nothing is logged and no random
    number is drawn. *)
Theorem execute_move_cannot_fight player move_name self :
  can_fight (Battle.player player self) = false
  \/ can_fight (Battle.player (other player) self) = false ->
  execute_move player move_name self = (Ok tt, self).
Proof.
  rewrite !can_fight_lookup. intros H. unfold Battle._execute_move.
  rewrite bind_run, active_pokemon_run. cbv beta iota.
  destruct (Player.team (Battle.player player self) !! _) as [a|] eqn:Ha;
    [|done].
  rewrite bind_run, (deref_run _ a) by done. cbv beta iota.
  destruct (Pokemon.is_fainted a); [done|].
  rewrite bind_run, active_pokemon_run. cbv beta iota zeta.
  destruct (Player.team (Battle.player (other player) self) !! _)
    as [d|] eqn:Hd; [|done].
  rewrite bind_run, (deref_run _ d) by done. cbv beta iota.
  destruct (Pokemon.is_fainted d); [done|]. by destruct H.
Qed.



Lemma speed_of_run side self :
  speed_of side self = (speed_value (player side self), self).
Proof.
  unfold speed_of, speed_value. rewrite bind_run. unfold gets. cbv beta iota.
  by destruct (Player.active_pokemon (player side self)).
Qed.

(** X17: The order of two actions of the same kind, and of a switch against an
    item. Of two moves with different priorities the one with the higher
    priority goes first, whatever the speeds. Otherwise, for two actions of
    one kind, the side whose active Pokémon has the higher modified speed
    goes first, and on equal speeds one random number decides: player 1
    goes first when it is below 0.5. A switch and an item of the two sides
    are run player 1 first, whatever the speeds. *)
Theorem action_order_priority_speed a1 a2 self s1 s2 :
  let first1 := [(Player1, a1); (Player2, a2)] in
  let first2 := [(Player2, a2); (Player1, a1)] in
  let p1 := move_priority MOVE_DATA a1 in
  let p2 := move_priority MOVE_DATA a2 in
  let is_move a := act_type a = Some "move" in
  let is_switch_or_item a :=
    act_type a = Some "switch" \/ act_type a = Some "item" in
  let coin := ltb (Float (random (random_source (drawn self)))) (Float 0.5) in
  (is_move a1 -> is_move a2 -> p2 < p1 ->
     determine_action_order a1 a2 self = (Ok first1, self))
  /\ (is_move a1 -> is_move a2 -> p1 < p2 ->
        determine_action_order a1 a2 self = (Ok first2, self))
  /\ (act_type a1 = act_type a2 -> act_type a1 <> Some "pass" ->
        (is_move a1 -> p1 = p2) ->
        speed_value (player1 self) = Ok (Int s1) ->
        speed_value (player2 self) = Ok (Int s2) ->
        determine_action_order a1 a2 self
        = if s2 <? s1 then (Ok first1, self)
          else if s1 <? s2 then (Ok first2, self)
          else (Ok (if coin then first1 else first2),
                set_drawn (S (drawn self)) self))
  /\ (is_switch_or_item a1 -> is_switch_or_item a2 ->
        act_type a1 <> act_type a2 ->
        determine_action_order a1 a2 self = (Ok first1, self)).
Proof.
  intros first1 first2 p1 p2 is_move is_switch_or_item coin.
  unfold is_move, is_switch_or_item, Battle._determine_action_order.
  cbv zeta. fold p1 p2 first1 first2.
  split_and!.
  - intros H1 H2 Hp. rewrite H1, H2.
    rewrite (bool_decide_false (Some "move" = Some "pass")) by done.
    rewrite (bool_decide_false (Some "move" ∈ _)) by (by rewrite !elem_of_cons, elem_of_nil; intros [|[|[]]]).
    rewrite !bool_decide_true by done. cbn [andb negb].
    replace (p1 =? p2) with false by lia. replace (p2 <? p1) with true by lia.
    done.
  - intros H1 H2 Hp. rewrite H1, H2.
    rewrite (bool_decide_false (Some "move" = Some "pass")) by done.
    rewrite (bool_decide_false (Some "move" ∈ _)) by (by rewrite !elem_of_cons, elem_of_nil; intros [|[|[]]]).
    rewrite !bool_decide_true by done. cbn [andb negb].
    replace (p1 =? p2) with false by lia. replace (p2 <? p1) with false by lia.
    done.
  - intros Heq Hpass Hp Hs1 Hs2. rewrite <- Heq.
    rewrite (bool_decide_false _ Hpass).
    assert (bool_decide (act_type a1 ∈ [Some "switch"; Some "item"])
            && bool_decide (act_type a1 = Some "move") = false) as ->.
    { repeat case_bool_decide; try done.
      exfalso. match goal with H : _ ∈ _, H' : _ = _ |- _ => rewrite H' in H; revert H end.
      rewrite !elem_of_cons, elem_of_nil. by intros [|[|[]]]. }
    rewrite (bool_decide_true (act_type a1 = act_type a1)) by done.
    assert (bool_decide (act_type a1 = Some "move") && negb (p1 =? p2) = false)
      as ->.
    { case_bool_decide; [|done]. rewrite Hp by done. by rewrite Z.eqb_refl. }
    rewrite bind_run, (speed_of_run Player1). cbn [player]. rewrite Hs1.
    cbv beta iota.
    rewrite bind_run, (speed_of_run Player2). cbn [player]. rewrite Hs2.
    cbv beta iota. unfold gtb. cbn [ltb].
    destruct (s2 <? s1); [done|]. destruct (s1 <? s2); [done|].
    unfold random_random, draw. rewrite !bind_run. cbv beta iota.
    rewrite ret_run. cbv beta iota. fold coin. by destruct coin.
  - intros H1 H2 Hne.
    rewrite (bool_decide_false (act_type a1 = Some "pass")) by (by destruct H1 as [-> | ->]).
    rewrite (bool_decide_false (act_type a2 = Some "pass")) by (by destruct H2 as [-> | ->]).
    rewrite (bool_decide_false (act_type a2 = Some "move")) by (by destruct H2 as [-> | ->]).
    rewrite (bool_decide_false (act_type a1 = Some "move")) by (by destruct H1 as [-> | ->]).
    rewrite !andb_false_r. by rewrite (bool_decide_false _ Hne).
Qed.

End MoveGuards.

Lemma execute_move_cannot_fight_witness :
  let fainted := Sample.pokemon "Machamp" ["Fighting"] ["Strength"] 150 0 100 100 in
  let self := Sample.battle [fainted; Sample.gengar] [Sample.snorlax] in
  (can_fight (player Player1 self) = false
   \/ can_fight (player (other Player1) self) = false)
  /\ _execute_move Sample.MOVE_DATA Sample.TYPE_CHART Sample.steady
       Player1 "Strength" self = (Ok tt, self)
  /\ _execute_move Sample.MOVE_DATA Sample.TYPE_CHART Sample.steady
       Player2 "Strength" self = (Ok tt, self).
Proof.
  intros fainted self.
  assert (can_fight (player Player1 self) = false) as H by reflexivity.
  split; [by left|]. split.
  - apply (execute_move_cannot_fight Sample.MOVE_DATA Sample.TYPE_CHART
             Sample.steady Player1 "Strength" self). by left.
  - apply (execute_move_cannot_fight Sample.MOVE_DATA Sample.TYPE_CHART
             Sample.steady Player2 "Strength" self). by right.
Defined.



Lemma action_order_priority_speed_witness :
  let quick :=
    Sample.damaging "Normal" "Physical" 40
      (Some (Data.mk_effect None None None None None None None None None
               (Some 1))) in
  let table := <["Quick Attack" := quick]> Sample.MOVE_DATA in
  let self := Sample.battle [Sample.snorlax] [Sample.machamp] in
  let order := _determine_action_order table Sample.steady in
  order (Sample.move "Tackle") (Sample.move "Quick Attack") self
  = (Ok [(Player2, Sample.move "Quick Attack"); (Player1, Sample.move "Tackle")],
     self)
  /\ order (Sample.move "Tackle") (Sample.move "Tackle") self
     = (Ok [(Player2, Sample.move "Tackle"); (Player1, Sample.move "Tackle")],
        set_drawn 1 self)
  /\ order (Sample.potion 0) (Sample.switch 0) self
     = (Ok [(Player1, Sample.potion 0); (Player2, Sample.switch 0)], self).
Proof.
  intros quick table self order.
  pose proof (action_order_priority_speed table Sample.steady
                (Sample.move "Tackle") (Sample.move "Quick Attack") self 0 0)
    as (_ & H1 & _).
  pose proof (action_order_priority_speed table Sample.steady
                (Sample.move "Tackle") (Sample.move "Tackle") self 100 100)
    as (_ & _ & H2 & _).
  pose proof (action_order_priority_speed table Sample.steady
                (Sample.potion 0) (Sample.switch 0) self 0 0)
    as (_ & _ & _ & H3).
  cbv zeta in H1, H2, H3. split; [|split].
  - apply H1; [reflexivity|reflexivity|by vm_compute].
  - apply H2; [reflexivity|discriminate|by vm_compute|by vm_compute|by vm_compute].
  - apply H3; [by right|by left|discriminate].
Defined.

(** ** battle.py: the active Pokémon *)

Section ActiveProps.

Variable MOVE_DATA : gmap string Data.Move.
Variable TYPE_CHART : gmap string (gmap string float).
Variable random_source : nat -> Draw.

#[local] Instance active_in_roster_players : PlayersOnly active_in_roster.
Proof.
  intros self self' H1 H2 H side.
  rewrite (player_same side self self') by done. apply H.
Qed.

Lemma active_in_roster_set_player side pl self :
  active_in_roster self ->
  (Player.active_pokemon_index pl < length (Player.team pl))%nat ->
  active_in_roster (set_player side pl self).
Proof.
  intros H Hpl side'. specialize (H side'). by destruct side, side'.
Qed.

Lemma active_in_roster_call {A} r (method : Pokemon.t -> A * Pokemon.t) :
  preserves active_in_roster (call r method) (fun _ => True).
Proof.
  apply preserves_call. intros self p H _. unfold store.
  apply active_in_roster_set_player; [done|]. cbn.
  rewrite length_insert. apply H.
Qed.

(** X27: Both players always have an active Pokémon: when the two active
    indices name a slot of their roster before a turn, they do after it,
    also when the turn ends with an exception. *)
Theorem execute_turn_keeps_active a1 a2 self :
  active_in_roster self ->
  active_in_roster
    (execute_turn MOVE_DATA TYPE_CHART random_source a1 a2 self).2
  /\ forall side,
       is_Some
         (Player.active_pokemon
            (player side
               (execute_turn MOVE_DATA TYPE_CHART random_source a1 a2 self).2)).
Proof.
  intros Hself.
  assert (active_in_roster
            (execute_turn MOVE_DATA TYPE_CHART random_source a1 a2 self).2)
    as Hturn.
  { apply kept_execute_turn; [..|done].
    - apply preserves_log, _.
    - apply preserves_draw, _.
    - intros. apply active_in_roster_call.
    - intros. apply active_in_roster_call.
    - intros. apply active_in_roster_call.
    - intros. apply active_in_roster_call.
    - intros side index. apply preserves_on_player. intros s H.
      apply active_in_roster_set_player; [done|]. specialize (H side).
      unfold Player.switch_pokemon, Player.in_range.
      destruct (0 <=? index) eqn:H0, (index <? _) eqn:H1; cbn [andb]; try done.
      repeat case_match; cbn; try done. lia.
    - intros side index. apply preserves_on_player. intros s H.
      apply active_in_roster_set_player; [done|]. specialize (H side).
      unfold Player.use_potion. repeat case_match; cbn; try done.
      by rewrite length_insert.
    - intros f Hf. by apply preserves_modify; [apply _|]. }
  split; [done|]. intros side. rewrite active_pokemon_lookup.
  apply lookup_lt_is_Some_2, Hturn.
Qed.

End ActiveProps.

Lemma execute_turn_keeps_active_witness :
  let self := Sample.battle [Sample.machamp; Sample.gengar] [Sample.snorlax] in
  let self' :=
    (execute_turn Sample.MOVE_DATA Sample.TYPE_CHART Sample.steady
       (Sample.switch 1) (Sample.move "Tackle") self).2 in
  active_in_roster self
  /\ active_in_roster self'
  /\ is_Some (Player.active_pokemon (player1 self'))
  /\ is_Some (Player.active_pokemon (player2 self')).
Proof.
  intros self self'.
  assert (active_in_roster self) as Hself by (intros []; cbn; lia).
  destruct (execute_turn_keeps_active Sample.MOVE_DATA Sample.TYPE_CHART
              Sample.steady (Sample.switch 1) (Sample.move "Tackle") self Hself)
    as [Hturn Hactive].
  split; [done|]. split; [done|].
  split; [apply (Hactive Player1)|apply (Hactive Player2)].
Defined.

(** ** battle.py: the end-of-turn effects *)

Lemma set_battle_log_same self : set_battle_log (battle_log self) self = self.
Proof. by destruct self. Qed.

Lemma apply_status_damage_run side self p :
  Player.active_pokemon (player side self) = Some p ->
  Pokemon.is_fainted p = false ->
  exists lines,
    _apply_status_damage (side, Player.active_pokemon_index (player side self))
      side self
    = (Ok tt,
       set_battle_log (battle_log self ++ lines)
         (set_player side (after_status_damage (player side self)) self)).
Proof.
  intros Ha Hfainted. unfold after_status_damage. rewrite Ha, Hfainted.
  rewrite active_pokemon_lookup in Ha.
  unfold _apply_status_damage, status_damage. cbv zeta.
  rewrite bind_run, (deref_run _ p) by done. cbv beta iota.
  rewrite bind_run. unfold gets at 1. cbv beta iota.
  assert (forall divisor what,
    exists lines,
      (actual_damage ← call (side, Player.active_pokemon_index (player side self))
                          (Pokemon.take_damage (Z.max 1 (Pokemon.max_hp p / divisor)));
       log (Pokemon.nickname p +:+ " was hurt by " +:+ what +:+ "! ("
            +:+ pretty actual_damage +:+ " damage)");;
       p' ← deref (side, Player.active_pokemon_index (player side self));
       when (Pokemon.is_fainted p')
         (log (Player.name (player side self) +:+ "'s " +:+ Pokemon.nickname p
               +:+ " fainted!"))) self
      = (Ok tt,
         set_battle_log (battle_log self ++ lines)
           (set_player side
              (Player.set_team
                 (<[Player.active_pokemon_index (player side self) :=
                      Pokemon.set_current_hp
                        (Z.max 0 (Pokemon.current_hp p
                                  - Z.max 1 (Pokemon.max_hp p / divisor))) p]>
                    (Player.team (player side self)))
                 (player side self)) self))) as Htick.
  { intros divisor what.
    rewrite bind_run, (call_run _ _ p) by done. cbv beta iota.
    unfold Pokemon.take_damage. cbn [fst snd].
    rewrite (Z.max_r 1 (Z.max 1 _)) by lia.
    rewrite bind_run. unfold log at 1, modify. cbv beta iota.
    rewrite bind_run.
    erewrite deref_run; cycle 1.
    { cbn [fst snd]. rewrite player_set_battle_log. unfold store. cbn [fst snd].
      rewrite player_set_player. cbn. apply list_lookup_insert_eq.
      by eapply lookup_lt_Some. }
    cbv beta iota. rewrite when_log_run. unfold store. cbn [fst snd].
    match goal with |- context [log_if ?b _ _] => destruct b end;
      destruct side; eexists; cbn; rewrite <- ?(assoc_L (++)); reflexivity. }
  case_bool_decide.
  - cbn [orb]. replace (Z.max 1 (Pokemon.max_hp p / 16) =? 0) with false by lia.
    apply Htick.
  - case_bool_decide.
    + cbn [orb]. replace (Z.max 1 (Pokemon.max_hp p / 8) =? 0) with false by lia.
      apply Htick.
    + cbn. exists []. rewrite app_nil_r, set_player_same.
      by rewrite set_battle_log_same.
Qed.

Lemma end_of_turn_side_run side self :
  exists lines,
    (active ← active_pokemon side;
     match active with
     | Some pokemon =>
         p ← deref pokemon;
         when (negb (Pokemon.is_fainted p)) (_apply_status_damage pokemon side)
     | None => mret tt
     end) self
    = (Ok tt,
       set_battle_log (battle_log self ++ lines)
         (set_player side (after_status_damage (player side self)) self)).
Proof.
  assert (set_battle_log (battle_log self ++ [])
            (set_player side (player side self) self) = self) as Hsame.
  { by rewrite app_nil_r, set_player_same, set_battle_log_same. }
  rewrite bind_run, active_pokemon_run. cbv beta iota.
  destruct (Player.team (player side self) !! _) as [p|] eqn:Hp.
  - rewrite bind_run, (deref_run _ p) by done. cbv beta iota.
    rewrite <- active_pokemon_lookup in Hp.
    destruct (Pokemon.is_fainted p) eqn:Hfainted; cbn [negb when].
    + exists []. unfold after_status_damage. rewrite Hp, Hfainted. cbn [orb].
      by rewrite Hsame.
    + by apply (apply_status_damage_run side self p).
  - exists []. unfold after_status_damage.
    by rewrite active_pokemon_lookup, Hp, Hsame.
Qed.

(** X18: The end-of-turn effects never raise and draw no random number. They
    change one thing in each roster: the active Pokémon, unless it has
    fainted, loses [max(1, max_hp // 16)] HP when burned and
    [max(1, max_hp // 8)] HP when poisoned, down to 0 at most. The other
    status conditions cost nothing, and the turn counter and the outcome
    are untouched. *)
Theorem apply_end_of_turn_effects_result self :
  exists lines,
    _apply_end_of_turn_effects self
    = (Ok tt,
       mk (after_status_damage (player1 self))
          (after_status_damage (player2 self))
          (current_turn self) (is_battle_over self) (winner self)
          (battle_log self ++ lines) (drawn self)).
Proof.
  unfold _apply_end_of_turn_effects. cbn [for_each].
  destruct (end_of_turn_side_run Player1 self) as [lines1 H1].
  rewrite bind_run, H1. cbv beta iota.
  set (self1 := set_battle_log _ _).
  destruct (end_of_turn_side_run Player2 self1) as [lines2 H2].
  rewrite bind_run, H2. cbv beta iota. rewrite ret_run.
  exists (lines1 ++ lines2)%list. by rewrite (assoc_L (++)).
Qed.

(** ** pokemon.py, player.py, network.py: building a team *)

Section Construction.

Variable POKEMON_DATA : gmap Z Species.t.

Lemma SF2Prim_not_negative x :
  signed false x -> not_negative (Prim2SF (SF2Prim x)).
Proof.
  destruct x as [[]|[]| |s m e]; try exact (fun _ => Logic.I).
  cbn. intros ->. unfold SF2Prim, Z.ldexp.
  rewrite ldshiftexp_spec, of_uint63_spec.
  apply signed_not_negative, SFldexp_signed, binary_normalize_signed.
  apply Uint63.to_Z_bounded.
Qed.

(** A non-negative integer divided by a positive one and truncated is not
    negative. *)
Lemma truediv_int_nonneg a b z :
  0 <= a -> 0 < b ->
  rbind (truediv (Int a) (Int b)) int = Ok z -> 0 <= z.
Proof.
  intros Ha Hb. unfold truediv. cbn [is_zero].
  replace (b =? 0) with false by lia.
  destruct (is_infinity _); [done|]. cbn [rbind int].
  apply trunc_not_negative, SF2Prim_not_negative.
  unfold SF64div, SFdiv. destruct a as [|a|a], b as [|b|b]; try lia; cbn [exact].
  - done.
  - destruct (SFdiv_core_binary _ _ _ _ _ _) as [[mz ez] lz].
    apply binary_round_aux_signed.
Qed.

Lemma calculate_hp_bound level base_hp z :
  0 <= level -> 0 <= base_hp ->
  Pokemon._calculate_hp level base_hp = Ok z -> level + 10 <= z.
Proof.
  intros Hlevel Hbase. unfold Pokemon._calculate_hp.
  destruct (truediv _ _) as [q|] eqn:Hq; [|done]. cbn [rbind].
  destruct (int q) as [z'|] eqn:Hz; [|done]. cbn [rbind]. intros [= <-].
  assert (0 <= z'); [|lia].
  apply (truediv_int_nonneg (2 * base_hp * level) 100); [lia|lia|].
  by rewrite Hq.
Qed.

(** X19: The constructor of a Pokémon raises [ValueError] for an identifier
    that the table does not have. A Pokémon it returns is at full HP, has
    no status condition, has its seven stat stages at 0 and knows the first
    four moves of its species at most; when its level and the base HP of
    its species are not negative it has at least [level + 10] HP, so that
    it has not fainted. *)
Theorem pokemon_init_fresh pokemon_id level nickname :
  (POKEMON_DATA !! pokemon_id = None ->
   Pokemon.__init__ POKEMON_DATA pokemon_id level nickname = Raise ValueError)
  /\ forall p,
       Pokemon.__init__ POKEMON_DATA pokemon_id level nickname = Ok p ->
       exists data,
         POKEMON_DATA !! pokemon_id = Some data
         /\ Pokemon.moves p = take 4 (Species.moves data)
         /\ (length (Pokemon.moves p) <= 4)%nat
         /\ Pokemon.current_hp p = Pokemon.max_hp p
         /\ Pokemon.status p = None
         /\ Pokemon.stat_stages p = Pokemon.initial_stat_stages
         /\ stages_in_range p
         /\ (0 <= level -> 0 <= Species.hp (Species.base_stats data) ->
             level + 10 <= Pokemon.max_hp p
             /\ hp_in_bounds p /\ Pokemon.is_fainted p = false).
Proof.
  unfold Pokemon.__init__. split; [by intros ->|]. intros p.
  destruct (POKEMON_DATA !! pokemon_id) as [data|]; [|done]. cbv zeta.
  destruct (Pokemon._calculate_hp _ _) as [max_hp|] eqn:Hhp; [|done].
  cbn [rbind].
  repeat (destruct (Pokemon._calculate_stat _ _); [|done]; cbn [rbind]).
  intros [= <-]. exists data. cbn.
  split_and!; try done.
  - rewrite length_take. lia.
  - unfold stages_in_range. cbn. apply map_Forall_to_list. vm_compute.
    repeat (apply Forall_cons_2; [by vm_compute|]). apply Forall_nil_2.
  - intros Hlevel Hbase.
    pose proof (calculate_hp_bound _ _ _ Hlevel Hbase Hhp).
    unfold hp_in_bounds, Pokemon.is_fainted. cbn. split_and!; lia.
Qed.

Lemma omap_length {A B} (f : A -> option B) (l : list A) :
  (length (omap f l) <= length l)%nat.
Proof.
  induction l as [|x l IH]; [done|].
  change (omap f (x :: l))
    with (match f x with Some y => y :: omap f l | None => omap f l end).
  destruct (f x); cbn [length]; lia.
Qed.

Lemma create_team_foldl player (l : list PokemonServer.TeamEntry) :
  foldl (PokemonServer.create_pokemon POKEMON_DATA) player l
  = Player.set_team
      (Player.team player
       ++ take (6 - length (Player.team player)) (omap (built POKEMON_DATA) l))
      player.
Proof.
  revert player. induction l as [|d l IH]; intros player.
  - cbn. rewrite take_nil, app_nil_r. by destruct player.
  - cbn [foldl]. rewrite IH. change (omap ?f (d :: l))
      with (match f d with Some p => p :: omap f l | None => omap f l end).
    assert (PokemonServer.create_pokemon POKEMON_DATA player d
            = match built POKEMON_DATA d with
              | Some p => (Player.add_pokemon p player).2
              | None => player
              end) as ->.
    { unfold PokemonServer.create_pokemon, built. cbv zeta.
      by destruct (Pokemon.__init__ _ _ _ _). }
    destruct (built POKEMON_DATA d) as [p|]; [|done].
    unfold Player.add_pokemon.
    destruct (length (Player.team player) <? 6)%nat eqn:Hlen; cbn [snd].
    + apply Nat.ltb_lt in Hlen. cbn. rewrite length_app. cbn [length].
      replace (6 - length (Player.team player))%nat
        with (S (6 - (length (Player.team player) + 1)))%nat by lia.
      cbn [take]. by rewrite <- (assoc_L (++)).
    + apply Nat.ltb_ge in Hlen.
      replace (6 - length (Player.team player))%nat with 0%nat by lia.
      done.
Qed.

(** X20: The team a client asks for: the entries after the sixth are ignored,
    an entry whose Pokémon cannot be built is skipped without an error, and
    the Pokémon built from the others join the roster in order, as far as
    the roster has room up to six. A new player gets exactly the Pokémon
    built from the first six entries, possibly none. *)
Theorem create_team_from_data_result player team_data :
  let player' :=
    PokemonServer._create_team_from_data POKEMON_DATA player team_data in
  let pokemon := omap (built POKEMON_DATA) (take 6 team_data) in
  player'
  = Player.set_team
      (Player.team player ++ take (6 - length (Player.team player)) pokemon)
      player
  /\ (length (Player.team player) <= 6 -> length (Player.team player') <= 6)%nat
  /\ (Player.team player = [] -> Player.team player' = pokemon)
  /\ (forall name,
        PokemonServer._create_team_from_data POKEMON_DATA
          (Player.__init__ name) team_data
        = Player.mk name pokemon 0 3).
Proof.
  intros player' pokemon. subst player'.
  unfold PokemonServer._create_team_from_data. rewrite !create_team_foldl.
  fold pokemon. cbn [Player.team Player.set_team].
  assert (length pokemon <= 6)%nat as Hlen.
  { unfold pokemon. etrans; [apply omap_length|]. rewrite length_take. lia. }
  split_and!; [done| | |].
  - intros H. rewrite length_app, length_take. lia.
  - intros ->. cbn. by rewrite take_ge.
  - intros name. rewrite create_team_foldl. fold pokemon.
    unfold Player.__init__, Player.set_team. cbn. by rewrite take_ge.
Qed.

End Construction.

Lemma pokemon_init_fresh_witness :
  let table : gmap Z Species.t :=
    <[1 := Species.mk "Snivy" ["Grass"]
             ["Tackle"; "Vine Whip"; "Leer"; "Wrap"; "Growth"]
             (Species.mk_base_stats 45 45 55 45 55 63)]> ∅ in
  let snivy :=
    Pokemon.mk 1 "Snivy" "Snivy" ["Grass"] 50
      ["Tackle"; "Vine Whip"; "Leer"; "Wrap"] 105 105 50 60 50 60 68
      Pokemon.initial_stat_stages None in
  Pokemon.__init__ table 2 50 None = Raise ValueError
  /\ Pokemon.__init__ table 1 50 None = Ok snivy
  /\ hp_in_bounds snivy
  /\ Pokemon.is_fainted snivy = false.
Proof.
  intros table snivy.
  destruct (pokemon_init_fresh table 2 50 None) as [Hnone _].
  destruct (pokemon_init_fresh table 1 50 None) as [_ Hsome].
  assert (Pokemon.__init__ table 1 50 None = Ok snivy) as Hinit
    by (vm_compute; reflexivity).
  split; [by apply Hnone|]. split; [exact Hinit|].
  destruct (Hsome snivy Hinit)
    as (data & Hdata & _ & _ & _ & _ & _ & _ & Hhp).
  unfold table in Hdata. rewrite lookup_insert_eq in Hdata.
  injection Hdata as <-.
  apply Hhp; [lia|cbn; lia].
Defined.

(** ** network.py: the framing of the messages *)

Section FramingProps.

Local Open Scope list_scope.

Context {Message : Type}.
Variable dumps : Message -> option (list byte).
Variable loads : list byte -> option Message.

Lemma to_N_byte_of n : (n < 256)%N -> Byte.to_N (Int.byte_of n) = n.
Proof.
  intros Hn. unfold Int.byte_of.
  destruct (Byte.of_N n) as [b|] eqn:Hb; [by apply Byte.to_of_N|].
  apply Byte.of_N_None_iff in Hb. lia.
Qed.

Lemma from_bytes_digits length n :
  Int.from_bytes (rev (Int.digits length n)) = (n mod 256 ^ N.of_nat length)%N.
Proof.
  unfold Int.from_bytes. revert n.
  induction length as [|length IH]; intros n.
  - cbn. by rewrite N.mod_1_r.
  - cbn [Int.digits rev]. rewrite foldl_app. cbn [foldl].
    rewrite IH, to_N_byte_of by (apply N.mod_lt; lia).
    rewrite Nat2N.inj_succ, N.pow_succ_r', N.Div0.mod_mul_r. lia.
Qed.

Lemma length_digits length n : List.length (Int.digits length n) = length.
Proof.
  revert n. induction length as [|length IH]; intros n; [done|].
  cbn. by rewrite IH.
Qed.

(** The loop of [receive_data], on a socket on which the bytes of the
    message will all arrive, however the transport cuts them. *)
Lemma receive_chunks_run rounds message_length bytes_received chunks s :
  Socket.connected s = true ->
  (bytes_received <= message_length)%nat ->
  (message_length - bytes_received <= rounds)%nat ->
  (message_length - bytes_received <= length (Socket.arriving s))%nat ->
  exists (chunks' : list (list byte)) ready',
    Framing.receive_chunks rounds message_length bytes_received chunks s
    = Some (Some (chunks ++ chunks')%list,
            Socket.mk true (Socket.sent s)
              (drop (message_length - bytes_received) (Socket.arriving s))
              ready')
    /\ concat chunks'
       = take (message_length - bytes_received) (Socket.arriving s).
Proof.
  revert bytes_received chunks s.
  induction rounds as [|rounds IH]; intros bytes_received chunks s
    Hconnected Hreceived Hrounds Harriving.
  - assert (bytes_received = message_length) as -> by lia.
    exists [], (Socket.ready s). cbn [Framing.receive_chunks].
    rewrite Nat.ltb_irrefl, Nat.sub_diag, app_nil_r. cbn.
    split; [|done]. destruct s; cbn in *. by subst.
  - cbn [Framing.receive_chunks].
    destruct (bytes_received <? message_length)%nat eqn:Hlt.
    + apply Nat.ltb_lt in Hlt. unfold Socket.recv. rewrite Hconnected.
      set (n := (_ `min` (1 `max` _))%nat).
      assert (1 <= n <= message_length - bytes_received)%nat as Hn by lia.
      rewrite bool_decide_false; cycle 1.
      { intros Hnil. apply (f_equal length) in Hnil.
        rewrite length_take in Hnil. cbn in Hnil. lia. }
      rewrite length_take, Nat.min_l by lia.
      edestruct (IH (bytes_received + n)%nat (chunks ++ [take n (Socket.arriving s)])
                   (Socket.mk true (Socket.sent s) (drop n (Socket.arriving s))
                      (tl (Socket.ready s))))
        as (chunks' & ready' & -> & Hconcat);
        [done|lia|lia|cbn; rewrite length_drop; lia|].
      cbn [Socket.sent Socket.arriving] in *.
      exists (take n (Socket.arriving s) :: chunks'), ready'.
      rewrite <- (assoc_L (++)). cbn [app]. rewrite drop_drop.
      replace (n + (message_length - (bytes_received + n)))%nat
        with (message_length - bytes_received)%nat by lia.
      split; [done|]. cbn [concat]. rewrite Hconcat, take_take_drop.
      f_equal. lia.
    + apply Nat.ltb_ge in Hlt.
      assert (bytes_received = message_length) as -> by lia.
      exists [], (Socket.ready s). rewrite Nat.sub_diag, app_nil_r. cbn.
      split; [|done]. destruct s; cbn in *. by subst.
Qed.

(** X21: A message sent is received. [send_data] on a connected socket, for a
    message that can be serialized on fewer than [2^32] bytes, returns
    [True] and writes the frame of the message and nothing else. When this
    frame is what arrives on a connected socket, followed by anything, and
    the transport delivers its first four bytes at once, [receive_data]
    returns what [json.loads] makes of the serialized message, whatever
    the cuts of the transport in the rest of it, and leaves what follows
    the frame to the next call. *)
Theorem send_receive_frame data serialized a b rest :
  dumps data = Some serialized ->
  (N.of_nat (length serialized) < 2 ^ 32)%N ->
  Socket.connected a = true ->
  Socket.connected b = true ->
  Socket.arriving b = frame serialized ++ rest ->
  (4 <= hd 4 (Socket.ready b))%nat ->
  Framing.send_data Message dumps a data
  = (true,
     Socket.mk true (Socket.sent a ++ frame serialized) (Socket.arriving a)
       (Socket.ready a))
  /\ exists ready',
       Framing.receive_data Message loads b
       = (loads serialized, Socket.mk true (Socket.sent b) rest ready').
Proof.
  intros Hdumps Hlength Ha Hb Harriving Hready.
  assert (N.of_nat (length serialized) < 256 ^ N.of_nat 4)%N as Hlt by done.
  split.
  - unfold Framing.send_data, Int.to_bytes, Socket.sendall.
    rewrite Hdumps. cbv zeta.
    apply N.ltb_lt in Hlt. rewrite Hlt, Ha. done.
  - unfold Framing.receive_data, Socket.recv. rewrite Hb. cbv zeta.
    replace (4 `min` (1 `max` hd 4 (Socket.ready b)))%nat with 4%nat by lia.
    rewrite Harriving. unfold frame.
    set (header := rev (Int.digits 4 _)).
    assert (length header = 4%nat) as Hheader.
    { unfold header. by rewrite length_rev, length_digits. }
    assert (take 4 ((header ++ serialized) ++ rest) = header) as ->.
    { rewrite <- (assoc_L (++)), <- Hheader. apply take_app_length. }
    assert (drop 4 ((header ++ serialized) ++ rest) = serialized ++ rest) as ->.
    { rewrite <- (assoc_L (++)), <- Hheader. apply drop_app_length. }
    rewrite bool_decide_false by (by intros Hnil; rewrite Hnil in Hheader).
    rewrite Hheader. cbn [Nat.eqb negb orb].
    assert (N.to_nat (Int.from_bytes header) = length serialized) as ->.
    { unfold header. rewrite from_bytes_digits, N.mod_small by done.
      apply Nat2N.id. }
    edestruct (receive_chunks_run (length serialized) (length serialized) 0 []
                 (Socket.mk true (Socket.sent b) (serialized ++ rest)
                    (tl (Socket.ready b))))
      as (chunks & ready' & -> & Hconcat);
      [done|lia|lia|cbn; rewrite length_app; lia|].
    cbn [Socket.sent Socket.arriving app] in *.
    rewrite Nat.sub_0_r in *.
    rewrite take_app_length in Hconcat. rewrite drop_app_length, Hconcat.
    by exists ready'.
Qed.

(** X22: A header that the transport cuts is an error. When a whole frame will
    arrive but fewer than four bytes are ready at the first [recv],
    [receive_data] returns [None]; it has taken these bytes from the
    stream, and the next call starts in the middle of the header. *)
Theorem receive_data_short_header b n :
  Socket.connected b = true ->
  hd 4%nat (Socket.ready b) = n -> (n < 4)%nat ->
  (4 <= length (Socket.arriving b))%nat ->
  Framing.receive_data Message loads b
  = (None,
     Socket.mk true (Socket.sent b) (drop (1 `max` n) (Socket.arriving b))
       (tl (Socket.ready b))).
Proof.
  intros Hb Hready Hn Harriving.
  unfold Framing.receive_data, Socket.recv. rewrite Hb, Hready. cbv zeta.
  replace (4 `min` (1 `max` n))%nat with (1 `max` n)%nat by lia.
  assert (length (take (1 `max` n) (Socket.arriving b)) = (1 `max` n)%nat)
    as Hlen by (rewrite length_take; lia).
  rewrite Hlen.
  replace ((1 `max` n) =? 4)%nat with false by (symmetry; apply Nat.eqb_neq; lia).
  by rewrite orb_true_r.
Qed.

(** X23: What [send_data] refuses: a message that cannot be serialized, one of
    [2^32] bytes or more, and any message on a socket that is not
    connected. It returns [False] and nothing is written. *)
Theorem send_data_refused data a :
  dumps data = None
  \/ (exists serialized,
        dumps data = Some serialized
        /\ (2 ^ 32 <= N.of_nat (length serialized))%N)
  \/ Socket.connected a = false ->
  Framing.send_data Message dumps a data = (false, a).
Proof.
  unfold Framing.send_data, Int.to_bytes, Socket.sendall.
  intros [-> | [(serialized & -> & Hlen) | Ha]]; [done| |].
  - cbv zeta.
    assert ((N.of_nat (length serialized) <? 256 ^ N.of_nat 4)%N = false) as ->;
      [|done].
    by apply N.ltb_ge.
  - rewrite Ha. by repeat case_match.
Qed.

End FramingProps.

Lemma send_receive_frame_witness :
  let dumps (data : list byte) := Some data in
  let loads (message : list byte) := Some message in
  let message := ["{"; "}"]%byte in
  let a := Socket.mk true [] [] [] in
  let b :=
    Socket.mk true []
      (["000"; "000"; "000"; "002"; "{"; "}"; "000"; "000"]%byte)
      [4; 1; 1]%nat in
  Framing.send_data (list byte) dumps a message
  = (true, Socket.mk true ["000"; "000"; "000"; "002"; "{"; "}"]%byte [] [])
  /\ exists ready',
       Framing.receive_data (list byte) loads b
       = (Some message, Socket.mk true [] ["000"; "000"]%byte ready').
Proof.
  intros dumps loads message a b.
  apply (send_receive_frame dumps loads message message a b
           ["000"; "000"]%byte);
    [reflexivity|by vm_compute|reflexivity|reflexivity|reflexivity|cbn; lia].
Defined.

Lemma receive_data_short_header_witness :
  let loads (message : list byte) := Some message in
  let b :=
    Socket.mk true []
      (["000"; "000"; "000"; "002"; "{"; "}"]%byte) [3; 3]%nat in
  Framing.receive_data (list byte) loads b
  = (None, Socket.mk true [] ["002"; "{"; "}"]%byte [3]%nat).
Proof.
  intros loads b.
  apply (receive_data_short_header loads b 3);
    [reflexivity|reflexivity|lia|cbn; lia].
Defined.

Lemma send_data_refused_witness :
  let dumps (data : list byte) := Some data in
  let a := Socket.mk false [] [] [] in
  Framing.send_data (list byte) dumps a ["{"; "}"]%byte = (false, a).
Proof.
  intros dumps a. apply (send_data_refused dumps). by right; right.
Defined.

Section FramingSound.

Local Open Scope list_scope.

Context {Message : Type}.
Variable loads : list byte -> option Message.

Lemma byte_of_to_N b : Int.byte_of (Byte.to_N b) = b.
Proof. unfold Int.byte_of. by rewrite Byte.of_to_N. Qed.

Lemma digits_from_bytes bytes :
  rev (Int.digits (length bytes) (Int.from_bytes bytes)) = bytes.
Proof.
  unfold Int.from_bytes.
  induction bytes as [|b bytes IH] using rev_ind; [done|].
  rewrite length_app, Nat.add_comm, foldl_app. cbn [length foldl Nat.add].
  cbn [Int.digits rev].
  pose proof (Byte.to_N_bounded b).
  set (n := foldl _ 0%N bytes) in *.
  replace ((n * 256 + Byte.to_N b) mod 256)%N with (Byte.to_N b)
    by (symmetry; rewrite N.add_comm, N.Div0.mod_add;
        apply N.mod_small; lia).
  replace ((n * 256 + Byte.to_N b) / 256)%N with n
    by (rewrite N.div_add_l, N.div_small by lia; lia).
  by rewrite IH, byte_of_to_N.
Qed.

(** The loop of [receive_data], when it ends with the chunks: it has read
    the bytes still missing, no more and no fewer. *)
Lemma receive_chunks_sound rounds message_length bytes_received chunks s
  chunks' s' :
  Framing.receive_chunks rounds message_length bytes_received chunks s
  = Some (Some chunks', s') ->
  (bytes_received <= message_length)%nat ->
  exists new,
    chunks' = chunks ++ new
    /\ concat new = take (message_length - bytes_received) (Socket.arriving s)
    /\ length (concat new) = (message_length - bytes_received)%nat
    /\ Socket.arriving s'
       = drop (message_length - bytes_received) (Socket.arriving s)
    /\ Socket.sent s' = Socket.sent s.
Proof.
  revert bytes_received chunks s.
  induction rounds as [|rounds IH]; intros bytes_received chunks s;
    cbn [Framing.receive_chunks];
    destruct (bytes_received <? message_length)%nat eqn:Hlt;
    try (apply Nat.ltb_ge in Hlt; intros [= <- <-] Hle;
         assert (bytes_received = message_length) as -> by lia;
         exists []; rewrite Nat.sub_diag, app_nil_r; by cbn);
    [done|].
  apply Nat.ltb_lt in Hlt. unfold Socket.recv.
  destruct (Socket.connected s); [|done].
  set (n := (_ `min` (1 `max` _))%nat).
  assert (1 <= n <= message_length - bytes_received)%nat as Hn by lia.
  case_bool_decide as Hchunk; [done|].
  intros Hrun Hle.
  pose proof (length_take (Socket.arriving s) n) as Hlength.
  apply IH in Hrun as (new & -> & Hconcat & Hnew & Harriving & Hsent);
    [|lia].
  cbn [Socket.arriving Socket.sent] in *.
  assert (length (take n (Socket.arriving s)) = n) as Hfull.
  { destruct (decide (n <= length (Socket.arriving s))%nat); [lia|].
    rewrite drop_ge in Hconcat by lia. rewrite take_nil in Hconcat.
    rewrite Hconcat in Hnew. cbn in Hnew. lia. }
  rewrite Hfull in *.
  exists (take n (Socket.arriving s) :: new).
  rewrite <- (assoc_L (++)). cbn [app concat].
  rewrite length_app, Hfull, Hnew, Hconcat, take_take_drop, Harriving, drop_drop.
  replace (n + (message_length - (bytes_received + n)))%nat
    with (message_length - bytes_received)%nat by lia.
  by split_and!; [..|lia| |].
Qed.

(** X28: A message received was framed. When [receive_data] returns a message,
    the bytes it has read are a four-byte length, the highest byte first,
    followed by exactly that many bytes, which [json.loads] turns into the
    message returned; it has read nothing beyond them and written
    nothing. It never returns a message cut short by the peer. *)
Theorem receive_data_sound b message b' :
  Framing.receive_data Message loads b = (Some message, b') ->
  exists serialized,
    Socket.arriving b = frame serialized ++ Socket.arriving b'
    /\ loads serialized = Some message
    /\ Socket.sent b' = Socket.sent b.
Proof.
  unfold Framing.receive_data, Socket.recv.
  destruct (Socket.connected b); [|done]. cbv zeta.
  set (n := (4 `min` (1 `max` _))%nat).
  set (header := take n (Socket.arriving b)).
  destruct (bool_decide (header = []) || negb (length header =? 4)%nat)
    eqn:Hheader; [done|].
  apply orb_false_elim in Hheader as [_ Hheader].
  apply negb_false_iff, Nat.eqb_eq in Hheader.
  assert (n = 4%nat) as Hn.
  { unfold header in Hheader. rewrite length_take in Hheader. lia. }
  destruct (Framing.receive_chunks _ _ _ _ _) as [[[chunks|] s]|] eqn:Hrun;
    [|done|done].
  intros [= Hloads <-].
  apply receive_chunks_sound in Hrun
    as (new & -> & Hconcat & Hlength & Harriving & Hsent); [|lia].
  cbn [Socket.arriving Socket.sent app] in *. rewrite Nat.sub_0_r in *.
  exists (concat new). split_and!; [|done|done].
  unfold frame. rewrite Hlength, N2Nat.id.
  rewrite <- Hheader at 1. rewrite digits_from_bytes.
  rewrite Harriving, Hconcat, <- (assoc_L (++)), take_drop.
  unfold header. by rewrite take_drop.
Qed.

End FramingSound.

Lemma receive_data_sound_witness :
  let loads (message : list byte) := Some message in
  let b :=
    Socket.mk true []
      (["000"; "000"; "000"; "002"; "{"; "}"; "000"; "000"]%byte)
      [4; 1; 1]%nat in
  let b' := Socket.mk true [] (["000"; "000"]%byte) [] in
  Framing.receive_data (list byte) loads b = (Some ["{"; "}"]%byte, b')
  /\ exists serialized,
       Socket.arriving b = (frame serialized ++ Socket.arriving b')%list
       /\ loads serialized = Some ["{"; "}"]%byte
       /\ Socket.sent b' = Socket.sent b.
Proof.
  intros loads b b'.
  assert (Framing.receive_data (list byte) loads b = (Some ["{"; "}"]%byte, b'))
    as Hrun by reflexivity.
  split; [done|]. by apply (receive_data_sound loads b).
Defined.

(** ** player.py: the AI player *)

Section AIProps.

Local Open Scope list_scope.

Lemma select_switchable pl k n :
  (k + n <= length (Player.team pl))%nat ->
  AIPlayer.select
    (fun i =>
       if negb (i =? Player.active_pokemon_index pl)%nat
       then rbind (AIPlayer.item (Player.team pl) i) (fun pokemon =>
            Ok (negb (Pokemon.is_fainted pokemon)))
       else Ok false)
    (seq k n)
  = Ok (List.filter (switchable pl) (seq k n)).
Proof.
  revert k. induction n as [|n IH]; intros k Hk; [done|].
  cbn [seq AIPlayer.select List.filter]. rewrite IH by lia.
  unfold switchable at 2, AIPlayer.item.
  destruct (lookup_lt_is_Some_2 (Player.team pl) k) as [p ->]; [lia|].
  destruct (k =? Player.active_pokemon_index pl)%nat; cbn [negb rbind andb];
    [done|]. by destruct (Pokemon.is_fainted p).
Qed.

Lemma can_switch_switchable self :
  AIPlayer._can_switch self = true
  <-> exists i, switchable (AIPlayer.player self) i = true.
Proof.
  unfold AIPlayer._can_switch, AIPlayer.enumerate, switchable.
  rewrite existsb_exists. split.
  - intros ([i p] & Hin & Hp). apply list_elem_of_In in Hin.
    apply elem_of_lookup_imap in Hin as (i' & p' & [= -> ->] & Hlookup).
    exists i'. by rewrite Hlookup.
  - intros (i & Hi).
    destruct (Player.team (AIPlayer.player self) !! i) as [p|] eqn:Hp;
      [|by rewrite andb_false_r in Hi].
    exists (i, p). split; [|done].
    apply list_elem_of_In, elem_of_lookup_imap. eauto.
Qed.

Lemma switchable_switch_pokemon pl i :
  switchable pl i = true ->
  i <> Player.active_pokemon_index pl
  /\ Player.switch_pokemon (Z.of_nat i) pl
     = (true, Player.set_active_pokemon_index i pl).
Proof.
  unfold switchable. intros [Hi Hp]%andb_prop.
  apply negb_true_iff, Nat.eqb_neq in Hi. split; [done|].
  destruct (Player.team pl !! i) as [p|] eqn:Hlookup; [|done].
  unfold Player.switch_pokemon, Player.in_range.
  pose proof (lookup_lt_Some _ _ _ Hlookup).
  replace (0 <=? Z.of_nat i) with true by lia.
  replace (Z.of_nat i <? Z.of_nat (length (Player.team pl))) with true by lia.
  cbn [andb]. by rewrite Nat2Z.id, Hlookup, Hp.
Qed.

Lemma insert_descending_perm {A} (x : num * A) sorted :
  AIPlayer.insert_descending x sorted ≡ₚ x :: sorted.
Proof.
  induction sorted as [|y sorted IH]; [done|]. cbn.
  destruct (ltb y.1 x.1); [done|]. by rewrite IH, Permutation_swap.
Qed.

Lemma sort_descending_perm {A} (l : list (num * A)) :
  AIPlayer.sort_descending l ≡ₚ l.
Proof.
  unfold AIPlayer.sort_descending.
  assert (forall sorted,
            foldl (fun sorted x => AIPlayer.insert_descending x sorted) sorted l
            ≡ₚ sorted ++ l) as H; [|apply (H [])].
  induction l as [|x l IH]; intros sorted; cbn [foldl].
  - by rewrite app_nil_r.
  - rewrite IH, insert_descending_perm. cbn [app]. apply Permutation_middle.
Qed.

Lemma for_list_length {A B} (f : A -> res B) l ys :
  AIPlayer.for_list f l = Ok ys -> length ys = length l.
Proof.
  revert ys. induction l as [|x l IH]; intros ys; cbn.
  - by intros [= <-].
  - destruct (f x); [|done]. cbn.
    destruct (AIPlayer.for_list f l); [|done]. cbn. intros [= <-].
    cbn. by rewrite (IH _ eq_refl).
Qed.

(** X24: The switch the AI chooses after a faint is one the roster accepts. When
    [choose_switch] returns, it returns a pass if no slot other than the
    active one holds a Pokémon that has not fainted, and otherwise a switch
    to such a slot, which [switch_pokemon] carries out. On the difficulty
    "easy" it always returns. *)
Theorem choose_switch_legal self :
  (AIPlayer.difficulty self = "easy" ->
   exists action, AIPlayer.choose_switch self = Ok action)
  /\ forall action,
       AIPlayer.choose_switch self = Ok action ->
       (action = pass_action /\ AIPlayer._can_switch self = false)
       \/ exists index,
            action = switch_action index
            /\ AIPlayer._can_switch self = true
            /\ index <> Player.active_pokemon_index (AIPlayer.player self)
            /\ Player.switch_pokemon (Z.of_nat index) (AIPlayer.player self)
               = (true,
                  Player.set_active_pokemon_index index (AIPlayer.player self)).
Proof.
  unfold AIPlayer.choose_switch. cbv zeta.
  rewrite (select_switchable (AIPlayer.player self) 0) by lia. cbn [rbind].
  set (available := List.filter _ _).
  assert (forall i, i ∈ available -> switchable (AIPlayer.player self) i = true)
    as Havailable.
  { intros i Hi. apply list_elem_of_In in Hi. unfold available in Hi.
    by apply filter_In in Hi as [_ Hi]. }
  assert (available = [] -> AIPlayer._can_switch self = false) as Hnone.
  { intros Hnil. apply not_true_is_false.
    intros (i & Hi)%can_switch_switchable.
    assert (i ∈ available) as Hin; [|by rewrite Hnil in Hin; inversion Hin].
    apply list_elem_of_In, filter_In. split; [|done]. apply in_seq.
    unfold switchable in Hi. apply andb_prop in Hi as [_ Hi].
    destruct (Player.team (AIPlayer.player self) !! i) eqn:Hp; [|done].
    apply lookup_lt_Some in Hp. lia. }
  assert (forall sorted index,
            sorted ≡ₚ available ->
            AIPlayer.item sorted 0 = Ok index ->
            AIPlayer._can_switch self = true
            /\ index <> Player.active_pokemon_index (AIPlayer.player self)
            /\ Player.switch_pokemon (Z.of_nat index) (AIPlayer.player self)
               = (true,
                  Player.set_active_pokemon_index index
                    (AIPlayer.player self))) as Hfirst.
  { intros sorted index Hperm Hitem. unfold AIPlayer.item in Hitem.
    destruct (sorted !! 0%nat) as [i|] eqn:Hi; [|done].
    injection Hitem as ->.
    assert (switchable (AIPlayer.player self) index = true) as Hs.
    { apply Havailable. rewrite <- Hperm. by eapply list_elem_of_lookup_2. }
    split; [apply can_switch_switchable; eauto|].
    by apply switchable_switch_pokemon. }
  split.
  - intros ->. case_bool_decide; [eauto|]. cbn [String.eqb negb rbind].
    change (String.eqb "easy" "easy") with true. cbn [negb rbind].
    destruct available as [|i available']; [done|]. cbn. eauto.
  - intros action. case_bool_decide as Hnil.
    + intros [= <-]. left. auto.
    + destruct (negb (String.eqb (AIPlayer.difficulty self) "easy")).
      * destruct (AIPlayer.for_list _ available) as [keys|] eqn:Hkeys; [|done].
        cbn [rbind].
        destruct (AIPlayer.item _ 0) as [index|] eqn:Hitem; [|done].
        cbn [rbind]. intros [= <-]. right. exists index. split; [done|].
        eapply Hfirst; [|exact Hitem].
        rewrite sort_descending_perm, snd_zip; [done|].
        by rewrite (for_list_length _ _ _ Hkeys).
      * cbn [rbind].
        destruct (AIPlayer.item available 0) as [index|] eqn:Hitem; [|done].
        cbn [rbind]. intros [= <-]. right. exists index. split; [done|].
        by eapply Hfirst.
Qed.

End AIProps.

Section ScoreProps.

Variable MOVE_DATA : gmap string Data.Move.
Variable TYPE_CHART : gmap string (gmap string float).

(** A loop that has raised stays raised. *)
Lemma foldl_raise {A B} (f : res A -> B -> res A) (l : list B) e :
  (forall x, f (Raise e) x = Raise e) -> foldl f (Raise e) l = Raise e.
Proof. intros Hf. induction l as [|x l IH]; [done|]. cbn. by rewrite Hf. Qed.

Lemma truediv_float_cases a b :
  (exists f, truediv (Float a) (Float b) = Ok (Float f))
  \/ truediv (Float a) (Float b) = Raise ZeroDivisionError.
Proof. unfold truediv. destruct (is_zero _); [by right|]. left. by eexists. Qed.

(** The inner loop of the defensive score, once it meets an attacker type
    the chart gives 0 for. *)
Lemma resistance_raises defender_type attacker_types attacker_type acc :
  attacker_type ∈ attacker_types ->
  is_zero
    (Float (default 1.0%float
              (default ∅ (TYPE_CHART !! defender_type) !! attacker_type)))
  = true ->
  (exists f, acc = Ok (Float f)) \/ acc = Raise ZeroDivisionError ->
  foldl (fun resistance attacker_type =>
           rbind resistance (fun resistance =>
           rbind
             (truediv (Float 1.0)
                (Float (default 1.0%float
                          (default ∅ (TYPE_CHART !! defender_type)
                           !! attacker_type))))
             (fun type_resistance => mul resistance type_resistance)))
        acc attacker_types
  = Raise ZeroDivisionError.
Proof.
  intros Hin Hzero. revert acc.
  induction attacker_types as [|t attacker_types IH]; intros acc Hacc;
    [by inversion Hin|].
  cbn [foldl].
  destruct Hacc as [[f ->] | ->]; [|by apply foldl_raise].
  cbn [rbind]. apply elem_of_cons in Hin as [<- | Hin].
  - assert (truediv (Float 1.0)
              (Float (default 1.0%float
                        (default ∅ (TYPE_CHART !! defender_type)
                         !! attacker_type)))
            = Raise ZeroDivisionError) as ->.
    { unfold truediv. by rewrite Hzero. }
    cbn [rbind]. by apply foldl_raise.
  - apply IH; [done|].
    destruct (truediv_float_cases 1.0
                (default 1.0%float
                   (default ∅ (TYPE_CHART !! defender_type) !! t)))
      as [[g ->] | ->]; [left; by eexists|by right].
Qed.

Lemma resistance_cases defender_type attacker_types acc :
  (exists f, acc = Ok (Float f)) \/ acc = Raise ZeroDivisionError ->
  let resistance :=
    foldl (fun resistance attacker_type =>
             rbind resistance (fun resistance =>
             rbind
               (truediv (Float 1.0)
                  (Float (default 1.0%float
                            (default ∅ (TYPE_CHART !! defender_type)
                             !! attacker_type))))
               (fun type_resistance => mul resistance type_resistance)))
          acc attacker_types in
  (exists f, resistance = Ok (Float f)) \/ resistance = Raise ZeroDivisionError.
Proof.
  revert acc. induction attacker_types as [|t attacker_types IH];
    intros acc Hacc; [done|].
  cbn [foldl]. apply IH. destruct Hacc as [[f ->] | ->]; [|by right].
  cbn [rbind].
  destruct (truediv_float_cases 1.0
              (default 1.0%float
                 (default ∅ (TYPE_CHART !! defender_type) !! t)))
    as [[g ->] | ->]; [left; by eexists|by right].
Qed.

(** The defensive score, once the loop meets a type of the defender against
    which the chart gives 0 for a type of the attacker. *)
Lemma defensive_score_raises attacker_types defender_types defender_type
  attacker_type acc :
  defender_type ∈ defender_types -> attacker_type ∈ attacker_types ->
  is_zero
    (Float (default 1.0%float
              (default ∅ (TYPE_CHART !! defender_type) !! attacker_type)))
  = true ->
  acc = Ok (Int 0) \/ (exists f, acc = Ok (Float f))
  \/ acc = Raise ZeroDivisionError ->
  foldl (fun defensive_score defender_type =>
           rbind defensive_score (fun defensive_score =>
           rbind
             (foldl (fun resistance attacker_type =>
                       rbind resistance (fun resistance =>
                       rbind
                         (truediv (Float 1.0)
                            (Float
                               (default 1.0%float
                                  (default ∅ (TYPE_CHART !! defender_type)
                                   !! attacker_type))))
                         (fun type_resistance =>
                       mul resistance type_resistance)))
                    (Ok (Float 1.0)) attacker_types)
             (fun resistance => add defensive_score resistance)))
        acc defender_types
  = Raise ZeroDivisionError.
Proof.
  intros Hdefender Hattacker Hzero. revert acc.
  induction defender_types as [|t defender_types IH]; intros acc Hacc;
    [by inversion Hdefender|].
  cbn [foldl].
  assert ((exists x, acc = Ok x /\ (x = Int 0 \/ exists f, x = Float f))
          \/ acc = Raise ZeroDivisionError) as [(x & -> & Hx) | ->].
  { destruct Hacc as [-> | [[f ->] | ->]]; eauto 6. }
  2:{ by apply foldl_raise. }
  cbn [rbind]. apply elem_of_cons in Hdefender as [<- | Hdefender].
  - rewrite (resistance_raises defender_type attacker_types attacker_type)
      by (try done; left; by eexists).
    cbn [rbind]. by apply foldl_raise.
  - apply IH; [done|].
    destruct (resistance_cases t attacker_types (Ok (Float 1.0)))
      as [[r ->] | ->]; [left; by eexists| |right; by right].
    cbn [rbind]. destruct Hx as [-> | [f ->]]; right; left; by eexists.
Qed.

Lemma mul_int_float_cases p f :
  (exists g, mul (Int p) (Float f) = Ok (Float g))
  \/ mul (Int p) (Float f) = Raise OverflowError.
Proof.
  unfold mul, to_float, float_of_Z.
  destruct (is_infinity _); cbn [rbind]; [by right|]. left. by eexists.
Qed.

(** The offensive score is a number, unless a power is too large for a
    float. *)
Lemma offensive_score_cases attacker defender acc :
  (exists x, acc = Ok x) \/ acc = Raise OverflowError ->
  let offensive :=
    foldl (fun offensive_score move_name =>
             rbind offensive_score (fun offensive_score =>
             let move := default Data.empty_move (MOVE_DATA !! move_name) in
             if 0 <? default 0 (Data.power move) then
               let move_type := default "Normal" (Data.type move) in
               let effectiveness :=
                 Float (Battle.type_effectiveness TYPE_CHART move_type
                          (Pokemon.types defender)) in
               let stab :=
                 if bool_decide (move_type ∈ Pokemon.types attacker)
                 then Float 1.5 else Float 1.0 in
               rbind (mul (Int (default 40 (Data.power move))) effectiveness)
                 (fun x =>
               rbind (mul x stab) (fun move_score =>
               Ok (if gtb move_score offensive_score then move_score
                   else offensive_score)))
             else Ok offensive_score))
          acc (Pokemon.moves attacker) in
  (exists x, offensive = Ok x) \/ offensive = Raise OverflowError.
Proof.
  revert acc.
  induction (Pokemon.moves attacker) as [|move_name moves IH]; intros acc Hacc;
    [done|].
  cbn [foldl]. apply IH. destruct Hacc as [[x ->] | ->]; [|by right].
  cbn [rbind]. cbv zeta. destruct (0 <? _); [|left; by eexists].
  match goal with
  | |- context [mul (Int ?p) (Float ?f)] =>
      destruct (mul_int_float_cases p f) as [[g ->] | ->]
  end; cbn [rbind]; [|by right].
  destruct (bool_decide _); cbn; left; by eexists.
Qed.

(** X25: The score of the hard AI cannot be computed against an immunity: when
    the chart gives 0 for a type of the attacker against a type of the
    defender, as attacking type, [_calculate_effectiveness_score] raises,
    [ZeroDivisionError] unless the offensive part has overflowed. *)
Theorem effectiveness_score_immunity attacker defender defender_type
  attacker_type row value :
  defender_type ∈ Pokemon.types defender ->
  attacker_type ∈ Pokemon.types attacker ->
  TYPE_CHART !! defender_type = Some row ->
  row !! attacker_type = Some value ->
  PrimFloat.is_zero value = true ->
  AIPlayer._calculate_effectiveness_score MOVE_DATA TYPE_CHART
    attacker defender = Raise ZeroDivisionError
  \/ AIPlayer._calculate_effectiveness_score MOVE_DATA TYPE_CHART
       attacker defender = Raise OverflowError.
Proof.
  intros Hdefender Hattacker Hrow Hvalue Hzero.
  unfold AIPlayer._calculate_effectiveness_score.
  pose proof (offensive_score_cases attacker defender (Ok (Int 0))) as Hoffensive.
  cbv zeta in Hoffensive |- *.
  destruct Hoffensive as [[x ->] | ->]; [left; by eexists| |by right].
  rewrite (defensive_score_raises (Pokemon.types attacker)
             (Pokemon.types defender) defender_type attacker_type);
    [|done|done|by rewrite Hrow; cbn; rewrite Hvalue|by left].
  by left.
Qed.

End ScoreProps.

Lemma choose_switch_legal_witness :
  let fainted :=
    Sample.pokemon "Machamp" ["Fighting"] ["Strength"] 150 0 100 100 in
  let self :=
    AIPlayer.mk (Sample.gary [fainted; hurt_gengar; Sample.snorlax]) "medium" in
  AIPlayer.choose_switch self = Ok (switch_action 2)
  /\ Player.switch_pokemon 2 (AIPlayer.player self)
     = (true, Player.set_active_pokemon_index 2 (AIPlayer.player self)).
Proof.
  intros fainted self.
  assert (AIPlayer.choose_switch self = Ok (switch_action 2)) as Hchoice
    by (by vm_compute).
  split; [done|].
  destruct (choose_switch_legal self) as [_ Hlegal].
  destruct (Hlegal _ Hchoice) as [[[=] _] | (index & [= Hindex] & _ & _ & Hswitch)].
  by replace index with 2%nat in Hswitch by lia.
Defined.

Lemma effectiveness_score_immunity_witness :
  AIPlayer._calculate_effectiveness_score Sample.MOVE_DATA Sample.TYPE_CHART
    Sample.gengar Sample.snorlax = Raise ZeroDivisionError
  \/ AIPlayer._calculate_effectiveness_score Sample.MOVE_DATA Sample.TYPE_CHART
       Sample.gengar Sample.snorlax = Raise OverflowError.
Proof.
  apply (effectiveness_score_immunity Sample.MOVE_DATA Sample.TYPE_CHART
           Sample.gengar Sample.snorlax "Normal" "Ghost"
           (<["Ghost" := 0.0%float]> (<["Rock" := 0.5%float]> ∅))
           0.0%float).
  - apply (bool_decide_unpack _). by vm_compute.
  - apply (bool_decide_unpack _). by vm_compute.
  - by vm_compute.
  - by vm_compute.
  - by vm_compute.
Defined.

(** X26: The AI's test for a potion agrees with the roster: [_can_use_potion]
    holds exactly when some call of [use_potion] would succeed. *)
Theorem can_use_potion_iff self :
  AIPlayer._can_use_potion self = true
  <-> exists index, (Player.use_potion index (AIPlayer.player self)).1 = true.
Proof.
  unfold AIPlayer._can_use_potion, Player.use_potion.
  destruct (Player.potions (AIPlayer.player self) <=? 0).
  { split; [done|]. by intros [index H]. }
  rewrite existsb_exists. split.
  - intros (p & Hin & Hp).
    apply list_elem_of_In, list_elem_of_lookup in Hin as [i Hi].
    exists (Z.of_nat i). unfold Player.in_range.
    pose proof (lookup_lt_Some _ _ _ Hi).
    replace (0 <=? Z.of_nat i) with true by lia.
    replace (Z.of_nat i <? Z.of_nat (length (Player.team (AIPlayer.player self))))
      with true by lia.
    cbn [andb]. by rewrite Nat2Z.id, Hi, Hp.
  - intros [index H].
    destruct (Player.in_range index (AIPlayer.player self)); [|done].
    destruct (Player.team (AIPlayer.player self) !! Z.to_nat index)
      as [p|] eqn:Hp; [|done].
    exists p. split; [by eapply list_elem_of_In, list_elem_of_lookup_2|].
    by destruct (negb (Pokemon.is_fainted p) && _).
Qed.
